(** * Gate-entry dashboard: frame streaming client, response processing,
      overlay geometry and exit log

    Shallow embedding of the TypeScript front end
    (frontend/src/hooks/useWebSocketAlternative.ts, utils/processResponse.ts
    with the earlier hook useWebSocket, components/CanvasOverlay.tsx,
    components/ExitLog.tsx, components/VideoInput.tsx, the WebSocketTest
    component, App.tsx) and the properties stated about it.

    Conventions.
    - A JavaScript number is a [number]: NaN, the two infinities, or a
      finite value kept as an exact rational.  The sign of zero is not
      modelled.  Where no rounding function is given, the properties are
      about order, minimum/maximum and exactly representable values.
    - Code that can throw returns a [Res]; a [try]/[catch] is a match on it.
    - React state cells are record fields.  A callback sees the value of
      [isConnected] that was current in the render that created it, so the
      callbacks take that value as an argument.
    - Callbacks of the hook run in a state-and-output monad [M]; the output
      is the list of effects they request (console messages, FileReader
      reads, socket sends, timers).
    - Where a result depends on binary64 rounding (the label of a box,
      the scaled frame size, the capture clock), the rounding is a
      function [fl] of the section and the properties hold for every
      rounding to nearest. *)

From Stdlib Require Import ZArith QArith Qminmax Qpower Qround Lia Lqa.
From Stdlib Require Import Sorting.Sorted Sorting.Permutation.
From stdpp Require Import base option list sorting strings pretty gmap.

#[local] Set Warnings "-register-all".

Local Open Scope string_scope.
Local Open Scope list_scope.

(** ** Lists *)

(** The last [k] elements of a list. *)
Definition lastn {A : Type} (k : nat) (l : list A) : list A :=
  drop (length l - k) l.

(** ** JavaScript values *)

Module JS.

(** Result of an evaluation that may throw. *)
Inductive Res (A : Type) : Type :=
| Ok (a : A)
| Throw (e : string).
Arguments Ok {A} a.
Arguments Throw {A} e.

#[global] Instance Res_ret : MRet Res := fun _ a => Ok a.
#[global] Instance Res_bind : MBind Res := fun _ _ f m =>
  match m with
  | Ok a => f a
  | Throw e => Throw e
  end.

Definition TypeError : string := "TypeError".

(** A JavaScript number. *)
Inductive number : Type :=
| NaN
| NegInf
| Fin (q : Q)
| PosInf.

Definition isNaN (n : number) : bool :=
  match n with
  | NaN => true
  | _ => false
  end.

(** [a <= b] on numbers; false as soon as one side is NaN. *)
Definition num_leb (a b : number) : bool :=
  match a, b with
  | NaN, _ | _, NaN => false
  | NegInf, _ => true
  | _, PosInf => true
  | Fin x, Fin y => Qle_bool x y
  | _, _ => false
  end.

Definition num_le (a b : number) : Prop := num_leb a b = true.

(** [Math.min(a, b)] and [Math.max(a, b)]. *)
Definition Math_min (a b : number) : number :=
  match a, b with
  | NaN, _ | _, NaN => NaN
  | _, _ => if num_leb a b then a else b
  end.

Definition Math_max (a b : number) : number :=
  match a, b with
  | NaN, _ | _, NaN => NaN
  | _, _ => if num_leb a b then b else a
  end.

Definition Qsign (q : Q) : comparison := Qcompare q 0.

(** [a * b]. *)
Definition num_mul (a b : number) : number :=
  let inf (positive : bool) := if positive then PosInf else NegInf in
  let scaled (positive : bool) (q : Q) :=
    match Qsign q with
    | Eq => NaN
    | Gt => inf positive
    | Lt => inf (negb positive)
    end in
  match a, b with
  | NaN, _ | _, NaN => NaN
  | Fin x, Fin y => Fin (x * y)
  | PosInf, Fin y => scaled true y
  | NegInf, Fin y => scaled false y
  | Fin x, PosInf => scaled true x
  | Fin x, NegInf => scaled false x
  | PosInf, PosInf | NegInf, NegInf => PosInf
  | PosInf, NegInf | NegInf, PosInf => NegInf
  end.

(** [a - b]. *)
Definition num_sub (a b : number) : number :=
  match a, b with
  | NaN, _ | _, NaN => NaN
  | Fin x, Fin y => Fin (x - y)
  | PosInf, PosInf | NegInf, NegInf => NaN
  | PosInf, _ | _, NegInf => PosInf
  | NegInf, _ | _, PosInf => NegInf
  end.

Definition num_of_Z (z : Z) : number := Fin (inject_Z z).

(** A value as [JSON.parse] builds it, plus [undefined].  An object is the
    list of its own properties in the order [Object.entries] enumerates
    them.  No value of this type is callable. *)
Inductive JsValue : Type :=
| JUndefined
| JNull
| JBool (b : bool)
| JNumber (n : number)
| JString (s : string)
| JArray (l : list JsValue)
| JObject (props : list (string * JsValue)).

(** [!v] is [negb (truthy v)]. *)
Definition truthy (v : JsValue) : bool :=
  match v with
  | JUndefined | JNull => false
  | JBool b => b
  | JNumber NaN => false
  | JNumber (Fin q) => negb (Qeq_bool q 0)
  | JNumber _ => true
  | JString s => negb (String.eqb s "")
  | JArray _ | JObject _ => true
  end.

(** The own property [key] of an object, if it has one. *)
Fixpoint own (key : string) (props : list (string * JsValue))
  : option JsValue :=
  match props with
  | [] => None
  | (k, v) :: rest => if String.eqb k key then Some v else own key rest
  end.

(** [v.key] for a key that no prototype defines ([predictions],
    [exit_ids]); reading a property of [undefined] or [null] throws. *)
Definition getProp (v : JsValue) (key : string) : Res JsValue :=
  match v with
  | JUndefined | JNull => Throw TypeError
  | JObject props => Ok (default JUndefined (own key props))
  | _ => Ok JUndefined
  end.

Definition isArray (v : JsValue) : bool :=
  match v with
  | JArray _ => true
  | _ => false
  end.

Fixpoint chars (s : string) : list JsValue :=
  match s with
  | EmptyString => []
  | String c rest => JString (String c EmptyString) :: chars rest
  end.

(** Index keys ["0"], ["1"], ... paired with the elements. *)
Definition indexed (l : list JsValue) : list (string * JsValue) :=
  imap (fun i v => (pretty i, v)) l.

(** [Object.entries(v)]. *)
Definition Object_entries (v : JsValue) : Res (list (string * JsValue)) :=
  match v with
  | JUndefined | JNull => Throw TypeError
  | JBool _ | JNumber _ => Ok []
  | JString s => Ok (indexed (chars s))
  | JArray l => Ok (indexed l)
  | JObject props => Ok props
  end.

(** The two conversions between numbers and their text are the
    runtime's (ECMAScript StringToNumber and Number::toString). *)
Class Runtime : Type := {
  StringToNumber : string -> number;
  NumberToString : number -> string
}.

(** A runtime to run examples with.  It reads unsigned decimal integers
    and prints integers; other numeric strings read as NaN and other
    numbers print as a fraction, which the real conversions do not do.  No
    property below depends on it. *)
Fixpoint digits (s : string) (acc : N) : option N :=
  match s with
  | EmptyString => Some acc
  | String c rest =>
      let d := Ascii.N_of_ascii c in
      if (48 <=? d)%N && (d <=? 57)%N
      then digits rest (10 * acc + (d - 48))%N
      else None
  end.

Definition exampleRuntime : Runtime :=
  {| StringToNumber s :=
       match digits s 0 with
       | Some n => Fin (inject_Z (Z.of_N n))
       | None => NaN
       end;
     NumberToString n :=
       match n with
       | NaN => "NaN"
       | PosInf => "Infinity"
       | NegInf => "-Infinity"
       | Fin q =>
           let r := Qred q in
           if (Qden r =? 1)%positive then pretty (Qnum r)
           else pretty (Qnum r) +:+ "/" +:+ pretty (Zpos (Qden r))
       end |}.

Section Coercions.
Context `{Runtime}.

(** [ToString(v)], the conversion behind [String(v)].  For an object it
    is OrdinaryToPrimitive: [toString] and [valueOf] are looked up, the
    callable ones are called, and a TypeError is thrown when none returns
    a primitive.  The inherited [toString] returns "[object Object]" and
    the inherited [valueOf] returns the object itself; an own property of
    a parsed object is never callable.  So an object with an own
    [toString] property has no conversion left and [String] throws. *)
Fixpoint ToString (v : JsValue) : Res string :=
  match v with
  | JUndefined => Ok "undefined"
  | JNull => Ok "null"
  | JBool true => Ok "true"
  | JBool false => Ok "false"
  | JNumber n => Ok (NumberToString n)
  | JString s => Ok s
  | JArray l =>
      (* Array.prototype.join: null and undefined elements print as "" *)
      (fix join (l : list JsValue) : Res string :=
         match l with
         | [] => Ok ""
         | x :: rest =>
             s ← match x with
                 | JUndefined | JNull => Ok ""
                 | _ => ToString x
                 end;
             match rest with
             | [] => Ok s
             | _ => t ← join rest; Ok (s +:+ "," +:+ t)
             end
         end) l
  | JObject props =>
      match own "toString" props with
      | Some _ => Throw TypeError
      | None => Ok "[object Object]"
      end
  end.

(** [ToNumber(v)], the conversion behind [Number(v)]: an object, array
    included, goes through its string conversion. *)
Definition ToNumber (v : JsValue) : Res number :=
  match v with
  | JUndefined => Ok NaN
  | JNull => Ok (Fin 0)
  | JBool true => Ok (Fin 1)
  | JBool false => Ok (Fin 0)
  | JNumber n => Ok n
  | JString s => Ok (StringToNumber s)
  | JArray _ => s ← ToString v; Ok (StringToNumber s)
  | JObject props =>
      match own "toString" props with
      | Some _ => Throw TypeError
      | None => Ok NaN (* StringToNumber "[object Object]" *)
      end
  end.

End Coercions.

End JS.

(** ** utils/processResponse.ts *)

Module ProcessResponse.
Import JS.

Record ProcessedPrediction : Type := {
  trackId : string;
  name : string;
  confidence : number;
  x1 : number;
  y1 : number;
  x2 : number;
  y2 : number
}.

Section WithRuntime.
Context `{Runtime}.

(** Element [i] of an array, as array destructuring reads it. *)
Definition element (l : list JsValue) (i : nat) : JsValue :=
  default JUndefined (l !! i).

(** Body of the [forEach] callback for one [[trackId, prediction]] entry.
    [Ok None] is one of the two early [return]s; [Ok (Some p)] is a
    [processedPredictions.push(p)]. *)
Definition processEntry (entry : string * JsValue)
  : Res (option ProcessedPrediction) :=
  let '(trackId, prediction) := entry in
  match prediction with
  | JArray l =>
      if (length l <? 6)%nat then Ok None else
      let name := element l 0 in
      let confidence := element l 1 in
      parsedX1 ← ToNumber (element l 2);
      parsedY1 ← ToNumber (element l 3);
      parsedX2 ← ToNumber (element l 4);
      parsedY2 ← ToNumber (element l 5);
      if isNaN parsedX1 || isNaN parsedY1 || isNaN parsedX2 || isNaN parsedY2
      then Ok None
      else
        let normalizedX1 := Math_min parsedX1 parsedX2 in
        let normalizedY1 := Math_min parsedY1 parsedY2 in
        let normalizedX2 := Math_max parsedX1 parsedX2 in
        let normalizedY2 := Math_max parsedY1 parsedY2 in
        name' ← ToString name;
        confidence' ← ToNumber confidence;
        Ok (Some {| trackId := trackId;
                    name := name';
                    confidence := confidence';
                    x1 := normalizedX1;
                    y1 := normalizedY1;
                    x2 := normalizedX2;
                    y2 := normalizedY2 |})
  | _ => Ok None
  end.

(** [entries.forEach(callback)]: an exception in the callback leaves the
    loop. *)
Fixpoint forEach (entries : list (string * JsValue))
    (processedPredictions : list ProcessedPrediction)
  : Res (list ProcessedPrediction) :=
  match entries with
  | [] => Ok processedPredictions
  | entry :: rest =>
      r ← processEntry entry;
      forEach rest
        match r with
        | Some p => processedPredictions ++ [p]
        | None => processedPredictions
        end
  end.

(** The guard on [response] stands before the [try]; everything after it
    is inside, and the [catch] returns a fresh empty array. *)
Definition processWebSocketResponse (response : JsValue)
  : Res (list ProcessedPrediction) :=
  let processedPredictions := [] in
  if negb (truthy response) then Ok processedPredictions else
  predictions ← getProp response "predictions";
  if negb (truthy predictions) then Ok processedPredictions else
  match entries ← Object_entries predictions;
        forEach entries processedPredictions with
  | Ok result => Ok result
  | Throw _ => Ok []
  end.

End WithRuntime.

(** A response whose [predictions] object has the given entries. *)
Definition withPredictions (entries : list (string * JsValue)) : JsValue :=
  JObject [("exit_ids", JArray []); ("predictions", JObject entries)].

(** The box of a record is normalised. *)
Definition normalized (p : ProcessedPrediction) : Prop :=
  num_le (x1 p) (x2 p) /\ num_le (y1 p) (y2 p).

(** [lo] and [hi] are [a] and [b], swapped when they are not in order. *)
Definition swappedAsNeeded (a b lo hi : number) : Prop :=
  (num_le a b /\ lo = a /\ hi = b)
  \/ (~ num_le a b /\ num_le b a /\ lo = b /\ hi = a).

(** The entry and the record of the example in the specification. *)
Definition alice : JsValue :=
  JArray [JString "Alice"; JNumber (Fin (92 # 100)); JNumber (Fin 50);
          JNumber (Fin 80); JNumber (Fin 10); JNumber (Fin 200)].

Definition aliceRecord : ProcessedPrediction :=
  {| trackId := "7"; name := "Alice"; confidence := Fin (92 # 100);
     x1 := Fin 10; y1 := Fin 80; x2 := Fin 50; y2 := Fin 200 |}.

(** The entry of [predictions] that carries a record in the format the
    response type declares: the track id as key, and
    [[name, confidence, x1, y1, x2, y2]] as value. *)
Definition backendEntry (p : ProcessedPrediction) : string * JsValue :=
  (trackId p,
   JArray [JString (name p); JNumber (confidence p); JNumber (x1 p);
           JNumber (y1 p); JNumber (x2 p); JNumber (y2 p)]).

(** The entries [processWebSocketResponse] iterates over, when it gets
    that far. *)
Definition entriesOf (response : JsValue) : list (string * JsValue) :=
  match getProp response "predictions" with
  | Ok predictions =>
      match Object_entries predictions with
      | Ok entries => entries
      | Throw _ => []
      end
  | Throw _ => []
  end.

Section WithRuntime.
Context `{Runtime}.

(** The box of the record [p] is the box of the array [l] with the two
    coordinates of each axis put in order: [x1] and [x2] are [Number] of
    elements 2 and 4, swapped when the first is the larger, and [y1] and
    [y2] are [Number] of elements 3 and 5 likewise. *)
Definition boxOf (l : list JsValue) (p : ProcessedPrediction) : Prop :=
  exists parsedX1 parsedY1 parsedX2 parsedY2,
    ToNumber (element l 2) = Ok parsedX1
    /\ ToNumber (element l 3) = Ok parsedY1
    /\ ToNumber (element l 4) = Ok parsedX2
    /\ ToNumber (element l 5) = Ok parsedY2
    /\ swappedAsNeeded parsedX1 parsedX2 (x1 p) (x2 p)
    /\ swappedAsNeeded parsedY1 parsedY2 (y1 p) (y2 p).

End WithRuntime.

(** The example of the specification with the other axis out of order. *)
Definition bob : JsValue :=
  JArray [JString "Bob"; JNumber (Fin (1 # 2)); JNumber (Fin 10);
          JNumber (Fin 200); JNumber (Fin 50); JNumber (Fin 80)].

End ProcessResponse.

(** ** components/CanvasOverlay.tsx *)

Module CanvasOverlay.
Import JS.
Import ProcessResponse.

Module ScaleFactor.
Record t : Type := { x : Q; y : Q }.
End ScaleFactor.

(** The displayed rectangle of the video ([getBoundingClientRect]). *)
Record DOMRect : Type := {
  left : Q;
  top : Q;
  width : Q;
  height : Q
}.

(** The canvas bitmap size, an unsigned integer attribute. *)
Module Canvas.
Record t : Type := { width : N; height : N }.
End Canvas.

Definition num_of_N (n : N) : number := num_of_Z (Z.of_N n).

(** The scale factors [updateCanvasDimensions] stores: displayed size over
    intrinsic size, per axis, when the video has positive intrinsic
    dimensions; otherwise the state is left as it was.  A layout length
    over a positive integer is finite, and the cell starts at (1, 1), so
    a scale factor is kept as a rational.  (The positioning of the canvas
    element is not part of this model.) *)
Definition updateCanvasDimensions (videoWidth videoHeight : Z)
    (rect : DOMRect) (scaleFactor : ScaleFactor.t) : ScaleFactor.t :=
  if (0 <? videoWidth)%Z && (0 <? videoHeight)%Z then
    let xScale := (width rect / inject_Z videoWidth)%Q in
    let yScale := (height rect / inject_Z videoHeight)%Q in
    {| ScaleFactor.x := xScale; ScaleFactor.y := yScale |}
  else scaleFactor.

Record Coords : Type := {
  cx1 : number;
  cy1 : number;
  cx2 : number;
  cy2 : number
}.

(** [scaledCoords] of the draw effect. *)
Definition scaledCoords (scaleFactor : ScaleFactor.t)
    (pred : ProcessedPrediction) : Coords :=
  {| cx1 := num_mul (x1 pred) (Fin (ScaleFactor.x scaleFactor));
     cy1 := num_mul (y1 pred) (Fin (ScaleFactor.y scaleFactor));
     cx2 := num_mul (x2 pred) (Fin (ScaleFactor.x scaleFactor));
     cy2 := num_mul (y2 pred) (Fin (ScaleFactor.y scaleFactor)) |}.

(** The four clamped coordinates [x1], [y1], [x2], [y2]:
    [Math.max(0, Math.min(canvas.width, scaledCoords.x1))] and so on. *)
Definition clampedCoords (canvas : Canvas.t) (c : Coords) : Coords :=
  let width := num_of_N (Canvas.width canvas) in
  let height := num_of_N (Canvas.height canvas) in
  {| cx1 := Math_max (Fin 0) (Math_min width (cx1 c));
     cy1 := Math_max (Fin 0) (Math_min height (cy1 c));
     cx2 := Math_max (Fin 0) (Math_min width (cx2 c));
     cy2 := Math_max (Fin 0) (Math_min height (cy2 c)) |}.

Inductive DrawCommand : Type :=
| clearRect (x y w h : number)
| strokeRect (x y w h : number).

(** The box painted for one prediction:
    [ctx.strokeRect(x1, y1, boxWidth, boxHeight)]. *)
Definition drawBox (canvas : Canvas.t) (scaleFactor : ScaleFactor.t)
    (pred : ProcessedPrediction) : DrawCommand :=
  let c := clampedCoords canvas (scaledCoords scaleFactor pred) in
  let boxWidth := Math_max (Fin 5) (num_sub (cx2 c) (cx1 c)) in
  let boxHeight := Math_max (Fin 5) (num_sub (cy2 c) (cy1 c)) in
  strokeRect (cx1 c) (cy1 c) boxWidth boxHeight.

(** The draw effect, up to the bounding boxes (the stroke colour and the
    label painted next to each box are left out).  [canvas] and
    [videoRect] are [None] while the element or the rectangle is
    missing. *)
Definition draw (canvas : option Canvas.t) (videoRect : option DOMRect)
    (predictions : list ProcessedPrediction) (scaleFactor : ScaleFactor.t)
  : list DrawCommand :=
  match canvas, videoRect with
  | Some canvas, Some _ =>
      clearRect (Fin 0) (Fin 0)
        (num_of_N (Canvas.width canvas)) (num_of_N (Canvas.height canvas))
      :: (if (length predictions =? 0)%nat then []
          else if (Canvas.width canvas =? 0)%N || (Canvas.height canvas =? 0)%N
          then []
          else if Qle_bool (ScaleFactor.x scaleFactor) 0
                  || Qle_bool (ScaleFactor.y scaleFactor) 0
          then []
          else map (drawBox canvas scaleFactor) predictions)
  | _, _ => []
  end.

(** Equal numbers (finite values compared as rationals). *)
Definition num_eq (a b : number) : Prop :=
  match a, b with
  | Fin p, Fin q => p == q
  | PosInf, PosInf | NegInf, NegInf => True
  | _, _ => False
  end.

(** [lo <= v <= hi]. *)
Definition within (lo hi v : number) : Prop := num_le lo v /\ num_le v hi.

(** A 1280x720 video shown at half size. *)
Definition halfScale : ScaleFactor.t :=
  {| ScaleFactor.x := 1 # 2; ScaleFactor.y := 1 # 2 |}.

Definition smallCanvas : Canvas.t :=
  {| Canvas.width := 640; Canvas.height := 360 |}.

Definition displayed : DOMRect :=
  {| left := 0; top := 0; width := 640; height := 360 |}.

(** [ToInt32]: the integer modulo 2^32 that lies in [-2^31, 2^31). *)
Definition ToInt32 (z : Z) : Z := ((z + 2 ^ 31) mod 2 ^ 32 - 2 ^ 31)%Z.

(** [a << k] on integral numbers: both operands go through 32 bits. *)
Definition shiftLeft (a k : Z) : Z :=
  ToInt32 (Z.shiftl (ToInt32 a) (k mod 32)).

(** A JavaScript string is a sequence of UTF-16 code units, numbers
    below 2^16; [trackId.split('')] is the list of its code units, one
    string each, and [char.charCodeAt(0)] the code unit of such a
    string. *)
Definition codeUnit (char : Z) : Prop := (0 <= char < 2 ^ 16)%Z.

(** The code units of a [string] of the model, whose characters stand
    for the code units below 256. *)
Definition codeUnits (s : string) : list Z :=
  map (fun char => Z.of_N (Ascii.N_of_ascii char))
    (String.list_ascii_of_string s).

(** The [reduce] of [getTrackColor] over the code units of the id.  The
    accumulator is an integral number: [<<] wraps its operand to 32 bits,
    the subtraction and the addition around it do not wrap.  Integers are
    exact in binary64 below 2^53, which the accumulator stays under for
    any id shorter than four million code units (its size grows by less
    than 2^31 + 2^16 a step). *)
Definition hash (trackId : list Z) : Z :=
  fold_left (fun acc char => (char + (shiftLeft acc 5 - acc))%Z) trackId 0%Z.

(** [hash % 360]: the remainder has the sign of the hash. *)
Definition hue (trackId : list Z) : Z := Z.rem (hash trackId) 360.

Definition getTrackColor (trackId : list Z) (isUnknown : bool) : string :=
  if isUnknown then "rgba(200, 200, 200, 0.8)"
  else "hsl(" +:+ pretty (hue trackId) +:+ ", 80%, 60%)".

(** The hash without the 32-bit wrap: the polynomial in 31 whose
    coefficients are the code units. *)
Definition polynomial (trackId : list Z) : Z :=
  fold_left (fun acc char => (31 * acc + char)%Z) trackId 0%Z.

(** [a + b]. *)
Definition num_add (a b : number) : number :=
  match a, b with
  | NaN, _ | _, NaN => NaN
  | Fin x, Fin y => Fin (x + y)
  | PosInf, NegInf | NegInf, PosInf => NaN
  | PosInf, _ | _, PosInf => PosInf
  | NegInf, _ | _, NegInf => NegInf
  end.

(** [Math.round(v)]: the nearest integer, a half going up. *)
Definition Math_round (v : number) : number :=
  match v with
  | Fin q => Fin (inject_Z (Qfloor (q + (1 # 2))))
  | _ => v
  end.

(** What the draw effect paints for the label of a box. *)
Inductive LabelCommand : Type :=
| fillRect (fillStyle : string) (x y w h : number)
| fillText (fillStyle font text : string) (x y : number).

Section Label.
Context `{Runtime}.

(** Rounding to binary64 of the exact result of an operation on finite
    numbers.  (Overflow to an infinity is left out: it takes a confidence
    or a text width beyond 10^306.) *)
Variable fl : Q -> Q.

Definition rounded (v : number) : number :=
  match v with
  | Fin q => Fin (fl q)
  | _ => v
  end.

(** [ctx.measureText(text).width] under [ctx.font = font]: a finite
    number of pixels. *)
Variable measureText : string -> string -> Q.

(** The second half of the [forEach] body of the draw effect: the label
    of one prediction, painted after its box under the same guards.
    [scaled] holds the four products [scaledCoords] as the first half
    computed them; [c] are the clamped corners [x1], [y1], [x2], [y2],
    which take no rounding. *)
Definition drawLabel (canvas : Canvas.t) (pred : ProcessedPrediction)
    (scaled : Coords) : list LabelCommand :=
  let isUnknown := String.eqb (name pred) "Unknown" in
  let color := getTrackColor (codeUnits (trackId pred)) isUnknown in
  let c := clampedCoords canvas scaled in
  let label :=
    name pred +:+ " ("
    +:+ NumberToString
          (Math_round (rounded (num_mul (confidence pred) (Fin 100))))
    +:+ "%)" in
  let font := if isUnknown then "12px Arial" else "bold 14px Arial" in
  let textWidth := rounded (num_add (Fin (measureText font label)) (Fin 10)) in
  let textHeight := if isUnknown then Fin 20 else Fin 24 in
  let labelX :=
    Math_max (Fin 0)
      (Math_min (cx1 c)
         (rounded (num_sub (num_of_N (Canvas.width canvas)) textWidth))) in
  let labelY := Math_max textHeight (cy1 c) in
  [fillRect color labelX (rounded (num_sub labelY textHeight)) textWidth
     textHeight;
   fillText "white" font label (rounded (num_add labelX (Fin 5)))
     (rounded (num_sub labelY (if isUnknown then Fin 5 else Fin 7)))].

End Label.

End CanvasOverlay.

(** ** hooks/useWebSocketAlternative.ts *)

Module Hook.
Import JS.

Definition MAX_QUEUE_SIZE : nat := 5.

Record Blob : Type := {
  type : string;
  bytes : list Byte.byte
}.

Inductive ReadyState : Type := CONNECTING | OPEN | CLOSING | CLOSED.

(** What a callback asks of its environment. *)
Inductive Effect : Type :=
| console_log (msg : string)
| console_warn (msg : string)
| console_error (msg : string)
| readAsArrayBuffer (nextFrame : Blob)
| send (arrayBuffer : list Byte.byte)
| close
| setTimeout (delay : Q).

(** The state cells and refs of the hook.  [wsRef] is [None] for a null
    ref and otherwise carries the socket's [readyState].  (The round-trip
    timer [lastSentTimeRef]/[lastLatency] is left out: nothing reads it
    back.) *)
Record State : Type := {
  isConnected : bool;
  error : option string;
  lastResponse : JsValue;
  queueSize : nat;
  wsRef : option ReadyState;
  frameQueueRef : list Blob;
  processingRef : bool;
  connectionAttempts : nat
}.

Definition initial : State :=
  {| isConnected := false;
     error := None;
     lastResponse := JNull;
     queueSize := 0;
     wsRef := None;
     frameQueueRef := [];
     processingRef := false;
     connectionAttempts := 0 |}.

Definition setIsConnected (b : bool) (s : State) : State :=
  {| isConnected := b; error := error s; lastResponse := lastResponse s;
     queueSize := queueSize s; wsRef := wsRef s;
     frameQueueRef := frameQueueRef s; processingRef := processingRef s;
     connectionAttempts := connectionAttempts s |}.

Definition setError (e : option string) (s : State) : State :=
  {| isConnected := isConnected s; error := e; lastResponse := lastResponse s;
     queueSize := queueSize s; wsRef := wsRef s;
     frameQueueRef := frameQueueRef s; processingRef := processingRef s;
     connectionAttempts := connectionAttempts s |}.

Definition setLastResponse (data : JsValue) (s : State) : State :=
  {| isConnected := isConnected s; error := error s; lastResponse := data;
     queueSize := queueSize s; wsRef := wsRef s;
     frameQueueRef := frameQueueRef s; processingRef := processingRef s;
     connectionAttempts := connectionAttempts s |}.

Definition setQueueSize (n : nat) (s : State) : State :=
  {| isConnected := isConnected s; error := error s;
     lastResponse := lastResponse s; queueSize := n; wsRef := wsRef s;
     frameQueueRef := frameQueueRef s; processingRef := processingRef s;
     connectionAttempts := connectionAttempts s |}.

Definition set_wsRef (ws : option ReadyState) (s : State) : State :=
  {| isConnected := isConnected s; error := error s;
     lastResponse := lastResponse s; queueSize := queueSize s; wsRef := ws;
     frameQueueRef := frameQueueRef s; processingRef := processingRef s;
     connectionAttempts := connectionAttempts s |}.

Definition set_frameQueueRef (q : list Blob) (s : State) : State :=
  {| isConnected := isConnected s; error := error s;
     lastResponse := lastResponse s; queueSize := queueSize s;
     wsRef := wsRef s; frameQueueRef := q; processingRef := processingRef s;
     connectionAttempts := connectionAttempts s |}.

Definition set_processingRef (b : bool) (s : State) : State :=
  {| isConnected := isConnected s; error := error s;
     lastResponse := lastResponse s; queueSize := queueSize s;
     wsRef := wsRef s; frameQueueRef := frameQueueRef s; processingRef := b;
     connectionAttempts := connectionAttempts s |}.

Definition set_connectionAttempts (n : nat) (s : State) : State :=
  {| isConnected := isConnected s; error := error s;
     lastResponse := lastResponse s; queueSize := queueSize s;
     wsRef := wsRef s; frameQueueRef := frameQueueRef s;
     processingRef := processingRef s; connectionAttempts := n |}.

(** Callbacks: state in, state and requested effects out. *)
Definition M (A : Type) : Type := State -> A * State * list Effect.

#[global] Instance M_ret : MRet M := fun _ a s => (a, s, []).
#[global] Instance M_bind : MBind M := fun _ _ f m s =>
  let '(a, s1, out1) := m s in
  let '(b, s2, out2) := f a s1 in
  (b, s2, out1 ++ out2).

Definition gets {A : Type} (f : State -> A) : M A := fun s => (f s, s, []).
Definition modify (f : State -> State) : M unit := fun s => (tt, f s, []).
Definition effect (e : Effect) : M unit := fun s => (tt, s, [e]).
Definition when (b : bool) (m : M unit) : M unit := if b then m else mret tt.

Definition exec (m : M unit) (s : State) : State := (m s).1.2.
Definition effects (m : M unit) (s : State) : list Effect := (m s).2.

(** [wsRef.current && wsRef.current.readyState === WebSocket.OPEN]. *)
Definition wsReady (ws : option ReadyState) : bool :=
  match ws with
  | Some OPEN => true
  | _ => false
  end.

(** [frameQueueRef.current.shift()]. *)
Definition shift : M (option Blob) := fun s =>
  match frameQueueRef s with
  | [] => (None, s, [])
  | oldest :: rest => (Some oldest, set_frameQueueRef rest s, [])
  end.

(** [arrayBuffer.byteLength >= 2 && dataView.getUint8(0) === 0xFF &&
    dataView.getUint8(1) === 0xD8]. *)
Definition hasJpegSignature (arrayBuffer : list Byte.byte) : bool :=
  match arrayBuffer with
  | b0 :: b1 :: _ => Byte.eqb b0 Byte.xff && Byte.eqb b1 Byte.xd8
  | _ => false
  end.

(** [reader.onload] of the FileReader started by [processNextFrame];
    [sendThrows] tells whether [wsRef.current.send] raises. *)
Definition reader_onload (nextFrame : Blob) (sendThrows : bool) : M unit :=
  ws ← gets wsRef;
  if negb (wsReady ws) then
    effect (console_error "WebSocket not ready when trying to send frame");;
    modify (set_processingRef false)
  else
    let arrayBuffer := bytes nextFrame in
    (if hasJpegSignature arrayBuffer
     then effect (console_log "Valid JPEG signature detected")
     else effect
            (console_warn
               "Warning: Data does not appear to have JPEG signature!"));;
    if sendThrows then
      effect (console_error "Error sending frame:");;
      modify (set_processingRef false)
    else
      effect (send arrayBuffer);;
      effect (console_log "Frame sent successfully!").

Definition reader_onerror : M unit :=
  effect (console_error "Error reading blob");;
  modify (set_processingRef false).

(** [processNextFrame], in a closure that captured [captured] as its
    [isConnected].  Starting the FileReader is the point where a send is
    initiated; its completion is [reader_onload] or [reader_onerror].
    (The [try] around the creation of the reader guards calls that do not
    throw on a Blob; its [catch] is not modelled.) *)
Definition processNextFrame (captured : bool) : M unit :=
  processing ← gets processingRef;
  queue ← gets frameQueueRef;
  ws ← gets wsRef;
  if negb captured || processing || (length queue =? 0)%nat || negb (wsReady ws)
  then
    when (negb captured)
      (effect (console_log "Not processing frame: Not connected"));;
    when processing
      (effect (console_log "Not processing frame: Already processing"));;
    when (length queue =? 0)%nat
      (effect (console_log "Not processing frame: Queue empty"));;
    when (negb (wsReady ws))
      (effect (console_log "Not processing frame: WebSocket not ready"))
  else
    modify (set_processingRef true);;
    nextFrame ← shift;
    queue ← gets frameQueueRef;
    modify (setQueueSize (length queue));;
    match nextFrame with
    | Some nextFrame =>
        effect (console_log "Processing frame");;
        effect (readAsArrayBuffer nextFrame)
    | None => modify (set_processingRef false)
    end.

(** The [while] loop of [queueFrame]: drop the oldest frame as long as
    the queue holds [MAX_QUEUE_SIZE] frames or more. *)
Fixpoint dropOldest (queue : list Blob) : list Blob * list Effect :=
  if (MAX_QUEUE_SIZE <=? length queue)%nat then
    match queue with
    | [] => ([], [])
    | _ :: rest =>
        let '(q, out) := dropOldest rest in
        (q, console_log "Queue full, dropping oldest frame" :: out)
    end
  else (queue, []).

(** The blob that is stored: the frame itself, or a copy typed
    [image/jpeg] when the frame has another MIME type. *)
Definition processedBlob (frameBlob : Blob) : Blob :=
  if negb (String.eqb (type frameBlob) "image/jpeg")
  then {| type := "image/jpeg"; bytes := bytes frameBlob |}
  else frameBlob.

Definition queueFrame (captured : bool) (frameBlob : Blob) : M unit :=
  effect (console_log "Queueing frame");;
  (fun s =>
     let '(q, out) := dropOldest (frameQueueRef s) in
     (tt, set_frameQueueRef q s, out));;
  when (negb (String.eqb (type frameBlob) "image/jpeg"))
    (effect (console_warn "Converting blob MIME type to image/jpeg"));;
  modify (fun s =>
    set_frameQueueRef (frameQueueRef s ++ [processedBlob frameBlob]) s);;
  queue ← gets frameQueueRef;
  modify (setQueueSize (length queue));;
  effect (console_log "Frame queued");;
  processing ← gets processingRef;
  if negb processing && captured then processNextFrame captured
  else
    when (negb captured)
      (effect (console_log "Not processing: Not connected"));;
    when processing
      (effect (console_log "Not processing: Already processing")).

(** The queue after [queueFrame] made room and pushed [stored]. *)
Definition enqueue (queue : list Blob) (stored : Blob) : list Blob :=
  lastn (MAX_QUEUE_SIZE - 1) queue ++ [stored].

(** The guard of [processNextFrame] lets a call through: a send
    starts. *)
Definition sends (captured : bool) (s : State) : bool :=
  captured && negb (processingRef s)
  && negb (length (frameQueueRef s) =? 0)%nat && wsReady (wsRef s).

(** Whether a call of [processNextFrame] would start a send once the
    queue is not empty. *)
Definition idle (captured : bool) (s : State) : bool :=
  captured && negb (processingRef s) && wsReady (wsRef s).

(** [Math.min(2000 * Math.pow(1.5, Math.min(connectionAttempts, 10)), 30000)];
    every value involved is a dyadic rational that binary64 holds exactly. *)
Definition reconnectDelay (connectionAttempts : nat) : Q :=
  Qmin (2000 * (3 # 2) ^ Z.of_nat (Nat.min connectionAttempts 10)) 30000.

(** [connect()]: the socket it creates starts in [CONNECTING].
    [throws] tells whether [new WebSocket(WS_URL)] raises (the browser
    refuses the URL, for instance from a page served over https); the
    [catch] then logs and sets [error], and the ref stays null. *)
Definition connect (throws : bool) : M unit :=
  modify (setError None);;
  modify (fun s => set_connectionAttempts (S (connectionAttempts s)) s);;
  effect (console_log "Attempting to connect to WebSocket...");;
  ws ← gets wsRef;
  when (bool_decide (is_Some ws))
    (effect (console_log "Closing existing WebSocket connection...");;
     effect close;;
     modify (set_wsRef None));;
  if throws then
    effect (console_error "Failed to connect to WebSocket:");;
    modify (setError (Some "Failed to connect to server"))
  else
    modify (set_wsRef (Some CONNECTING));;
    effect (console_log "Setting binaryType to arraybuffer").

(** The handlers [connect] installs.  [connect] is memoised without
    dependencies, so the [processNextFrame] they call is the one of the
    first render, whose [isConnected] is the initial [false]; the handlers
    are stated for either captured value. *)
Definition onopen (captured : bool) : M unit :=
  effect (console_log "WebSocket connected successfully");;
  modify (setIsConnected true);;
  modify (setError None);;
  modify (set_connectionAttempts 0);;
  processNextFrame captured.

(** The reconnect timer set by [onclose] fires [timer]. *)
Definition onclose : M unit :=
  effect (console_log "WebSocket disconnected");;
  modify (setIsConnected false);;
  modify (set_processingRef false);;
  attempts ← gets connectionAttempts;
  let delay := reconnectDelay attempts in
  effect (console_log "Will attempt to reconnect");;
  effect (setTimeout delay).

Definition timer (throws : bool) : M unit :=
  ws ← gets wsRef;
  match ws with
  | None | Some CLOSED => connect throws
  | _ => mret tt
  end.

Definition onerror : M unit :=
  effect (console_error "WebSocket error:");;
  modify (setError (Some "Failed to connect to server"));;
  modify (set_processingRef false).

(** [onmessage]; [parsed] is the outcome of [JSON.parse(event.data)],
    [None] when it throws. *)
Definition onmessage (captured : bool) (parsed : option JsValue) : M unit :=
  effect (console_log "Received message:");;
  modify (set_processingRef false);;
  match parsed with
  | Some data =>
      effect (console_log "Parsed response data:");;
      (if truthy data
          && truthy (match getProp data "predictions" with
                     | Ok p => p
                     | Throw _ => JUndefined
                     end)
       then effect (console_log "Response contains predictions:")
       else effect (console_warn "Response missing predictions property"));;
      modify (setLastResponse data);;
      processNextFrame captured
  | None =>
      effect (console_error "Error parsing WebSocket message:")
  end.

(** Manual [reconnect()]. *)
Definition reconnect (throws : bool) : M unit :=
  effect (console_log "Manual reconnection requested");;
  ws ← gets wsRef;
  when (bool_decide (is_Some ws)) (effect close;; modify (set_wsRef None));;
  connect throws.

(** Everything that can happen to the hook between two turns of the event
    loop.  [ReadyStateChange r] is the browser moving the socket to state
    [r]; [throws] is the outcome of [new WebSocket] should the handler
    reach it. *)
Inductive Event : Type :=
| Connect (throws : bool)
| Reconnect (throws : bool)
| Timer (throws : bool)
| ReadyStateChange (r : ReadyState)
| Open (captured : bool)
| Close
| Error
| Message (captured : bool) (parsed : option JsValue)
| QueueFrame (captured : bool) (frameBlob : Blob)
| ReaderLoad (nextFrame : Blob) (sendThrows : bool)
| ReaderError.

Definition handle (e : Event) : M unit :=
  match e with
  | Connect throws => connect throws
  | Reconnect throws => reconnect throws
  | Timer throws => timer throws
  | ReadyStateChange r =>
      modify (fun s => match wsRef s with
                       | Some _ => set_wsRef (Some r) s
                       | None => s
                       end)
  | Open captured => onopen captured
  | Close => onclose
  | Error => onerror
  | Message captured parsed => onmessage captured parsed
  | QueueFrame captured frameBlob => queueFrame captured frameBlob
  | ReaderLoad nextFrame sendThrows => reader_onload nextFrame sendThrows
  | ReaderError => reader_onerror
  end.

Fixpoint run (events : list Event) : M unit :=
  match events with
  | [] => mret tt
  | e :: rest => handle e;; run rest
  end.

(** A burst of [queueFrame] calls through one closure. *)
Definition queueFrames (captured : bool) (frames : list Blob) : M unit :=
  run (map (QueueFrame captured) frames).

(** The backoff rule in the words of the specification: base times
    growth to the power min(attempts, cap), clamped to a maximum delay. *)
Fixpoint power (growth : Q) (k : nat) : Q :=
  match k with
  | O => 1
  | S k => growth * power growth k
  end.

Definition backoff (base growth : Q) (cap : nat) (maximum : Q)
    (attempts : nat) : Q :=
  let delay := (base * power growth (Nat.min attempts cap))%Q in
  if Qle_bool delay maximum then delay else maximum.

(** Bookkeeping for the send discipline.  A send is initiated when
    [processNextFrame] hands a frame to a FileReader.  [settles e s] tells
    whether the handler of [e] clears the flag [processingRef]: it does
    when a response arrives, when the connection closes or fails, and
    when the send itself fails (the read fails, the socket is not ready
    at [reader.onload], or [send] raises). *)
Definition settles (e : Event) (s : State) : bool :=
  match e with
  | Message _ _ | Close | Error | ReaderError => true
  | ReaderLoad _ sendThrows => negb (wsReady (wsRef s)) || sendThrows
  | _ => false
  end.

Definition is_read (e : Effect) : bool :=
  match e with
  | readAsArrayBuffer _ => true
  | _ => false
  end.

(** Number of sends a callback initiated, read off its effects. *)
Definition initiated (out : list Effect) : nat :=
  length (List.filter is_read out).

(** The frames handed to a FileReader, in order. *)
Definition reads (out : list Effect) : list Blob :=
  omap (fun e => match e with
                 | readAsArrayBuffer nextFrame => Some nextFrame
                 | _ => None
                 end) out.

(** The payloads handed to [WebSocket.send], in order. *)
Definition sent (out : list Effect) : list (list Byte.byte) :=
  omap (fun e => match e with
                 | send arrayBuffer => Some arrayBuffer
                 | _ => None
                 end) out.

(** Frames in flight.  A frame is in flight from the moment
    [processNextFrame] hands it to a FileReader: first it is being read,
    then, once [reader.onload] has given it to [send], it waits for the
    response of the server.  A read ends when the FileReader reports
    ([reader.onload], [reader.onerror]); a sent payload is answered by one
    message.  Nothing else takes a frame out of flight: a close or an
    error of the socket clears the flag but stops no FileReader. *)
Record Flight : Type := {
  reading : nat;
  unanswered : nat
}.

Definition grounded : Flight := {| reading := 0; unanswered := 0 |}.

Definition flights (f : Flight) : nat := reading f + unanswered f.

(** How an event bears on the frames in flight. *)
Inductive Bearing : Type := endsRead | answer | failure | neutral.

(** The flag as a number of frames. *)
Definition flag (s : State) : nat := if processingRef s then 1 else 0.

Section Flights.
Context {E : Type}.
Variable handle : E -> M unit.
Variable bearing : E -> Bearing.
Variable greets : E -> State -> nat.

(** The state after the handlers of [events] ran in turn. *)
Fixpoint after (events : list E) (s : State) : State :=
  match events with
  | [] => s
  | e :: rest => after rest (exec (handle e) s)
  end.

Definition fly (e : E) (s : State) (f : Flight) : Flight :=
  let out := effects (handle e) s in
  {| reading :=
       match bearing e with
       | endsRead => pred (reading f)
       | _ => reading f
       end + initiated out;
     unanswered :=
       match bearing e with
       | answer => pred (unanswered f)
       | _ => unanswered f
       end + length (sent out) |}.

(** The frames in flight after a run that started in state [s] with [f]
    in flight. *)
Fixpoint inFlight (events : list E) (s : State) (f : Flight) : Flight :=
  match events with
  | [] => f
  | e :: rest => inFlight rest (exec (handle e) s) (fly e s f)
  end.

(** The runs in which the environment keeps to the protocol: a
    FileReader reports only while a read is in progress, a message arrives
    only while a sent payload is unanswered, and the socket neither closes
    nor fails while a frame is in flight. *)
Fixpoint orderly (events : list E) (s : State) (f : Flight) : bool :=
  match events with
  | [] => true
  | e :: rest =>
      match bearing e with
      | endsRead => (0 <? reading f)%nat
      | answer => (0 <? unanswered f)%nat
      | failure => (flights f =? 0)%nat
      | neutral => true
      end
      && orderly rest (exec (handle e) s) (fly e s f)
  end.

(** The payloads that handlers send on their own account along a run,
    [greets e s] by the handler of [e] in state [s]. *)
Fixpoint greeted (events : list E) (s : State) : nat :=
  match events with
  | [] => 0
  | e :: rest => greets e s + greeted rest (exec (handle e) s)
  end.

End Flights.

Definition bearing (e : Event) : Bearing :=
  match e with
  | ReaderLoad _ _ | ReaderError => endsRead
  | Message _ _ => answer
  | Close | Error => failure
  | _ => neutral
  end.

(** Sample frames, responses and states. *)
Definition jpeg (payload : list Byte.byte) : Blob :=
  {| type := "image/jpeg"; bytes := Byte.xff :: Byte.xd8 :: payload |}.

Definition noPredictions : JsValue :=
  JObject [("exit_ids", JArray []); ("predictions", JObject [])].

(** A connected hook that awaits the response to a frame it sent while
    one more frame waits in the queue. *)
Definition awaiting (frame : Blob) : State :=
  {| isConnected := true;
     error := None;
     lastResponse := JNull;
     queueSize := 1;
     wsRef := Some OPEN;
     frameQueueRef := [frame];
     processingRef := true;
     connectionAttempts := 0 |}.

(** A connected hook with an empty queue and nothing in flight. *)
Definition connected : State :=
  {| isConnected := true;
     error := None;
     lastResponse := JNull;
     queueSize := 0;
     wsRef := Some OPEN;
     frameQueueRef := [];
     processingRef := false;
     connectionAttempts := 0 |}.

Definition sixFrames : list Blob :=
  [jpeg [Byte.x01]; jpeg [Byte.x02]; jpeg [Byte.x03];
   jpeg [Byte.x04]; jpeg [Byte.x05]; jpeg [Byte.x06]].


(** The frames the [queueFrame] calls of a run push, as pushed, in call
    order. *)
Definition queued (events : list Event) : list Blob :=
  omap (fun e => match e with
                 | QueueFrame _ frameBlob => Some (processedBlob frameBlob)
                 | _ => None
                 end) events.

(** A run in which every [reader.onload] belongs to a read that was
    started and has not completed yet: [pending] lists the frames whose
    FileReader is still reading.  (A failed read is not told from the
    others and stays listed.) *)
Fixpoint completes (events : list Event) (s : State) (pending : list Blob)
  : Prop :=
  match events with
  | [] => True
  | e :: rest =>
      let started := reads (effects (handle e) s) in
      match e with
      | ReaderLoad nextFrame _ =>
          exists before after,
            pending = before ++ nextFrame :: after
            /\ completes rest (exec (handle e) s) (before ++ after ++ started)
      | _ => completes rest (exec (handle e) s) (pending ++ started)
      end
  end.

(** [connect] is created once ([useCallback] with no dependency), and
    every socket is made by it; the [processNextFrame] its handlers call is
    therefore the one of the first render, which captured the initial
    [isConnected = false].  [firstRender e] says that [e], if it is a
    socket handler, runs with that closure. *)
Definition firstRender (e : Event) : bool :=
  match e with
  | Open captured | Message captured _ => negb captured
  | _ => true
  end.

Definition isQueueFrame (e : Event) : bool :=
  match e with
  | QueueFrame _ _ => true
  | _ => false
  end.




End Hook.

(** ** The hook in utils/processResponse.ts *)

(** The second half of utils/processResponse.ts is an earlier hook,
    [useWebSocket], with the same refs and state cells.  Its
    [processNextFrame] and [queueFrame] are the ones above up to console
    messages, except that [queueFrame] stores the frame as it is. *)
Module UseWebSocket.
Import JS Hook.

Definition reader_onload (nextFrame : Blob) (sendThrows : bool) : M unit :=
  ws ← gets wsRef;
  if wsReady ws then
    let arrayBuffer := bytes nextFrame in
    effect (console_log "Sending frame");;
    if sendThrows then
      effect (console_error "Error sending frame:");;
      modify (setError (Some "Error sending frame"));;
      modify (set_processingRef false)
    else
      effect (send arrayBuffer);;
      effect (console_log "Frame sent successfully")
  else
    effect (console_log "WebSocket not ready when trying to send frame");;
    modify (set_processingRef false).

Definition processNextFrame (captured : bool) : M unit :=
  processing ← gets processingRef;
  queue ← gets frameQueueRef;
  ws ← gets wsRef;
  if negb captured || processing || (length queue =? 0)%nat || negb (wsReady ws)
  then
    when (negb captured)
      (effect (console_log "Not processing frame: Not connected"));;
    when processing
      (effect (console_log "Not processing frame: Already processing"));;
    when (length queue =? 0)%nat
      (effect (console_log "Not processing frame: Queue empty"));;
    when (negb (wsReady ws))
      (effect (console_log "Not processing frame: WebSocket not ready"))
  else
    modify (set_processingRef true);;
    nextFrame ← shift;
    queue ← gets frameQueueRef;
    modify (setQueueSize (length queue));;
    match nextFrame with
    | Some nextFrame =>
        effect (console_log "Reading blob as ArrayBuffer...");;
        effect (readAsArrayBuffer nextFrame)
    | None => modify (set_processingRef false)
    end.

Definition queueFrame (captured : bool) (frameBlob : Blob) : M unit :=
  effect (console_log "Queueing frame");;
  (fun s =>
     let '(q, out) := dropOldest (frameQueueRef s) in
     (tt, set_frameQueueRef q s, out));;
  modify (fun s => set_frameQueueRef (frameQueueRef s ++ [frameBlob]) s);;
  queue ← gets frameQueueRef;
  modify (setQueueSize (length queue));;
  effect (console_log "Frame queued");;
  processing ← gets processingRef;
  if negb processing && captured then processNextFrame captured
  else
    when (negb captured)
      (effect (console_log "Not processing: Not connected"));;
    when processing
      (effect (console_log "Not processing: Already processing")).

(** A burst of [queueFrame] calls through one closure. *)
Fixpoint queueFrames (captured : bool) (frames : list Blob) : M unit :=
  match frames with
  | [] => mret tt
  | frameBlob :: rest =>
      queueFrame captured frameBlob;; queueFrames captured rest
  end.

Definition reader_onerror : M unit :=
  effect (console_error "Error reading blob:");;
  modify (setError (Some "Error reading blob"));;
  modify (set_processingRef false).

(** [new Uint8Array([0, 1, 2, 3, 4])]. *)
Definition testData : list Byte.byte :=
  [Byte.x00; Byte.x01; Byte.x02; Byte.x03; Byte.x04].

(** [onopen]: as in the other hook, with a test message in between.
    [wsRef.current?.send] does nothing on a null ref and throws on a
    socket that is still connecting; the [catch] logs. *)
Definition onopen (captured : bool) : M unit :=
  effect (console_log "WebSocket connected successfully");;
  modify (setIsConnected true);;
  modify (setError None);;
  modify (set_connectionAttempts 0);;
  effect (console_log "Sending test data to verify connection...");;
  ws ← gets wsRef;
  match ws with
  | None => mret tt
  | Some CONNECTING => effect (console_error "Error sending test data:")
  | Some _ => effect (send testData)
  end;;
  processNextFrame captured.

(** The body of a message: a string with the outcome of [JSON.parse]
    ([None] when it throws), a Blob, or anything else with the outcome of
    decoding and parsing it. *)
Inductive MessageData : Type :=
| textData (parsed : option JsValue)
| blobData
| bufferData (parsed : option JsValue).

(** [onmessage].  The value returned tells whether the handler left
    through the Blob branch, where it starts a FileReader on the body
    ([reader.readAsText]) and returns; [text_onload] is what that reader
    runs when it is done.  Otherwise the parsed response is stored and
    [processNextFrame] is deferred with [setTimeout(..., 0)]. *)
Definition onmessage (data : MessageData) : M bool :=
  effect (console_log "Received message:");;
  modify (set_processingRef false);;
  match data with
  | blobData =>
      effect (console_log "Received blob data, converting to text");;
      mret true
  | textData parsed | bufferData parsed =>
      when (match data with bufferData _ => true | _ => false end)
        (effect (console_log "Received non-string data:"));;
      match parsed with
      | Some response =>
          effect (console_log "Parsed response:");;
          modify (setLastResponse response);;
          effect (setTimeout 0);;
          mret false
      | None =>
          effect (console_error "Error parsing WebSocket message:");;
          mret false
      end
  end.

Definition text_onload (parsed : option JsValue) : M unit :=
  match parsed with
  | Some jsonData => modify (setLastResponse jsonData)
  | None => effect (console_error "Error parsing blob data:")
  end.

(** The events of this hook.  [connect], [onclose], [onerror] and
    [reconnect] are word for word those of the other hook.  [Deferred] is
    the callback of [setTimeout(..., 0)] and [TextLoad] the completion of
    the reader of a Blob message. *)
Inductive Event : Type :=
| Connect (throws : bool)
| Reconnect (throws : bool)
| Timer (throws : bool)
| ReadyStateChange (r : ReadyState)
| Open (captured : bool)
| Close
| Error
| Message (data : MessageData)
| Deferred (captured : bool)
| TextLoad (parsed : option JsValue)
| QueueFrame (captured : bool) (frameBlob : Blob)
| ReaderLoad (nextFrame : Blob) (sendThrows : bool)
| ReaderError.

Definition handle (e : Event) : M unit :=
  match e with
  | Connect throws => connect throws
  | Reconnect throws => reconnect throws
  | Timer throws => timer throws
  | ReadyStateChange r =>
      modify (fun s => match wsRef s with
                       | Some _ => set_wsRef (Some r) s
                       | None => s
                       end)
  | Open captured => onopen captured
  | Close => onclose
  | Error => onerror
  | Message data => onmessage data ≫= fun _ => mret tt
  | Deferred captured => processNextFrame captured
  | TextLoad parsed => text_onload parsed
  | QueueFrame captured frameBlob => queueFrame captured frameBlob
  | ReaderLoad nextFrame sendThrows => reader_onload nextFrame sendThrows
  | ReaderError => reader_onerror
  end.

Fixpoint run (events : list Event) : M unit :=
  match events with
  | [] => mret tt
  | e :: rest => handle e;; run rest
  end.

(** The events whose handlers clear the flag, as in the other hook. *)
Definition settles (e : Event) (s : State) : bool :=
  match e with
  | Message _ | Close | Error | ReaderError => true
  | ReaderLoad _ sendThrows => negb (wsReady (wsRef s)) || sendThrows
  | _ => false
  end.

Definition bearing (e : Event) : Bearing :=
  match e with
  | ReaderLoad _ _ | ReaderError => endsRead
  | Message _ => answer
  | Close | Error => failure
  | _ => neutral
  end.

(** The handshake payloads a handler sends: only [onopen] sends one. *)
Definition greets (e : Event) (s : State) : nat :=
  match e with
  | Open _ => length (sent (effects (handle e) s))
  | _ => 0
  end.

End UseWebSocket.

(** ** App.tsx: the exit log *)

Module App.
Import JS.

(** Arrays of names live in a store, so that two references to one array
    see each other's in-place [sort]. *)
Abbreviation ref := nat (only parsing).
Abbreviation Store := (list (list string)) (only parsing).

Record ExitLogEntry : Type := {
  names : ref;
  timestamp : string;
  sortTime : number
}.

(** Store-passing computations. *)
Definition St (A : Type) : Type := Store -> A * Store.

#[global] Instance St_ret : MRet St := fun _ a h => (a, h).
#[global] Instance St_bind : MBind St := fun _ _ f m h =>
  let '(a, h1) := m h in f a h1.

(** The array behind a reference.  References are made by [alloc] and
    by the code that parsed a response, so they denote an array of the
    store; a dangling one reads as the empty array. *)
Definition read (r : ref) : St (list string) := fun h =>
  (default [] (h !! r), h).

(** A fresh array. *)
Definition alloc (a : list string) : St ref := fun h =>
  (length h, h ++ [a]).

(** Where the default comparator of [Array.prototype.sort] puts [s]
    among sorted strings: it compares strings code unit by code unit (a
    character of a [string] stands for a code unit). *)
Fixpoint insert (s : string) (sorted : list string) : list string :=
  match sorted with
  | [] => [s]
  | t :: rest =>
      if String.leb s t then s :: sorted else t :: insert s rest
  end.

Fixpoint sorted_copy (a : list string) : list string :=
  match a with
  | [] => []
  | s :: rest => insert s (sorted_copy rest)
  end.

(** [a.sort()]: sorts the array in place and returns the same
    reference. *)
Definition sort (r : ref) : St ref := fun h =>
  (r, <[r := sorted_copy (default [] (h !! r))]> h).

(** [a.join(',')]. *)
Definition join (r : ref) : St string :=
  a ← read r; mret (String.concat "," a).

(** Of a list of identifiers, those that are not in [existing] and did
    not occur earlier in the list, in the order of the list. *)
Fixpoint firstNew (ids : list string) (existing : gset string)
  : list string :=
  match ids with
  | [] => []
  | id :: rest =>
      if bool_decide (id ∈ existing) then firstNew rest existing
      else id :: firstNew rest ({[id]} ∪ existing)
  end.

Section WithRuntime.
Context `{Runtime}.

(** [entry.names.sort().join(',') + '-' + entry.sortTime]. *)
Definition entryId (entry : ExitLogEntry) : St string :=
  r ← sort (names entry);
  joined ← join r;
  mret (joined +:+ "-" +:+ NumberToString (sortTime entry)).

(** [prevLog.map(entry => ...)], left to right. *)
Fixpoint entryIds (prevLog : list ExitLogEntry) : St (list string) :=
  match prevLog with
  | [] => mret []
  | entry :: rest =>
      k ← entryId entry;
      ks ← entryIds rest;
      mret (k :: ks)
  end.

(** The [setExitLog] updater of the [lastResponse] effect, reached when
    [lastResponse.exit_ids] is a non-empty array; [now] and [timestamp]
    are [new Date().getTime()] and [toLocaleTimeString()]. *)
Definition addPushedExit (exit_ids : ref) (now : number) (timestamp : string)
    (prevLog : list ExitLogEntry) : St (list ExitLogEntry) :=
  ks ← entryIds prevLog;
  let existingEntries : gset string := list_to_set ks in
  let sortTime := now in
  r ← sort exit_ids;
  joined ← join r;
  let newEntryId := joined +:+ "-" +:+ NumberToString sortTime in
  if bool_decide (newEntryId ∈ existingEntries) then mret prevLog
  else
    let newExitEntry :=
      {| names := exit_ids; timestamp := timestamp; sortTime := sortTime |} in
    mret (take 20 (newExitEntry :: prevLog)).

(** The guard of the effect: [lastResponse.exit_ids &&
    lastResponse.exit_ids.length > 0]; [None] is a missing field. *)
Definition onLastResponse (exit_ids : option ref) (now : number)
    (timestamp : string) (prevLog : list ExitLogEntry)
  : St (list ExitLogEntry) :=
  match exit_ids with
  | None => mret prevLog
  | Some r =>
      a ← read r;
      if (0 <? length a)%nat then addPushedExit r now timestamp prevLog
      else mret prevLog
  end.

(** [new Date(timestamp).getTime()] and [toLocaleTimeString()] of the
    parsed date are the runtime's. *)
Variable getTime : string -> number.
Variable toLocaleTimeString : string -> string.

(** The [data.exits.forEach] loop of [fetchAllExits]. *)
Fixpoint addFetched (exits : list (string * string))
    (existingEntries : gset string) (newEntries : list ExitLogEntry)
  : St (list ExitLogEntry) :=
  match exits with
  | [] => mret newEntries
  | (name, timestamp) :: rest =>
      let sortTime := getTime timestamp in
      let displayTime := toLocaleTimeString timestamp in
      tmp ← alloc [name];
      r ← sort tmp;
      joined ← join r;
      let exitId := joined +:+ "-" +:+ NumberToString sortTime in
      if bool_decide (exitId ∈ existingEntries) then
        addFetched rest existingEntries newEntries
      else
        fresh ← alloc [name];
        addFetched rest ({[exitId]} ∪ existingEntries)
          (newEntries ++ [{| names := fresh; timestamp := displayTime;
                             sortTime := sortTime |}])
  end.

(** The [setExitLog] updater of [fetchAllExits]. *)
Definition fetchAllExits (exits : list (string * string))
    (prevLog : list ExitLogEntry) : St (list ExitLogEntry) :=
  ks ← entryIds prevLog;
  let existingEntries : gset string := list_to_set ks in
  newEntries ← addFetched exits existingEntries [];
  let combinedEntries := take 50 (newEntries ++ prevLog) in
  mret combinedEntries.

(** The names of array [r], sorted: what [r.sort()] leaves in the
    array. *)
Definition sortedNames (h : Store) (r : ref) : list string :=
  sorted_copy (default [] (h !! r)).

(** The identifier of an entry: its sorted names joined by commas, a
    dash, its sort time. *)
Definition keyOf (h : Store) (entry : ExitLogEntry) : string :=
  String.concat "," (sortedNames h (names entry))
  +:+ "-" +:+ NumberToString (sortTime entry).

(** The identifier [fetchAllExits] computes for a fetched pair. *)
Definition exitId (exit : string * string) : string :=
  exit.1 +:+ "-" +:+ NumberToString (getTime exit.2).

(** An entry that [addFetched] made for one of the fetched pairs: its
    array is the one-name array of the pair, its time the pair's. *)
Definition fetched (h : Store) (existing : gset string)
    (exits : list (string * string)) (entry : ExitLogEntry) : Prop :=
  exists exit,
    exit ∈ exits
    /\ h !! names entry = Some [exit.1]
    /\ sortTime entry = getTime exit.2
    /\ exitId exit ∉ existing.

End WithRuntime.

(** Ascending order of names. *)
Definition ascending (a : list string) : Prop :=
  Sorted (fun s t => String.leb s t = true) a.

Definition noon : number := Fin 1000.

(** A store with the array of a retained entry and a pushed array that
    holds the same names in another order. *)
Definition twoArrays : list (list string) :=
  [["Bob"; "Alice"]; ["Alice"; "Bob"]].

Definition retained : ExitLogEntry :=
  {| names := 0; timestamp := "12:00:00"; sortTime := noon |}.

(** An entry pushed later than any exit of the answers below. *)
Definition latest : ExitLogEntry :=
  {| names := 0; timestamp := "12:00:02"; sortTime := Fin 2000 |}.

(** The log is in descending order of sort time. *)
Definition descending (log : list ExitLogEntry) : Prop :=
  StronglySorted (fun a b => num_le (sortTime b) (sortTime a)) log.

(** An answer of the server with [n] exits, one name each, listed from
    the earliest (sort time [start]) to the latest. *)
Definition answer (start n : nat) : list (string * string) :=
  map (fun i => ("student" +:+ pretty i, pretty (start + i))) (seq 0 n).

(** A log of [n] entries for the array at reference 0, pushed at times
    [n], ..., 1, the latest in front. *)
Definition pushed (n : nat) : list ExitLogEntry :=
  map (fun i => {| names := 0; timestamp := "";
                   sortTime := Fin (inject_Z (Z.of_nat (n - i))) |})
    (seq 0 n).

End App.

(** ** components/ExitLog.tsx *)

Module ExitLog.
Import JS App.

(** The comparator [(a, b) => b.sortTime - a.sortTime]. *)
Definition compareFn (a b : ExitLogEntry) : number :=
  num_sub (sortTime b) (sortTime a).

(** [v > 0]. *)
Definition positive (v : number) : bool :=
  match v with
  | PosInf => true
  | Fin q => negb (Qle_bool q 0)
  | _ => false
  end.

(** [Array.prototype.sort] with a comparator is stable and puts [a]
    after [b] when [compareFn(a, b) > 0].  For a consistent comparator
    every such sort returns the same array, the one built here by
    inserting from the right.  (A NaN sort time makes the comparator
    inconsistent and the order implementation-defined.) *)
Fixpoint insert (a : ExitLogEntry) (sorted : list ExitLogEntry)
  : list ExitLogEntry :=
  match sorted with
  | [] => [a]
  | b :: rest =>
      if positive (compareFn a b) then b :: insert a rest else a :: sorted
  end.

(** [[...entries].sort(compareFn)]: a sorted copy. *)
Definition sortedEntries (entries : list ExitLogEntry) : list ExitLogEntry :=
  foldr insert [] entries.

(** A table row: its React key and its two cells. *)
Record Row : Type := {
  key : string;
  time : string;
  namesCell : string
}.

Inductive View : Type :=
| EmptyState
| Table (rows : list Row).

Section WithRuntime.
Context `{Runtime}.

(** The component, for the arrays of names found in store [h]. *)
Definition ExitLog (h : list (list string)) (entries : list ExitLogEntry)
  : View :=
  if (length entries =? 0)%nat then EmptyState
  else
    Table
      (imap (fun index entry =>
               {| key := NumberToString (sortTime entry)
                         +:+ "-" +:+ pretty index;
                  time := timestamp entry;
                  namesCell :=
                    String.concat ", " (default [] (h !! names entry)) |})
         (sortedEntries entries)).

End WithRuntime.

(** The entries sorted newest first. *)
Definition newestFirst (entries : list ExitLogEntry) : Prop :=
  StronglySorted (fun a b => num_le (sortTime b) (sortTime a)) entries.

(** [e] has sort time [t]. *)
Definition at_time (t : number) (e : ExitLogEntry) : bool :=
  num_leb t (sortTime e) && num_leb (sortTime e) t.

End ExitLog.

(** ** App.tsx: the guards in front of the exit log *)

Module AppGuards.
Import JS.

(** [a > b]. *)
Definition num_gtb (a b : number) : bool :=
  match a, b with
  | NaN, _ | _, NaN => false
  | _, _ => negb (num_leb a b)
  end.

Definition num_of_nat (n : nat) : number := num_of_Z (Z.of_nat n).

(** [v.length] for a truthy [v]: the length of an array or a string, the
    own property of an object, [undefined] otherwise. *)
Definition length_of (v : JsValue) : JsValue :=
  match v with
  | JArray l => JNumber (num_of_nat (length l))
  | JString s => JNumber (num_of_nat (String.length s))
  | JObject props => default JUndefined (own "length" props)
  | _ => JUndefined
  end.

Section WithRuntime.
Context `{Runtime}.

(** [v > 0]: the left side is converted to a number. *)
Definition greater_than_zero (v : JsValue) : Res bool :=
  n ← ToNumber v; Ok (num_gtb n (Fin 0)).

(** [a.sort().join(',')] on the value the guard let through.  Only an
    array has a [sort] method; calling the missing method of anything else
    throws.  The default comparator converts the elements it compares to
    strings, and [join] converts every element that is neither null nor
    undefined, as [ToString] of the array does: the expression throws as
    soon as one element has no conversion.  [Ok l] is the array whose
    identifier was computed, on which the rest of the updater runs. *)
Definition sortJoin (v : JsValue) : Res (list JsValue) :=
  match v with
  | JArray l => _ ← ToString (JArray l); Ok l
  | _ => Throw TypeError
  end.

(** The second half of the [lastResponse] effect, from
    [if (lastResponse.exit_ids && lastResponse.exit_ids.length > 0)] on,
    for a truthy [lastResponse]: [Ok None] when the guard fails and
    the log is left alone, [Ok (Some l)] when the updater computes the
    identifier of the array [l], a throw when the guard or the
    [sort().join(',')] of the updater throws. *)
Definition lastResponseExits (lastResponse : JsValue)
  : Res (option (list JsValue)) :=
  exit_ids ← getProp lastResponse "exit_ids";
  if truthy exit_ids then
    positive ← greater_than_zero (length_of exit_ids);
    if positive : bool then l ← sortJoin exit_ids; Ok (Some l)
    else Ok None
  else Ok None.

(** The same place in [handleVideoStop], whose guard is
    [data && data.exits && Array.isArray(data.exits) &&
     data.exits.length > 0]. *)
Definition videoStopExits (data : JsValue) : Res (option (list JsValue)) :=
  if truthy data then
    exits ← getProp data "exits";
    if truthy exits && isArray exits then
      positive ← greater_than_zero (length_of exits);
      if positive : bool then l ← sortJoin exits; Ok (Some l)
      else Ok None
    else Ok None
  else Ok None.

End WithRuntime.

End AppGuards.

(** ** components/VideoInput.tsx *)

Module VideoInput.

Definition TARGET_FPS : Z := 60.
Definition JPEG_QUALITY : Q := 8 # 10.
Definition MAX_DIMENSION : Z := 1920.
Definition FRAME_SKIP : nat := 1.

(** What [captureFrame] reads of the video element. *)
Record Video : Type := {
  videoWidth : Z;
  videoHeight : Z;
  paused : bool;
  ended : bool
}.

(** The refs [captureFrame] reads and writes. *)
Record Refs : Type := {
  lastCaptureTimeRef : Q;
  frameCountRef : nat;
  skipFrameCountRef : nat
}.

(** Where the [try] block of [captureFrame] can be left by an
    exception. *)
Inductive Failure : Type :=
| drawImage_throws
| toBlob_throws.

(** What [captureFrame] and the callback of [toBlob] ask for. *)
Inductive Action : Type :=
| console_log (msg : string)
| console_error (msg : string)
| requestAnimationFrame
| setCanvasSize (width height : Z)
| clearRect (width height : Z)
| drawImage (width height : Z)
| setDebug (msg : string)
| toBlob (type : string) (quality : Q)
| onFrame (blob : Hook.Blob).

(** [a % b]: the remainder of the division truncated towards zero. *)
Definition truncate (q : Q) : Z := Z.quot (Qnum q) (Zpos (Qden q)).

Definition remainder (a b : Q) : Q := a - b * inject_Z (truncate (a / b)).

Section CaptureFrame.

(** The binary64 value the runtime computes for an exact quotient or
    product. *)
Variable fl : Q -> Q.

(** The size [captureFrame] gives the canvas for a video of intrinsic
    size [videoWidth] x [videoHeight]: the frame is scaled down when a
    side exceeds [MAX_DIMENSION]. *)
Definition frameSize (videoWidth videoHeight : Z) : Z * Z :=
  let width := videoWidth in
  let height := videoHeight in
  if (MAX_DIMENSION <? width)%Z || (MAX_DIMENSION <? height)%Z then
    if (height <? width)%Z then
      let ratio := fl (inject_Z MAX_DIMENSION / inject_Z width) in
      (MAX_DIMENSION, Qfloor (fl (inject_Z height * ratio)))
    else
      let ratio := fl (inject_Z MAX_DIMENSION / inject_Z height) in
      (Qfloor (fl (inject_Z width * ratio)), MAX_DIMENSION)
  else (width, height).

(** [fpsIntervalRef], initialised to [1000 / TARGET_FPS] and never
    written. *)
Definition fpsIntervalRef : Q := fl (1000 / inject_Z TARGET_FPS).

(** One call of [captureFrame] at time [now] ([performance.now()]).
    [elements] is the video when both refs are set, [hasContext] tells
    whether [getContext('2d')] returned a context, [failure] whether and
    where the [try] block throws. *)
Definition captureFrame (elements : option Video) (now : Q)
    (hasContext : bool) (failure : option Failure) (refs : Refs)
  : Refs * list Action :=
  match elements with
  | None =>
      (refs, [console_log "Video or canvas ref not available";
              requestAnimationFrame])
  | Some video =>
      let elapsed := fl (now - lastCaptureTimeRef refs) in
      if negb (Qle_bool fpsIntervalRef elapsed) then
        (refs, [requestAnimationFrame])
      else
        let refs :=
          {| lastCaptureTimeRef :=
               fl (now - remainder elapsed fpsIntervalRef);
             frameCountRef := frameCountRef refs;
             skipFrameCountRef := skipFrameCountRef refs |} in
        if (videoWidth video <=? 0)%Z || (videoHeight video <=? 0)%Z
           || paused video || ended video
        then (refs, [console_log "Video not ready:"; requestAnimationFrame])
        else
          let '(width, height) :=
            frameSize (videoWidth video) (videoHeight video) in
          if negb hasContext then
            (refs, [setCanvasSize width height;
                    console_error "Could not get canvas context";
                    requestAnimationFrame])
          else
            match failure with
            | Some drawImage_throws =>
                (refs, [setCanvasSize width height; clearRect width height;
                        console_error "Error capturing frame:";
                        requestAnimationFrame])
            | _ =>
                let frameCount := S (frameCountRef refs) in
                let skipFrameCount :=
                  ((skipFrameCountRef refs + 1) mod FRAME_SKIP)%nat in
                ({| lastCaptureTimeRef := lastCaptureTimeRef refs;
                    frameCountRef := frameCount;
                    skipFrameCountRef := skipFrameCount |},
                 [setCanvasSize width height; clearRect width height;
                  drawImage width height]
                 ++ (if (frameCount mod 15 =? 0)%nat
                     then [setDebug "Captured frame"] else [])
                 ++ (if (skipFrameCount =? 0)%nat then
                       match failure with
                       | Some toBlob_throws =>
                           [console_error "Error capturing frame:";
                            requestAnimationFrame]
                       | _ => [toBlob "image/jpeg" JPEG_QUALITY]
                       end
                     else [requestAnimationFrame]))
            end
  end.

End CaptureFrame.

(** The callback given to [canvas.toBlob]; [blob] is [None] when the
    canvas could not be encoded.  The parent's [onFrame] is taken to
    return; an exception of it would leave the callback before the
    request. *)
Definition blobCallback (blob : option Hook.Blob) (refs : Refs)
  : list Action :=
  match blob with
  | Some blob =>
      (if (frameCountRef refs mod 30 =? 0)%nat
       then [console_log "Frame size"] else [])
      ++ [onFrame blob]
  | None => [console_error "Failed to create blob from canvas"]
  end
  ++ [requestAnimationFrame].

(** How often the loop is re-armed, how many encodings are started and
    which frames are handed to the parent. *)
Definition rearms (actions : list Action) : nat :=
  length (List.filter (fun a => match a with
                                | requestAnimationFrame => true
                                | _ => false
                                end) actions).

Definition encodings (actions : list Action) : nat :=
  length (List.filter (fun a => match a with
                                | toBlob _ _ => true
                                | _ => false
                                end) actions).

Definition handed (actions : list Action) : list Hook.Blob :=
  omap (fun a => match a with
                 | onFrame blob => Some blob
                 | _ => None
                 end) actions.

Definition draws (actions : list Action) : nat :=
  length (List.filter (fun a => match a with
                                | drawImage _ _ => true
                                | _ => false
                                end) actions).

(** Rounding to nearest, as far as the sizes need it: it is monotone,
    it keeps the integers up to 2^53, and on a value between 2^-64 and
    2^64 (far from underflow and overflow) its relative error is at most
    2^-53. *)
Record rounds_to_nearest (fl : Q -> Q) : Prop := {
  fl_monotone : forall x y : Q, (x <= y)%Q -> (fl x <= fl y)%Q;
  fl_integer : forall z : Z,
    (0 <= z <= 2 ^ 53)%Z -> (fl (inject_Z z) == inject_Z z)%Q;
  fl_error : forall x : Q,
    ((1 # 2 ^ 64) <= x)%Q -> (x <= inject_Z (2 ^ 64))%Q ->
    (x * (1 - (1 # 2 ^ 53)) <= fl x)%Q /\ (fl x <= x * (1 + (1 # 2 ^ 53)))%Q
}.

End VideoInput.

(** ** components/WebSocketTest.tsx *)

Module WebSocketTest.

(** [addLog(message)]; [iso] is [new Date().toISOString()]. *)
Definition addLog (iso message : string) (prev : list string) : list string :=
  let timestamp := String.substring 11 12 iso in
  take 100 ((timestamp +:+ " - " +:+ message) :: prev).

(** The log after a sequence of [addLog] calls, each with its clock
    reading and its message. *)
Definition logged (calls : list (string * string)) (logs : list string)
  : list string :=
  fold_left (fun prev call => addLog call.1 call.2 prev) calls logs.

(** The line [addLog] makes of a call. *)
Definition line (call : string * string) : string :=
  String.substring 11 12 call.1 +:+ " - " +:+ call.2.

End WebSocketTest.

(** * Properties *)

(** ** The frame queue *)

(** Unfolds a handler down to its state and effect list. *)
Ltac unfold_M :=
  unfold Hook.exec, Hook.effects, Hook.connect, Hook.reconnect, Hook.timer,
    Hook.onopen, Hook.onclose, Hook.onerror, Hook.onmessage,
    Hook.reader_onload, Hook.reader_onerror, Hook.processNextFrame,
    Hook.shift, Hook.when, Hook.gets, Hook.modify, Hook.effect,
    mbind, Hook.M_bind, mret, Hook.M_ret in *.

Section FrameQueue.
Import JS Hook.

Lemma lastn_all {A : Type} (k : nat) (l : list A) :
  length l <= k -> lastn k l = l.
Proof.
  intros Hle. unfold lastn. replace (length l - k) with 0 by lia. done.
Qed.

Lemma lastn_length {A : Type} (k : nat) (l : list A) :
  length (lastn k l) = Nat.min k (length l).
Proof. unfold lastn. rewrite length_drop. lia. Qed.

Lemma lastn_snoc {A : Type} (k : nat) (l : list A) (x : A) :
  lastn (S k) (l ++ [x]) = lastn k l ++ [x].
Proof.
  unfold lastn. rewrite length_app. simpl.
  replace (length l + 1 - S k) with (length l - k) by lia.
  rewrite drop_app_le by lia. done.
Qed.

Lemma lastn_lastn {A : Type} (k m : nat) (l : list A) :
  k <= m -> lastn k (lastn m l) = lastn k l.
Proof.
  intros Hkm. unfold lastn. rewrite length_drop, drop_drop.
  f_equal. lia.
Qed.

Lemma lastn_app_long {A : Type} (k : nat) (l1 l2 : list A) :
  k <= length l2 -> lastn k (l1 ++ l2) = lastn k l2.
Proof.
  intros Hk. unfold lastn. rewrite length_app.
  rewrite drop_app_ge by lia. f_equal. lia.
Qed.

Lemma lastn_map {A B : Type} (f : A -> B) (k : nat) (l : list A) :
  lastn k (map f l) = map f (lastn k l).
Proof. unfold lastn. rewrite length_map. symmetry. apply fmap_drop. Qed.

Lemma dropOldest_lastn (queue : list Blob) :
  (dropOldest queue).1 = lastn (MAX_QUEUE_SIZE - 1) queue.
Proof.
  induction queue as [|f queue IH]; [done|].
  cbn [dropOldest].
  destruct (Nat.leb_spec MAX_QUEUE_SIZE (length (f :: queue)))
    as [Hfull|Hroom].
  - destruct (dropOldest queue) as [q out] eqn:E. cbn in IH |- *. rewrite IH.
    unfold lastn, MAX_QUEUE_SIZE in *. cbn [length] in *.
    replace (length queue - 3) with (S (length queue - 4)) by lia.
    done.
  - cbn [fst]. symmetry. apply lastn_all.
    unfold MAX_QUEUE_SIZE in *. cbn [length] in *. lia.
Qed.

Lemma exec_bind (m : M unit) (k : M unit) (s : State) :
  exec (m ;; k) s = exec k (exec m s).
Proof.
  unfold exec, mbind, M_bind. destruct (m s) as [[[] s1] o1]. cbn.
  destruct (k s1) as [[[] s2] o2]. done.
Qed.


Lemma exec_processNextFrame (captured : bool) (s : State) :
  exec (processNextFrame captured) s =
  if sends captured s then
    setQueueSize (length (tail (frameQueueRef s)))
      (set_frameQueueRef (tail (frameQueueRef s)) (set_processingRef true s))
  else s.
Proof.
  destruct s as [ic er lr qs ws q p ca]. unfold sends. cbn.
  destruct captured, p, q as [|f q], ws as [[]|]; reflexivity.
Qed.

Lemma exec_queueFrame (captured : bool) (frameBlob : Blob) (s : State) :
  exec (queueFrame captured frameBlob) s =
  let queue := enqueue (frameQueueRef s) (processedBlob frameBlob) in
  let s1 := setQueueSize (length queue) (set_frameQueueRef queue s) in
  exec (processNextFrame captured) s1.
Proof.
  unfold enqueue. rewrite <- dropOldest_lastn.
  destruct s as [ic er lr qs ws q p ca]. cbn.
  destruct (dropOldest q) as [q' out] eqn:E.
  assert (Hne : q' ++ [processedBlob frameBlob] <> []) by (by destruct q').
  unfold exec, queueFrame, processNextFrame, mbind, M_bind, when, gets,
    modify, effect, mret, M_ret.
  cbn. rewrite E. cbn.
  destruct (String.eqb (type frameBlob) "image/jpeg"); cbn;
    destruct p, captured; cbn; try reflexivity;
    destruct (q' ++ [processedBlob frameBlob]) as [|g r] eqn:E2; try done; cbn;
    destruct ws as [[]|]; reflexivity.
Qed.

Lemma fold_enqueue (frames : list Blob) (queue : list Blob) :
  frames <> [] ->
  fold_left enqueue frames queue = lastn MAX_QUEUE_SIZE (queue ++ frames).
Proof.
  induction frames as [|f frames IH] using rev_ind; [done|]. intros _.
  rewrite fold_left_app. cbn [fold_left]. unfold enqueue at 1.
  rewrite app_assoc. unfold MAX_QUEUE_SIZE in *.
  change 5 with (S (5 - 1)) at 2. rewrite lastn_snoc. f_equal.
  destruct frames as [|g frames]; [by rewrite app_nil_r|].
  rewrite IH by done. apply lastn_lastn. lia.
Qed.

(** What the two hooks' [queueFrame] share: the frame is stored in some
    form behind the last [MAX_QUEUE_SIZE - 1] queued ones, then
    [processNextFrame] runs. *)
Section Burst.
Variable push : bool -> Blob -> M unit.
Variable stored : Blob -> Blob.
Hypothesis exec_push : forall captured frameBlob s,
  exec (push captured frameBlob) s =
  let queue := enqueue (frameQueueRef s) (stored frameBlob) in
  let s1 := setQueueSize (length queue) (set_frameQueueRef queue s) in
  exec (processNextFrame captured) s1.

Lemma push_not_idle (captured : bool) (frameBlob : Blob) (s : State) :
  idle captured (exec (push captured frameBlob) s) = false.
Proof.
  rewrite exec_push. cbn zeta. rewrite exec_processNextFrame.
  unfold sends, idle, enqueue.
  destruct (lastn (MAX_QUEUE_SIZE - 1) (frameQueueRef s)) as [|g q];
    destruct s as [ic er lr qs ws q0 p ca]; cbn;
    destruct captured, p, ws as [[]|]; reflexivity.
Qed.

Lemma push_blocked (captured : bool) (frameBlob : Blob) (s : State) :
  idle captured s = false ->
  let s' := exec (push captured frameBlob) s in
  frameQueueRef s' = enqueue (frameQueueRef s) (stored frameBlob)
  /\ idle captured s' = false.
Proof.
  intros Hidle. split; [|apply push_not_idle].
  rewrite exec_push. cbn zeta. rewrite exec_processNextFrame.
  replace (sends captured _) with false; [done|].
  revert Hidle. unfold sends, idle.
  destruct s as [ic er lr qs ws q0 p ca]; cbn.
  destruct captured, p, ws as [[]|]; cbn; try done; by rewrite andb_false_r.
Qed.

Lemma pushes_blocked (captured : bool) (frames : list Blob) (s : State) :
  idle captured s = false ->
  frameQueueRef (fold_left (fun s f => exec (push captured f) s) frames s)
  = fold_left enqueue (map stored frames) (frameQueueRef s).
Proof.
  revert s. induction frames as [|f frames IH]; intros s Hidle; [done|].
  cbn [map fold_left].
  destruct (push_blocked captured f s Hidle) as [Hq Hidle'].
  cbn zeta in Hq, Hidle'. rewrite IH by done. by rewrite Hq.
Qed.

Lemma burst_keeps_last (captured : bool) (frames : list Blob) (s : State) :
  MAX_QUEUE_SIZE < length frames ->
  frameQueueRef (fold_left (fun s f => exec (push captured f) s) frames s)
  = map stored (lastn MAX_QUEUE_SIZE frames).
Proof.
  intros Hlong. destruct frames as [|f frames]; [cbn in Hlong; lia|].
  cbn [fold_left]. rewrite pushes_blocked by apply push_not_idle.
  cbn [length] in Hlong. unfold MAX_QUEUE_SIZE in *.
  rewrite fold_enqueue by (destruct frames; [cbn in Hlong; lia|done]).
  rewrite lastn_app_long by (rewrite length_map; unfold MAX_QUEUE_SIZE; lia).
  rewrite lastn_map. f_equal.
  change (f :: frames) with ([f] ++ frames).
  rewrite lastn_app_long; [done|lia].
Qed.

End Burst.

Lemma exec_queueFrames (captured : bool) (frames : list Blob) (s : State) :
  exec (queueFrames captured frames) s
  = fold_left (fun s f => exec (queueFrame captured f) s) frames s.
Proof.
  revert s. induction frames as [|f frames IH]; intros s; [done|].
  unfold queueFrames in *. cbn [map run fold_left]. rewrite exec_bind.
  apply IH.
Qed.

(** The earlier hook moves the state as the one above. *)
Lemma exec_UseWebSocket_processNextFrame (captured : bool) (s : State) :
  exec (UseWebSocket.processNextFrame captured) s
  = exec (processNextFrame captured) s.
Proof.
  destruct s as [ic er lr qs ws q p ca]. cbn.
  destruct captured, p, q as [|f q], ws as [[]|]; reflexivity.
Qed.

Lemma exec_UseWebSocket_queueFrame
    (captured : bool) (frameBlob : Blob) (s : State) :
  exec (UseWebSocket.queueFrame captured frameBlob) s =
  let queue := enqueue (frameQueueRef s) frameBlob in
  let s1 := setQueueSize (length queue) (set_frameQueueRef queue s) in
  exec (processNextFrame captured) s1.
Proof.
  unfold enqueue. rewrite <- dropOldest_lastn.
  destruct s as [ic er lr qs ws q p ca]. cbn.
  destruct (dropOldest q) as [q' out] eqn:E.
  assert (Hne : q' ++ [frameBlob] <> []) by (by destruct q').
  unfold exec, UseWebSocket.queueFrame, UseWebSocket.processNextFrame,
    processNextFrame, mbind, M_bind, when, gets, modify, effect, mret, M_ret.
  cbn. rewrite E. cbn.
  destruct p, captured; cbn; try reflexivity;
    destruct (q' ++ [frameBlob]) as [|g r] eqn:E2; try done; cbn;
    destruct ws as [[]|]; reflexivity.
Qed.

Lemma exec_UseWebSocket_queueFrames
    (captured : bool) (frames : list Blob) (s : State) :
  exec (UseWebSocket.queueFrames captured frames) s
  = fold_left (fun s f => exec (UseWebSocket.queueFrame captured f) s) frames s.
Proof.
  revert s. induction frames as [|f frames IH]; intros s; [done|].
  cbn [UseWebSocket.queueFrames fold_left]. rewrite exec_bind. apply IH.
Qed.

(** Apart from [queueFrame], a handler leaves the queue alone or takes
    its head. *)
Lemma handle_queue (e : Event) (s : State) :
  match e with
  | QueueFrame _ _ => True
  | _ => frameQueueRef (exec (handle e) s) = frameQueueRef s
         \/ frameQueueRef (exec (handle e) s) = tail (frameQueueRef s)
  end.
Proof.
  destruct e as [t|t|t|r|c| | |c parsed|c f|f throws|]; try done;
    destruct s as [ic er lr qs ws q p ca]; cbn [handle].
  - left. unfold_M. cbn. by destruct t, ws.
  - left. unfold_M. cbn. by destruct t, ws.
  - left. unfold_M. cbn. by destruct t, ws as [[]|].
  - left. unfold_M. cbn. by destruct ws.
  - change (onopen c) with
      (effect (console_log "WebSocket connected successfully");;
       modify (setIsConnected true);; modify (setError None);;
       modify (set_connectionAttempts 0);; processNextFrame c).
    rewrite !exec_bind, exec_processNextFrame.
    destruct (sends c _); cbn; auto.
  - left. by unfold_M.
  - left. by unfold_M.
  - destruct parsed as [data|]; [|left; by unfold_M].
    unfold onmessage. rewrite !exec_bind, exec_processNextFrame.
    destruct (sends c _); cbn; destruct (truthy data && _); cbn; auto.
  - left. unfold_M. cbn. destruct ws as [[]|]; cbn; try done;
      destruct (hasJpegSignature (bytes f)), throws; done.
  - left. by unfold_M.
Qed.

Lemma handle_queue_bound (e : Event) (s : State) :
  length (frameQueueRef s) <= MAX_QUEUE_SIZE ->
  length (frameQueueRef (exec (handle e) s)) <= MAX_QUEUE_SIZE.
Proof.
  intros Hlen. pose proof (handle_queue e s) as Hq.
  destruct e; try (destruct Hq as [-> | ->]; [done|];
                   destruct (frameQueueRef s); cbn in *; lia).
  cbn [handle]. rewrite exec_queueFrame. cbn zeta.
  rewrite exec_processNextFrame.
  set (queue := enqueue (frameQueueRef s) (processedBlob frameBlob)).
  assert (Hen : length queue <= MAX_QUEUE_SIZE).
  { unfold queue, enqueue, MAX_QUEUE_SIZE. rewrite length_app, lastn_length.
    cbn [length]. lia. }
  destruct (sends captured _); cbn; [|done].
  destruct queue; cbn in *; lia.
Qed.

(** C1. A burst of more than [MAX_QUEUE_SIZE] calls of [queueFrame]
    leaves in the queue exactly the last [MAX_QUEUE_SIZE] frames pushed
    (as [queueFrame] stores them: retyped when not already image/jpeg, same
    bytes), in push order, whatever the state before the burst; with the
    [queueFrame] of the earlier hook the frames are stored as they are;
    and along every run of the hook from its initial state the queue never
    holds more than [MAX_QUEUE_SIZE] frames. *)
Theorem frameQueue_keeps_last_frames
    (captured : bool) (frames : list Blob) (s : State) (events : list Event) :
  (MAX_QUEUE_SIZE < length frames ->
   let queue := frameQueueRef (exec (queueFrames captured frames) s) in
   queue = map processedBlob (lastn MAX_QUEUE_SIZE frames)
   /\ map bytes queue = lastn MAX_QUEUE_SIZE (map bytes frames)
   /\ (Forall (fun f => type f = "image/jpeg") frames ->
       queue = lastn MAX_QUEUE_SIZE frames)
   /\ length queue = MAX_QUEUE_SIZE
   /\ frameQueueRef (exec (UseWebSocket.queueFrames captured frames) s)
      = lastn MAX_QUEUE_SIZE frames)
  /\ length (frameQueueRef (exec (run events) initial)) <= MAX_QUEUE_SIZE.
Proof.
  split; [intros Hlong queue|]; cycle 1.
  { assert (Hgen : forall s, length (frameQueueRef s) <= MAX_QUEUE_SIZE ->
      length (frameQueueRef (exec (run events) s)) <= MAX_QUEUE_SIZE).
    { induction events as [|e events IH]; intros s0 Hs; [done|].
      cbn [run]. rewrite exec_bind. apply IH. by apply handle_queue_bound. }
    apply Hgen. cbn. unfold MAX_QUEUE_SIZE. lia. }
  assert (Hqueue : queue = map processedBlob (lastn MAX_QUEUE_SIZE frames)).
  { subst queue. rewrite exec_queueFrames.
    by apply (burst_keeps_last queueFrame processedBlob exec_queueFrame). }
  split; [done|]. split; [|split; [|split]].
  - rewrite Hqueue, lastn_map, map_map.
    apply map_ext. intros f. unfold processedBlob. by destruct (negb _).
  - intros Hjpeg. rewrite Hqueue. unfold lastn.
    apply (Forall_drop _ (length frames - MAX_QUEUE_SIZE)) in Hjpeg.
    induction Hjpeg as [|f l Hf _ IH]; [done|].
    cbn [map]. rewrite IH. unfold processedBlob. by rewrite Hf.
  - rewrite Hqueue, length_map, lastn_length. lia.
  - rewrite exec_UseWebSocket_queueFrames.
    rewrite (burst_keeps_last UseWebSocket.queueFrame id)
      by (done || apply exec_UseWebSocket_queueFrame).
    apply map_id.
Qed.

End FrameQueue.

(** ** The send discipline *)

Section SendDiscipline.
Import JS Hook.

Lemma effects_bind (m k : M unit) (s : State) :
  effects (m ;; k) s = effects m s ++ effects k (exec m s).
Proof.
  unfold effects, exec, mbind, M_bind. destruct (m s) as [[[] s1] o1]. cbn.
  destruct (k s1) as [[[] s2] o2]. done.
Qed.

Lemma initiated_app (out1 out2 : list Effect) :
  initiated (out1 ++ out2) = initiated out1 + initiated out2.
Proof. unfold initiated. by rewrite List.filter_app, length_app. Qed.

Lemma initiated_processNextFrame (captured : bool) (s : State) :
  initiated (effects (processNextFrame captured) s)
  = if sends captured s then 1 else 0.
Proof.
  destruct s as [ic er lr qs ws q p ca]. unfold sends. cbn.
  destruct captured, p, q as [|f q], ws as [[]|]; reflexivity.
Qed.

Lemma initiated_dropOldest (queue : list Blob) :
  initiated (dropOldest queue).2 = 0.
Proof.
  induction queue as [|f queue IH]; [done|].
  cbn [dropOldest].
  destruct (MAX_QUEUE_SIZE <=? length (f :: queue))%nat; [|done].
  destruct (dropOldest queue) as [q out]. cbn in IH |- *. done.
Qed.

Lemma sends_processing (captured : bool) (s : State) :
  sends captured s = true -> processingRef s = false.
Proof. unfold sends. destruct captured, (processingRef s); cbn; done. Qed.

Lemma initiated_queueFrame (captured : bool) (frameBlob : Blob) (s : State) :
  initiated (effects (queueFrame captured frameBlob) s)
  = let queue := enqueue (frameQueueRef s) (processedBlob frameBlob) in
    if sends captured (setQueueSize (length queue) (set_frameQueueRef queue s))
    then 1 else 0.
Proof.
  unfold enqueue. rewrite <- dropOldest_lastn.
  pose proof (initiated_dropOldest (frameQueueRef s)) as Hout.
  destruct s as [ic er lr qs ws q p ca]. cbn in Hout |- *.
  destruct (dropOldest q) as [q' out] eqn:E.
  unfold initiated in Hout. cbn in Hout.
  unfold effects, queueFrame, processNextFrame, sends, mbind, M_bind, when,
    gets, modify, effect, mret, M_ret.
  cbn. rewrite E. cbn.
  assert (Hne : q' ++ [processedBlob frameBlob] <> []) by (by destruct q').
  destruct (String.eqb (type frameBlob) "image/jpeg"); cbn;
    destruct p, captured; cbn;
    try destruct (q' ++ [processedBlob frameBlob]) as [|g r] eqn:E2;
    try done; cbn; try destruct ws as [[]|]; cbn;
    unfold initiated; rewrite ?List.filter_app, ?length_app, ?Hout;
    reflexivity.
Qed.

(** One step of the hook: a handler initiates at most one send; when it
    initiates one the flag is set afterwards, and was clear before unless
    the event itself settles the previous send; when it initiates none, the
    flag is cleared by a settling event and kept by any other. *)
Lemma handle_step (e : Event) (s : State) :
  let s' := exec (handle e) s in
  let k := initiated (effects (handle e) s) in
  (k = 1 /\ processingRef s' = true
         /\ (settles e s = true \/ processingRef s = false))
  \/ (k = 0 /\ processingRef s' =
                if settles e s then false else processingRef s).
Proof.
  destruct e as [t|t|t|r|c| | |c parsed|c f|f throws|]; cbn [handle settles].
  - right. destruct t, s as [ic er lr qs [ws|] q p ca]; by unfold_M.
  - right. destruct t, s as [ic er lr qs [ws|] q p ca]; by unfold_M.
  - right. destruct t, s as [ic er lr qs [[]|] q p ca]; by unfold_M.
  - right. destruct s as [ic er lr qs [ws|] q p ca]; by unfold_M.
  - change (onopen c) with
      (effect (console_log "WebSocket connected successfully");;
       modify (setIsConnected true);; modify (setError None);;
       modify (set_connectionAttempts 0);; processNextFrame c).
    rewrite !effects_bind, !exec_bind, !initiated_app, exec_processNextFrame,
      initiated_processNextFrame.
    destruct (sends c _) eqn:Hs; [left|right]; cbn; [|done].
    apply sends_processing in Hs. cbn in Hs. auto.
  - right. by unfold_M.
  - right. by unfold_M.
  - destruct parsed as [data|]; [|right; by unfold_M].
    unfold onmessage.
    rewrite !effects_bind, !exec_bind, !initiated_app, exec_processNextFrame,
      initiated_processNextFrame.
    destruct (sends c _) eqn:Hs; [left|right]; cbn;
      destruct (truthy data && _); cbn; auto.
  - rewrite initiated_queueFrame, exec_queueFrame. cbn zeta.
    rewrite exec_processNextFrame.
    destruct (sends c _) eqn:Hs; [left|right]; cbn; [|done].
    apply sends_processing in Hs. cbn in Hs. auto.
  - right. destruct s as [ic er lr qs ws q p ca].
    unfold_M. cbn. destruct ws as [[]|]; cbn; try done;
      destruct (hasJpegSignature (bytes f)), throws; done.
  - right. by unfold_M.
Qed.

Lemma sent_app (out1 out2 : list Effect) :
  sent (out1 ++ out2) = sent out1 ++ sent out2.
Proof. apply omap_app. Qed.

Lemma sent_dropOldest (queue : list Blob) : sent (dropOldest queue).2 = [].
Proof.
  induction queue as [|f queue IH]; [done|].
  cbn [dropOldest].
  destruct (MAX_QUEUE_SIZE <=? length (f :: queue))%nat; [|done].
  destruct (dropOldest queue) as [q out]. cbn in IH |- *. done.
Qed.

Lemma sent_processNextFrame (captured : bool) (s : State) :
  sent (effects (processNextFrame captured) s) = [].
Proof.
  destruct s as [ic er lr qs ws q p ca]. cbn.
  destruct captured, p, q as [|f q], ws as [[]|]; reflexivity.
Qed.

Lemma sent_queueFrame (captured : bool) (frameBlob : Blob) (s : State) :
  sent (effects (queueFrame captured frameBlob) s) = [].
Proof.
  destruct s as [ic er lr qs ws q p ca].
  pose proof (sent_dropOldest q) as Hout.
  destruct (dropOldest q) as [q' out] eqn:E. cbn [snd] in Hout.
  unfold effects, exec, queueFrame, processNextFrame, mbind, M_bind, when,
    gets, modify, effect, mret, M_ret.
  cbn. rewrite E. cbn.
  destruct (String.eqb (type frameBlob) "image/jpeg"); cbn;
    destruct p, captured; cbn;
    try destruct (q' ++ [processedBlob frameBlob]) as [|g r] eqn:E2;
    cbn; try destruct ws as [[]|]; cbn;
    rewrite ?sent_app, ?Hout; cbn; rewrite ?Hout; done.
Qed.

(** Only [reader.onload] sends, and what it sends is the content of the
    frame it read. *)
Lemma handle_sent (e : Event) (s : State) :
  match e with
  | ReaderLoad nextFrame _ =>
      reads (effects (handle e) s) = []
      /\ (sent (effects (handle e) s) = []
          \/ sent (effects (handle e) s) = [bytes nextFrame])
  | _ => sent (effects (handle e) s) = []
  end.
Proof.
  destruct e as [t|t|t|r|c| | |c parsed|c f|f throws|]; cbn [handle];
    [| | | | | | | |apply sent_queueFrame| |];
    destruct s as [ic er lr qs ws q p ca].
  - unfold_M. cbn. by destruct t, ws.
  - unfold_M. cbn. by destruct t, ws.
  - unfold_M. cbn. by destruct t, ws as [[]|].
  - unfold_M. cbn. by destruct ws.
  - cbn. destruct c, p, q as [|f q], ws as [[]|]; reflexivity.
  - by unfold_M.
  - by unfold_M.
  - destruct parsed as [data|]; [|by unfold_M].
    unfold onmessage. rewrite !effects_bind, !sent_app.
    rewrite sent_processNextFrame. cbn. by destruct (truthy data && _).
  - unfold_M. cbn. destruct ws as [[]|]; cbn; auto;
      destruct (hasJpegSignature (bytes f)), throws; cbn; auto.
  - by unfold_M.
Qed.

Lemma sent_length (e : Event) (s : State) :
  length (sent (effects (handle e) s))
  = match bearing e with
    | endsRead => if settles e s then 0 else 1
    | _ => 0
    end.
Proof.
  pose proof (handle_sent e s) as Hsent.
  destruct e as [t|t|t|r|c| | |c parsed|c f|f throws|];
    cbn [bearing settles]; try (by rewrite Hsent).
  clear Hsent. destruct s as [ic er lr qs ws q p ca]. cbn.
  unfold_M. cbn. destruct ws as [[]|], throws; cbn; try reflexivity;
    destruct (hasJpegSignature (bytes f)); reflexivity.
Qed.

Lemma settles_bearing (e : Event) (s : State) :
  match bearing e with
  | answer | failure => settles e s = true
  | neutral => settles e s = false
  | endsRead => True
  end.
Proof. by destruct e. Qed.

(** The invariant behind the send discipline, for any hook whose
    handlers move the flag as [handle_step] says: in an orderly run the
    frames in flight never exceed the flag plus the payloads that handlers
    send on their own account ([greets]); and in any run a set flag has a
    frame in flight. *)
Section FlightInvariant.
Context {E : Type}.
Variable handle : E -> M unit.
Variable bearing : E -> Bearing.
Variable settles : E -> State -> bool.
Variable greets : E -> State -> nat.

Hypothesis step : forall e s,
  let s' := exec (handle e) s in
  let k := initiated (effects (handle e) s) in
  (k = 1 /\ processingRef s' = true
         /\ (settles e s = true \/ processingRef s = false))
  \/ (k = 0 /\ processingRef s' =
                if settles e s then false else processingRef s).

Hypothesis payloads : forall e s,
  length (sent (effects (handle e) s))
  = match bearing e with
    | endsRead => if settles e s then 0 else 1
    | _ => greets e s
    end.

Hypothesis clears : forall e s,
  match bearing e with
  | answer | failure => settles e s = true
  | neutral => settles e s = false
  | endsRead => True
  end.

Lemma orderly_flights (events : list E) (s : State) (f : Flight) (n : nat) :
  orderly handle bearing events s f = true ->
  flights f <= flag s + n ->
  flights (inFlight handle bearing events s f)
  <= flag (after handle events s) + n + greeted handle greets events s.
Proof.
  revert s f n. induction events as [|e events IH]; intros s f n Hord Hle.
  { cbn. lia. }
  cbn [orderly inFlight after greeted] in *.
  apply andb_true_iff in Hord as [Hguard Hrest].
  specialize (IH (exec (handle e) s) (fly handle bearing e s f)
                (n + greets e s) Hrest).
  enough (Hstep' : flights (fly handle bearing e s f)
                   <= flag (exec (handle e) s) + (n + greets e s))
    by (apply IH in Hstep'; lia).
  clear IH Hrest. unfold fly, flights, flag in *. cbn [reading unanswered].
  rewrite payloads.
  pose proof (step e s) as Hstep. pose proof (clears e s) as Hclears.
  cbn zeta in Hstep. destruct f as [rd un]. cbn [reading unanswered] in *.
  destruct (bearing e);
    [apply Nat.ltb_lt in Hguard|apply Nat.ltb_lt in Hguard
    |apply Nat.eqb_eq in Hguard|];
    destruct Hstep as [(Hk & Hp & Hwhy)|(Hk & Hp)]; rewrite Hk, Hp;
    try rewrite Hclears; try (destruct Hwhy as [Hwhy|Hwhy]; rewrite Hwhy in *);
    try discriminate;
    destruct (settles e s), (processingRef s); try discriminate; lia.
Qed.

Lemma flag_flights (events : list E) (s : State) (f : Flight) :
  flag s <= flights f ->
  flag (after handle events s) <= flights (inFlight handle bearing events s f).
Proof.
  revert s f. induction events as [|e events IH]; intros s f Hle; [done|].
  cbn [inFlight after]. apply IH. clear IH.
  unfold fly, flights, flag in *. cbn [reading unanswered].
  rewrite payloads.
  pose proof (step e s) as Hstep. pose proof (clears e s) as Hclears.
  cbn zeta in Hstep. destruct f as [rd un]. cbn [reading unanswered] in *.
  destruct Hstep as [(Hk & Hp & Hwhy)|(Hk & Hp)]; rewrite Hk, Hp; [lia|].
  destruct (bearing e); try rewrite Hclears;
    destruct (settles e s), (processingRef s); lia.
Qed.

End FlightInvariant.

(** The beginning of an orderly run is orderly. *)
Lemma orderly_take {E : Type} (handle : E -> M unit) (bearing : E -> Bearing)
    (events : list E) (n : nat) (s : State) (f : Flight) :
  orderly handle bearing events s f = true ->
  orderly handle bearing (take n events) s f = true.
Proof.
  revert n s f. induction events as [|e events IH]; intros n s f Hord;
    [by destruct n|].
  destruct n as [|n]; [done|]. cbn [take orderly] in *.
  apply andb_true_iff in Hord as [Hguard Hrest].
  apply andb_true_iff. split; [done|]. by apply IH.
Qed.

Lemma after_run (events : list Event) (s : State) :
  after handle events s = exec (run events) s.
Proof.
  revert s. induction events as [|e events IH]; intros s; [done|].
  cbn [after run]. by rewrite exec_bind, IH.
Qed.

Lemma sent_length_bearing (e : Event) (s : State) :
  length (sent (effects (handle e) s))
  = match bearing e with
    | endsRead => if settles e s then 0 else 1
    | _ => 0
    end.
Proof. rewrite sent_length. by destruct (bearing e). Qed.

Lemma greeted_none (events : list Event) (s : State) :
  greeted handle (fun _ _ => 0) events s = 0.
Proof.
  revert s. induction events as [|e events IH]; intros s; [done|].
  cbn [greeted]. by rewrite IH.
Qed.

(** In an orderly run of the hook the frames in flight are what the flag
    says. *)
Lemma orderly_flag (events : list Event) :
  orderly handle bearing events initial grounded = true ->
  flights (inFlight handle bearing events initial grounded)
  = flag (exec (run events) initial).
Proof.
  intros Hord. apply Nat.le_antisymm.
  - pose proof (orderly_flights handle bearing settles (fun _ _ => 0)
                  handle_step sent_length_bearing settles_bearing
                  events initial grounded 0 Hord) as Hup.
    rewrite greeted_none, after_run in Hup. cbn in Hup. lia.
  - rewrite <- after_run.
    by apply (flag_flights handle bearing settles (fun _ _ => 0)
                handle_step sent_length_bearing settles_bearing).
Qed.

(** C2, as stated, fails.  A close of the socket clears the flag while
    the FileReader of the frame in flight is still reading.  Here a frame
    is being read when the user reconnects; the old socket reports its
    close, the new one opens, and the next [queueFrame] call, finding the
    flag clear, starts a second read.  Both readers then find the new
    socket open and send: two payloads are on the socket, no message has
    arrived, and every read was started with the flag clear. *)
Lemma close_clears_flag_of_frame_being_read :
  let fA := jpeg [Byte.x01] in
  let fB := jpeg [Byte.x02] in
  let before :=
    [Connect false; ReadyStateChange OPEN; Open false; QueueFrame true fA;
     Reconnect false; Close; ReadyStateChange OPEN; Open false] in
  let events :=
    before ++ [QueueFrame true fB; ReaderLoad fA false; ReaderLoad fB false] in
  completes events initial []
  /\ forallb (fun e => match e with
                       | Message _ _ => false
                       | _ => true
                       end) events = true
  /\ processingRef (exec (run before) initial) = false
  /\ reads (effects (run events) initial) = [fA; fB]
  /\ sent (effects (run events) initial) = [bytes fA; bytes fB]
  /\ inFlight handle bearing events initial grounded
     = {| reading := 0; unanswered := 2 |}.
Proof.
  cbn zeta. split; [|repeat split; reflexivity].
  cbn. exists [], [jpeg [Byte.x02]]. split; [reflexivity|].
  exists [], []. split; reflexivity.
Qed.

(** C2, amended.  A handler initiates at most one send, and none while
    the flag set by a previous send is pending unless it is itself one
    that clears the flag (response, close, error, failed send); any other
    handler leaves a set flag set.  As long as the socket neither closes
    nor fails while a frame is in flight and every message answers a sent
    frame, at most one frame is in flight (being read, or sent and not
    yet answered) at any point of any run from the initial state.  The
    [processNextFrame] of the earlier hook has the same guard: it
    initiates at most one send, none while the flag is set, and sets the
    flag when it initiates one. *)
Theorem at_most_one_frame_in_flight
    (events : list Event) (e : Event) (s : State) (captured : bool) :
  (orderly handle bearing events initial grounded = true ->
   forall n,
     flights (inFlight handle bearing (take n events) initial grounded) <= 1)
  /\ initiated (effects (handle e) s) <= 1
  /\ (processingRef s = true -> settles e s = false ->
      initiated (effects (handle e) s) = 0
      /\ processingRef (exec (handle e) s) = true)
  /\ (let s' := exec (UseWebSocket.processNextFrame captured) s in
      let k := initiated (effects (UseWebSocket.processNextFrame captured) s) in
      k <= 1
      /\ (processingRef s = true -> k = 0 /\ s' = s)
      /\ (k = 1 -> processingRef s = false /\ processingRef s' = true)).
Proof.
  split; [|split; [|split]].
  - intros Hord n. apply (orderly_take _ _ _ n) in Hord.
    rewrite (orderly_flag _ Hord). unfold flag.
    destruct (processingRef _); lia.
  - destruct (handle_step e s) as [(Hk & _)|(Hk & _)]; cbn zeta in Hk; lia.
  - intros Hp Hs.
    destruct (handle_step e s) as [(Hk & Hp' & Hwhy)|(Hk & Hp')];
      cbn zeta in *.
    + destruct Hwhy; congruence.
    + rewrite Hs in Hp'. split; congruence.
  - destruct s as [ic er lr qs ws q p ca]. cbn.
    destruct captured, p, q as [|f q], ws as [[]|]; vm_compute;
      repeat split; try done; lia.
Qed.

End SendDiscipline.

(** ** Malformed responses *)

Section Responses.
Import JS Hook.

(** C3, as stated, fails.  With a frame waiting, a response that decodes
    is followed at once by [processNextFrame] (which starts the next send
    in a closure that sees the connection, and logs its refusal in one
    that does not); a response that does not decode is followed by
    nothing: no call, no send, the frame stays queued. *)
Lemma decode_failure_attempts_no_send :
  let frame := jpeg [] in
  let s := awaiting frame in
  (initiated (effects (onmessage true (Some noPredictions)) s) = 1
   /\ frameQueueRef (exec (onmessage true (Some noPredictions)) s) = [])
  /\ (initiated (effects (onmessage true None) s) = 0
      /\ frameQueueRef (exec (onmessage true None) s) = [frame])
  /\ In (console_log "Not processing frame: Not connected")
        (effects (onmessage false (Some noPredictions)) s)
  /\ ~ In (console_log "Not processing frame: Not connected")
          (effects (onmessage false None) s).
Proof.
  cbn zeta. repeat split; try reflexivity.
  - vm_compute. tauto.
  - vm_compute. intros [H|[H|[]]]; discriminate.
Qed.

(** C3, amended.  When the body of a message does not decode, the
    handler logs the error and stops: the flag is cleared, nothing else
    in the state changes ([lastResponse] and the queue in particular), no
    send is initiated.  The next send is started by the next [queueFrame]
    call made while the socket is open, which finds the flag clear.  Only
    a decoded response is followed by [processNextFrame]. *)
Theorem onmessage_decode_failure
    (captured : bool) (data : JsValue) (frameBlob : Blob) (s : State) :
  let s' := exec (onmessage captured None) s in
  (effects (onmessage captured None) s
   = [console_log "Received message:";
      console_error "Error parsing WebSocket message:"]
   /\ s' = set_processingRef false s
   /\ lastResponse s' = lastResponse s
   /\ processingRef s' = false
   /\ frameQueueRef s' = frameQueueRef s)
  /\ (wsReady (wsRef s) = true ->
      initiated (effects (queueFrame true frameBlob) s') = 1)
  /\ exec (onmessage captured (Some data)) s
     = exec (processNextFrame captured)
         (setLastResponse data (set_processingRef false s)).
Proof.
  assert (Hs' : exec (onmessage captured None) s = set_processingRef false s)
    by (by destruct s).
  cbn zeta. rewrite Hs'. split; [by destruct s|]. split.
  - intros Hready. rewrite initiated_queueFrame. cbn zeta.
    replace (sends true _) with true; [done|].
    unfold sends, enqueue. destruct s as [ic er lr qs ws q p ca]. cbn in *.
    rewrite Hready. by destruct (drop _ q).
  - unfold onmessage. rewrite !exec_bind.
    unfold exec at 2 3 4 5. cbn. by destruct (truthy data && _).
Qed.

End Responses.

(** ** Reconnection backoff *)

Section Backoff.
Import JS Hook.
Local Open Scope Q_scope.

Lemma power_Qpower (growth : Q) (k : nat) :
  power growth k == growth ^ Z.of_nat k.
Proof.
  induction k as [|k IH]; [reflexivity|].
  cbn [power]. rewrite IH, Nat2Z.inj_succ.
  replace (Z.succ (Z.of_nat k)) with (1 + Z.of_nat k)%Z by lia.
  rewrite Qpower_plus' by lia. reflexivity.
Qed.

Lemma Qmin_clamp (delay maximum : Q) :
  Qmin delay maximum == if Qle_bool delay maximum then delay else maximum.
Proof.
  destruct (Qle_bool delay maximum) eqn:E.
  - apply Q.min_l. by apply Qle_bool_iff.
  - apply Q.min_r. apply Qlt_le_weak, Qnot_le_lt.
    intros Hle. apply Qle_bool_iff in Hle. congruence.
Qed.

Lemma reconnectDelay_mono (attempts attempts' : nat) :
  (attempts <= attempts')%nat ->
  reconnectDelay attempts <= reconnectDelay attempts'.
Proof.
  intros Hle. unfold reconnectDelay.
  apply Q.min_le_compat_r. apply Qmult_le_l; [reflexivity|].
  apply Qpower_le_compat_l; [lia|]. discriminate.
Qed.

(** C4. [onclose] sets one timer, with delay [reconnectDelay] of the
    attempt counter; that delay is 2000 * 1.5^min(attempts, 10) clamped to
    30000, it does not decrease when the counter grows, it never exceeds
    30000, and since [onopen] resets the counter to zero the delay of a
    close that follows an open is the base value 2000. *)
Theorem reconnect_delay_backoff
    (attempts attempts' : nat) (captured : bool) (s : State) :
  effects onclose s
  = [console_log "WebSocket disconnected";
     console_log "Will attempt to reconnect";
     setTimeout (reconnectDelay (connectionAttempts s))]
  /\ reconnectDelay attempts == backoff 2000 (3 # 2) 10 30000 attempts
  /\ ((attempts <= attempts')%nat ->
      reconnectDelay attempts <= reconnectDelay attempts')
  /\ reconnectDelay attempts <= 30000
  /\ connectionAttempts (exec (onopen captured) s) = 0%nat
  /\ In (setTimeout 2000) (effects onclose (exec (onopen captured) s)).
Proof.
  assert (Hopen : connectionAttempts (exec (onopen captured) s) = 0%nat).
  { change (onopen captured) with
      (effect (console_log "WebSocket connected successfully");;
       modify (setIsConnected true);; modify (setError None);;
       modify (set_connectionAttempts 0);; processNextFrame captured).
    rewrite !exec_bind, exec_processNextFrame. by destruct (sends captured _). }
  assert (Hclose : forall s0, effects onclose s0
    = [console_log "WebSocket disconnected";
       console_log "Will attempt to reconnect";
       setTimeout (reconnectDelay (connectionAttempts s0))]) by done.
  split; [apply Hclose|]. split; [|split; [|split; [|split]]].
  - unfold reconnectDelay, backoff. rewrite <- power_Qpower.
    apply Qmin_clamp.
  - apply reconnectDelay_mono.
  - unfold reconnectDelay. apply Q.le_min_r.
  - exact Hopen.
  - rewrite Hclose, Hopen. cbn. auto.
Qed.

End Backoff.

(** ** Response processing *)

Section ResponseProcessing.
Import JS ProcessResponse.
Context `{Runtime}.

Lemma num_leb_total (a b : number) :
  isNaN a = false -> isNaN b = false ->
  num_leb a b = false -> num_leb b a = true.
Proof.
  destruct a as [| |x|], b as [| |y|]; cbn; try done.
  intros _ _ Hxy. apply Qle_bool_iff.
  apply Qlt_le_weak, Qnot_le_lt. intros Hle.
  apply Qle_bool_iff in Hle. congruence.
Qed.

Lemma min_le_max (a b : number) :
  isNaN a = false -> isNaN b = false ->
  num_le (Math_min a b) (Math_max a b).
Proof.
  intros Ha Hb. unfold num_le, Math_min, Math_max.
  destruct (num_leb a b) eqn:E.
  - destruct a, b; done.
  - pose proof (num_leb_total a b Ha Hb E). destruct a, b; done.
Qed.

(** The callback on an array of six elements or more, step by step. *)
Lemma processEntry_array (trackId : string) (l : list JsValue) :
  6 <= length l ->
  processEntry (trackId, JArray l) =
  (parsedX1 ← ToNumber (element l 2);
   parsedY1 ← ToNumber (element l 3);
   parsedX2 ← ToNumber (element l 4);
   parsedY2 ← ToNumber (element l 5);
   if isNaN parsedX1 || isNaN parsedY1 || isNaN parsedX2 || isNaN parsedY2
   then Ok None
   else
     name' ← ToString (element l 0);
     confidence' ← ToNumber (element l 1);
     Ok (Some {| trackId := trackId; name := name';
                 confidence := confidence';
                 x1 := Math_min parsedX1 parsedX2;
                 y1 := Math_min parsedY1 parsedY2;
                 x2 := Math_max parsedX1 parsedX2;
                 y2 := Math_max parsedY1 parsedY2 |})).
Proof.
  intros Hlen. unfold processEntry.
  destruct (Nat.ltb_spec (length l) 6) as [Hlt|_]; [lia|done].
Qed.

Lemma processEntry_normalized (entry : string * JsValue)
    (p : ProcessedPrediction) :
  processEntry entry = Ok (Some p) -> normalized p /\ trackId p = entry.1.
Proof.
  destruct entry as [tid v]. unfold processEntry.
  destruct v as [| | | | |l|]; try discriminate.
  destruct (length l <? 6)%nat; [discriminate|].
  destruct (ToNumber (element l 2)) as [a|]; [|discriminate].
  destruct (ToNumber (element l 3)) as [b|]; [|discriminate].
  destruct (ToNumber (element l 4)) as [c|]; [|discriminate].
  destruct (ToNumber (element l 5)) as [d|]; [|discriminate].
  cbn. destruct (isNaN a) eqn:Ha; [discriminate|].
  destruct (isNaN b) eqn:Hb; [discriminate|].
  destruct (isNaN c) eqn:Hc; [discriminate|].
  destruct (isNaN d) eqn:Hd; [discriminate|].
  cbn. destruct (ToString (element l 0)) as [n|]; [|discriminate].
  destruct (ToNumber (element l 1)) as [k|]; [|discriminate].
  cbn. intros [= <-]. cbn. split; [|done].
  split; by apply min_le_max.
Qed.

Lemma forEach_Forall (P : ProcessedPrediction -> Prop)
    (entries : list (string * JsValue))
    (acc result : list ProcessedPrediction) :
  (forall entry p, processEntry entry = Ok (Some p) -> P p) ->
  Forall P acc ->
  forEach entries acc = Ok result ->
  Forall P result.
Proof.
  intros HP. revert acc. induction entries as [|e entries IH]; intros acc Hacc.
  - cbn. by intros [= <-].
  - cbn [forEach]. destruct (processEntry e) as [[p|]|err] eqn:E; cbn.
    + apply IH. apply Forall_app. split; [done|]. repeat constructor. eauto.
    + by apply IH.
    + discriminate.
Qed.

(** The function always returns: the guard keeps [Object.entries] away
    from [null] and [undefined], and the [catch] absorbs the rest. *)
Lemma processWebSocketResponse_returns (response : JsValue) :
  exists result,
    processWebSocketResponse response = Ok result
    /\ Forall normalized result.
Proof.
  unfold processWebSocketResponse.
  destruct (truthy response) eqn:Hr; cbn; [|by exists []].
  destruct (getProp response "predictions") as [predictions|err] eqn:Hp.
  2: { by destruct response. }
  cbn. destruct (truthy predictions) eqn:Ht; cbn; [|by exists []].
  destruct (Object_entries predictions) as [entries|err] eqn:He; cbn;
    [|by exists []].
  destruct (forEach entries []) as [result|err] eqn:Hf; [|by exists []].
  exists result. split; [done|].
  eapply forEach_Forall; [|constructor|exact Hf].
  intros entry p Hp'. by apply processEntry_normalized in Hp' as [? _].
Qed.

Lemma forEach_collects (entries : list (string * JsValue))
    (records : list (option ProcessedPrediction))
    (acc : list ProcessedPrediction) :
  Forall2 (fun entry r => processEntry entry = Ok r) entries records ->
  forEach entries acc = Ok (acc ++ omap id records).
Proof.
  intros Hall. revert acc.
  induction Hall as [|e r entries records He _ IH]; intros acc.
  - cbn. by rewrite app_nil_r.
  - cbn [forEach]. rewrite He. cbn. rewrite IH.
    destruct r as [p|]; cbn; [|done]. by rewrite <- app_assoc.
Qed.

Lemma forEach_throws (entries : list (string * JsValue))
    (entry : string * JsValue) (err : string)
    (acc : list ProcessedPrediction) :
  In entry entries -> processEntry entry = Throw err ->
  exists err', forEach entries acc = Throw err'.
Proof.
  intros Hin Hthrow. revert acc.
  induction entries as [|e entries IH]; intros acc; [done|].
  cbn [forEach]. destruct Hin as [->|Hin].
  - rewrite Hthrow. by exists err.
  - destruct (processEntry e) as [r|err0]; cbn; [by apply IH|by exists err0].
Qed.


Lemma processWebSocketResponse_withPredictions
    (entries : list (string * JsValue)) :
  processWebSocketResponse (withPredictions entries) =
  match forEach entries [] with
  | Ok result => Ok result
  | Throw _ => Ok []
  end.
Proof. done. Qed.

Lemma swapped_min_max (a b : number) :
  isNaN a = false -> isNaN b = false ->
  swappedAsNeeded a b (Math_min a b) (Math_max a b).
Proof.
  intros Ha Hb. unfold swappedAsNeeded, num_le, Math_min, Math_max.
  destruct (num_leb a b) eqn:E.
  - left. by destruct a, b.
  - right. pose proof (num_leb_total a b Ha Hb E).
    split; [congruence|]. by destruct a, b.
Qed.

Lemma processEntry_box (entry : string * JsValue) (p : ProcessedPrediction) :
  processEntry entry = Ok (Some p) ->
  exists l, entry = (trackId p, JArray l) /\ boxOf l p.
Proof.
  destruct entry as [tid v]. unfold processEntry, boxOf.
  destruct v as [| | | | |l|]; try discriminate.
  destruct (length l <? 6)%nat; [discriminate|].
  destruct (ToNumber (element l 2)) as [a|] eqn:Ea; [|discriminate].
  destruct (ToNumber (element l 3)) as [b|] eqn:Eb; [|discriminate].
  destruct (ToNumber (element l 4)) as [c|] eqn:Ec; [|discriminate].
  destruct (ToNumber (element l 5)) as [d|] eqn:Ed; [|discriminate].
  cbn. destruct (isNaN a) eqn:Ha; [discriminate|].
  destruct (isNaN b) eqn:Hb; [discriminate|].
  destruct (isNaN c) eqn:Hc; [discriminate|].
  destruct (isNaN d) eqn:Hd; [discriminate|].
  cbn. destruct (ToString (element l 0)) as [n|]; [|discriminate].
  destruct (ToNumber (element l 1)) as [k|]; [|discriminate].
  cbn. intros [= <-]. cbn. exists l. split; [done|].
  exists a, b, c, d. do 4 (split; [done|]).
  split; by apply swapped_min_max.
Qed.

Lemma forEach_boxes (entries : list (string * JsValue))
    (acc result : list ProcessedPrediction) :
  forEach entries acc = Ok result ->
  exists pushed,
    result = acc ++ pushed
    /\ Forall (fun p => exists l, (trackId p, JArray l) ∈ entries
                                  /\ boxOf l p) pushed.
Proof.
  revert acc. induction entries as [|e entries IH]; intros acc.
  { cbn. intros [= <-]. exists []. by rewrite app_nil_r. }
  cbn [forEach]. destruct (processEntry e) as [[p|]|err] eqn:E; cbn;
    [| |discriminate]; intros Hrest;
    destruct (IH _ Hrest) as (pushed & -> & Hall).
  - destruct (processEntry_box e p E) as (l & -> & Hbox).
    exists (p :: pushed). rewrite <- app_assoc. split; [done|].
    constructor.
    + exists l. split; [by left|done].
    + eapply Forall_impl; [exact Hall|].
      intros q (l' & Hin & Hbox'). exists l'. split; [by right|done].
  - exists pushed. split; [done|].
    eapply Forall_impl; [exact Hall|].
    intros q (l' & Hin & Hbox'). exists l'. split; [by right|done].
Qed.

(** C5. Every record returned by [processWebSocketResponse] has
    x1 <= x2 and y1 <= y2, and its box is the box of its entry with the
    coordinates swapped as needed: the record carries the key of an entry
    of [predictions] whose value is an array, x1 and x2 are [Number] of
    elements 2 and 4 of that array, as they are when the first is not the
    larger and swapped otherwise, and y1 and y2 are [Number] of elements 3
    and 5 likewise, each axis on its own.  For {"predictions": {"7":
    ["Alice", 0.92, 50, 80, 10, 200]}} the result is the single record
    with trackId "7", x1 = 10, y1 = 80, x2 = 50, y2 = 200; with the y
    coordinates out of order instead, these are the ones swapped. *)
Theorem boxes_are_normalized (response : JsValue) :
  (exists result,
     processWebSocketResponse response = Ok result
     /\ Forall normalized result
     /\ Forall (fun p => exists l, (trackId p, JArray l) ∈ entriesOf response
                                   /\ boxOf l p) result)
  /\ processWebSocketResponse (withPredictions [("7", alice)])
     = Ok [{| trackId := "7"; name := "Alice"; confidence := Fin (92 # 100);
              x1 := Fin 10; y1 := Fin 80; x2 := Fin 50; y2 := Fin 200 |}]
  /\ processWebSocketResponse (withPredictions [("3", bob)])
     = Ok [{| trackId := "3"; name := "Bob"; confidence := Fin (1 # 2);
              x1 := Fin 10; y1 := Fin 80; x2 := Fin 50; y2 := Fin 200 |}].
Proof.
  split; [|split; reflexivity].
  destruct (processWebSocketResponse_returns response)
    as (result & Hresult & Hnorm).
  exists result. split; [done|]. split; [done|].
  revert Hresult. unfold processWebSocketResponse, entriesOf.
  destruct (truthy response) eqn:Hr; cbn; [|by intros [= <-]].
  destruct (getProp response "predictions") as [predictions|err] eqn:Hp.
  2: { by destruct response. }
  cbn. destruct (truthy predictions) eqn:Ht; cbn; [|by intros [= <-]].
  destruct (Object_entries predictions) as [entries|err] eqn:He; cbn;
    [|by intros [= <-]].
  destruct (forEach entries []) as [result'|err] eqn:Hf; [|by intros [= <-]].
  intros [= <-].
  by destruct (forEach_boxes _ _ _ Hf) as (pushed & -> & Hall).
Qed.


(** C9, as stated, fails.  The entries below are arrays of six elements
    whose four coordinates are numbers.  The confidence of the first and
    the name of the second is an object with a [toString] property of its
    own: coercing it throws, the [catch] returns the empty array, and no
    record is produced, not even for the valid entry before them. *)
Lemma throwing_coercion_discards_batch :
  let shadowed := JObject [("toString", JNumber (Fin 0))] in
  let coordinates :=
    [JNumber (Fin 1); JNumber (Fin 2); JNumber (Fin 3); JNumber (Fin 4)] in
  @processWebSocketResponse exampleRuntime
    (withPredictions [("1", JArray (JString "Bob" :: shadowed :: coordinates))])
  = Ok []
  /\ @processWebSocketResponse exampleRuntime
       (withPredictions [("7", alice);
                         ("2", JArray (shadowed :: JNumber (Fin 1)
                                       :: coordinates))])
     = Ok []
  /\ Forall (fun v => exists n, @ToNumber exampleRuntime v = Ok n
                               /\ isNaN n = false) coordinates.
Proof.
  cbn zeta. split; [reflexivity|]. split; [reflexivity|].
  repeat constructor; eexists; split; reflexivity.
Qed.

(** C9, amended.  Only the four coordinates are validated.  An array of
    six elements or more whose coordinates coerce to numbers other than
    NaN yields a record whenever the coercions of its name and confidence
    return: the confidence is whatever [Number] gives (NaN included) and
    the name is whatever [String] gives.  An entry is skipped exactly when
    it is not an array, is shorter than six, or has a coordinate that
    coerces to NaN.  When a coercion throws instead, the [catch] discards
    the whole payload. *)
Theorem only_coordinates_are_validated
    (trackId : string) (prediction : JsValue) (l : list JsValue)
    (a b c d k : number) (n err : string)
    (entry : string * JsValue) (entries : list (string * JsValue)) :
  (6 <= length l ->
   ToNumber (element l 2) = Ok a -> ToNumber (element l 3) = Ok b ->
   ToNumber (element l 4) = Ok c -> ToNumber (element l 5) = Ok d ->
   isNaN a || isNaN b || isNaN c || isNaN d = false ->
   ToString (element l 0) = Ok n -> ToNumber (element l 1) = Ok k ->
   processEntry (trackId, JArray l)
   = Ok (Some {| trackId := trackId; name := n; confidence := k;
                 x1 := Math_min a c; y1 := Math_min b d;
                 x2 := Math_max a c; y2 := Math_max b d |}))
  /\ (processEntry (trackId, prediction) = Ok None <->
      isArray prediction = false
      \/ exists l', prediction = JArray l'
          /\ (length l' < 6
              \/ exists a' b' c' d',
                   ToNumber (element l' 2) = Ok a'
                   /\ ToNumber (element l' 3) = Ok b'
                   /\ ToNumber (element l' 4) = Ok c'
                   /\ ToNumber (element l' 5) = Ok d'
                   /\ isNaN a' || isNaN b' || isNaN c' || isNaN d' = true))
  /\ (In entry entries -> processEntry entry = Throw err ->
      processWebSocketResponse (withPredictions entries) = Ok []).
Proof.
  split; [|split].
  - intros Hlen Ha Hb Hc Hd Hnan Hn Hk.
    rewrite processEntry_array by done.
    rewrite Ha, Hb, Hc, Hd. cbn. rewrite Hnan. cbn. by rewrite Hn, Hk.
  - split.
    + destruct prediction as [| | | | |l'|]; try (intros _; by left).
      intros Hnone. right. exists l'. split; [done|].
      destruct (Nat.ltb_spec (length l') 6) as [Hlt|Hge]; [by left|right].
      rewrite processEntry_array in Hnone by done.
      destruct (ToNumber (element l' 2)) as [a'|]; [|discriminate].
      destruct (ToNumber (element l' 3)) as [b'|]; [|discriminate].
      destruct (ToNumber (element l' 4)) as [c'|]; [|discriminate].
      destruct (ToNumber (element l' 5)) as [d'|]; [|discriminate].
      exists a', b', c', d'. repeat (split; [done|]). cbn in Hnone.
      destruct (isNaN a' || isNaN b' || isNaN c' || isNaN d'); [done|].
      destruct (ToString (element l' 0)); [|discriminate].
      destruct (ToNumber (element l' 1)); discriminate.
    + intros [Hna|(l' & -> & [Hshort|Hcoords])];
        [| |destruct Hcoords as (a' & b' & c' & d' & Ha & Hb & Hc & Hd & Hnan)].
      * by destruct prediction.
      * unfold processEntry.
        destruct (Nat.ltb_spec (length l') 6) as [_|Hge]; [done|lia].
      * unfold processEntry. destruct (length l' <? 6)%nat; [done|].
        rewrite Ha, Hb, Hc, Hd. cbn. by rewrite Hnan.
  - intros Hin Hthrow. rewrite processWebSocketResponse_withPredictions.
    by destruct (forEach_throws entries entry err [] Hin Hthrow) as [err' ->].
Qed.

End ResponseProcessing.

(** ** Overlay geometry *)

Section Overlay.
Import JS ProcessResponse CanvasOverlay.
Context `{Runtime}.

Lemma num_le_not_NaN (a b : number) :
  num_le a b -> isNaN a = false /\ isNaN b = false.
Proof. unfold num_le. by destruct a, b. Qed.

Lemma scaled_not_NaN (v : number) (scale : Q) :
  isNaN v = false -> (0 < scale)%Q -> isNaN (num_mul v (Fin scale)) = false.
Proof.
  intros Hv Hpos. apply Qgt_alt in Hpos.
  destruct v; cbn; try done; unfold Qsign; by rewrite Hpos.
Qed.

(** Clamping a number that is not NaN into [0, size] gives a finite
    value in that range. *)
Lemma clamp_within (size : N) (v : number) :
  isNaN v = false ->
  exists q, Math_max (Fin 0) (Math_min (num_of_N size) v) = Fin q
            /\ (0 <= q)%Q /\ (q <= inject_Z (Z.of_N size))%Q.
Proof.
  intros Hv. unfold num_of_N, num_of_Z.
  assert (Hsize : (0 <= inject_Z (Z.of_N size))%Q).
  { change 0%Q with (inject_Z 0). rewrite <- Zle_Qle. lia. }
  assert (Hsize' : Qle_bool 0 (inject_Z (Z.of_N size)) = true)
    by (by apply Qle_bool_iff).
  destruct v as [| |q|]; try done; cbn.
  - exists 0%Q. repeat split; [apply Qle_refl|done].
  - destruct (Qle_bool (inject_Z (Z.of_N size)) q) eqn:E1; cbn.
    + rewrite Hsize'. eexists. repeat split; [done|apply Qle_refl].
    + assert (Hq : (q <= inject_Z (Z.of_N size))%Q).
      { apply Qlt_le_weak, Qnot_le_lt. intros Hle.
        apply Qle_bool_iff in Hle. congruence. }
      destruct (Qle_bool 0 q) eqn:E2.
      * exists q. repeat split; [by apply Qle_bool_iff|done].
      * exists 0%Q. repeat split; [apply Qle_refl|done].
  - rewrite Hsize'. eexists. repeat split; [done|apply Qle_refl].
Qed.

Lemma floor_le_max (d : number) :
  isNaN d = false -> num_le (Fin 5) (Math_max (Fin 5) d).
Proof.
  intros Hd. unfold num_le, Math_max.
  destruct d as [| |q|]; try done; cbn.
  destruct (Qle_bool 5 q) eqn:E; cbn; [done|]. by apply Qle_bool_iff.
Qed.

Lemma within_Fin (size : N) (q : Q) :
  (0 <= q)%Q -> (q <= inject_Z (Z.of_N size))%Q ->
  within (Fin 0) (num_of_N size) (Fin q).
Proof. intros H0 H1. split; by apply Qle_bool_iff. Qed.

(** C8. Every box stroked by the draw effect belongs to a prediction:
    its four coordinates are the prediction's multiplied by the scale
    factor of their axis and then clamped into [0, canvas width] or
    [0, canvas height], and its width and height are at least 5.  With
    a 1280x720 video displayed at 640x360, the box (100, 100, 200, 200)
    scales to (50, 50, 100, 100). *)
Theorem overlay_box_geometry
    (response : JsValue) (predictions : list ProcessedPrediction)
    (canvas : Canvas.t) (videoRect : DOMRect) (scaleFactor : ScaleFactor.t)
    (videoWidth videoHeight : Z) (x y w h : number) :
  (processWebSocketResponse response = Ok predictions ->
   In (strokeRect x y w h)
      (draw (Some canvas) (Some videoRect) predictions scaleFactor) ->
   exists pred,
     In pred predictions
     /\ let width := num_of_N (Canvas.width canvas) in
        let height := num_of_N (Canvas.height canvas) in
        let sx := Fin (ScaleFactor.x scaleFactor) in
        let sy := Fin (ScaleFactor.y scaleFactor) in
        let bx1 := Math_max (Fin 0) (Math_min width (num_mul (x1 pred) sx)) in
        let by1 := Math_max (Fin 0) (Math_min height (num_mul (y1 pred) sy)) in
        let bx2 := Math_max (Fin 0) (Math_min width (num_mul (x2 pred) sx)) in
        let by2 := Math_max (Fin 0) (Math_min height (num_mul (y2 pred) sy)) in
        x = bx1 /\ y = by1
        /\ w = Math_max (Fin 5) (num_sub bx2 bx1)
        /\ h = Math_max (Fin 5) (num_sub by2 by1)
        /\ within (Fin 0) width bx1 /\ within (Fin 0) width bx2
        /\ within (Fin 0) height by1 /\ within (Fin 0) height by2
        /\ num_le (Fin 5) w /\ num_le (Fin 5) h)
  /\ ((0 < videoWidth)%Z -> (0 < videoHeight)%Z ->
      updateCanvasDimensions videoWidth videoHeight videoRect scaleFactor
      = {| ScaleFactor.x := (width videoRect / inject_Z videoWidth)%Q;
           ScaleFactor.y := (height videoRect / inject_Z videoHeight)%Q |})
  /\ (let scale :=
        updateCanvasDimensions 1280 720
          {| left := 0; top := 0; width := 640; height := 360 |}
          {| ScaleFactor.x := 1; ScaleFactor.y := 1 |} in
      let scaled :=
        scaledCoords scale
          {| trackId := "7"; name := "Alice"; confidence := Fin (92 # 100);
             x1 := Fin 100; y1 := Fin 100; x2 := Fin 200; y2 := Fin 200 |} in
      num_eq (cx1 scaled) (Fin 50) /\ num_eq (cy1 scaled) (Fin 50)
      /\ num_eq (cx2 scaled) (Fin 100) /\ num_eq (cy2 scaled) (Fin 100)).
Proof.
  split; [|split; [|cbn; repeat split]]; cycle 1.
  { intros Hw Hh. unfold updateCanvasDimensions.
    apply Z.ltb_lt in Hw, Hh. by rewrite Hw, Hh. }
  intros Hresp Hin.
  destruct (processWebSocketResponse_returns response) as (r & Hr & Hnorm).
  rewrite Hresp in Hr. injection Hr as <-.
  unfold draw in Hin. destruct Hin as [Hin|Hin]; [discriminate|].
  destruct (length predictions =? 0)%nat; [done|].
  destruct (_ || _); [done|].
  destruct (Qle_bool (ScaleFactor.x scaleFactor) 0) eqn:Hsx; [done|].
  destruct (Qle_bool (ScaleFactor.y scaleFactor) 0) eqn:Hsy; [done|].
  cbn [orb] in Hin. apply in_map_iff in Hin as (pred & Hbox & Hpred).
  exists pred. split; [done|]. cbn zeta.
  unfold drawBox, clampedCoords, scaledCoords in Hbox.
  cbn [cx1 cy1 cx2 cy2] in Hbox.
  match type of Hbox with
  | strokeRect ?a ?b ?c ?d = _ =>
      assert (x = a /\ y = b /\ w = c /\ h = d) as (-> & -> & -> & ->)
        by (repeat split; congruence)
  end.
  clear Hbox.
  assert (Hx : (0 < ScaleFactor.x scaleFactor)%Q).
  { apply Qnot_le_lt. intros Hle. apply Qle_bool_iff in Hle. congruence. }
  assert (Hy : (0 < ScaleFactor.y scaleFactor)%Q).
  { apply Qnot_le_lt. intros Hle. apply Qle_bool_iff in Hle. congruence. }
  destruct (proj1 (List.Forall_forall _ _) Hnorm pred Hpred) as [Hxs Hys].
  apply num_le_not_NaN in Hxs as [Hx1 Hx2].
  apply num_le_not_NaN in Hys as [Hy1 Hy2].
  destruct (clamp_within (Canvas.width canvas) _
              (scaled_not_NaN _ _ Hx1 Hx)) as (qx1 & -> & ? & ?).
  destruct (clamp_within (Canvas.width canvas) _
              (scaled_not_NaN _ _ Hx2 Hx)) as (qx2 & -> & ? & ?).
  destruct (clamp_within (Canvas.height canvas) _
              (scaled_not_NaN _ _ Hy1 Hy)) as (qy1 & -> & ? & ?).
  destruct (clamp_within (Canvas.height canvas) _
              (scaled_not_NaN _ _ Hy2 Hy)) as (qy2 & -> & ? & ?).
  repeat split; try done; try (by apply Qle_bool_iff); by apply floor_le_max.
Qed.

End Overlay.

(** ** The exit log *)

Section ExitLog.
Import JS App.
Context `{Runtime}.

Lemma insert_ascending (s : string) (a : list string) :
  ascending a -> ascending (insert s a).
Proof.
  unfold ascending. induction a as [|t a IH]; intros Ha; cbn.
  - repeat constructor.
  - destruct (String.leb s t) eqn:E.
    + constructor; [done|]. by constructor.
    + apply Sorted_inv in Ha as [Ha Hhd]. constructor; [by apply IH|].
      destruct a as [|u a]; cbn.
      * constructor. destruct (String.leb_total s t); congruence.
      * apply HdRel_inv in Hhd. destruct (String.leb s u); constructor;
          [destruct (String.leb_total s t); congruence|done].
Qed.

Lemma sorted_copy_ascending (a : list string) : ascending (sorted_copy a).
Proof.
  induction a as [|s a IH]; cbn; [constructor|]. by apply insert_ascending.
Qed.

Lemma insert_Permutation (s : string) (a : list string) :
  Permutation (s :: a) (insert s a).
Proof.
  induction a as [|t a IH]; cbn; [done|].
  destruct (String.leb s t); [done|].
  rewrite <- IH. apply perm_swap.
Qed.

Lemma sorted_copy_Permutation (a : list string) :
  Permutation a (sorted_copy a).
Proof.
  induction a as [|s a IH]; cbn; [done|].
  rewrite <- insert_Permutation. by constructor.
Qed.

Lemma sorted_copy_of_ascending (a : list string) :
  ascending a -> sorted_copy a = a.
Proof.
  unfold ascending. induction a as [|s a IH]; intros Ha; [done|].
  apply Sorted_inv in Ha as [Ha Hhd]. cbn. rewrite IH by done.
  destruct a as [|t a]; [done|]. apply HdRel_inv in Hhd. cbn. by rewrite Hhd.
Qed.

Lemma sorted_copy_idem (a : list string) :
  sorted_copy (sorted_copy a) = sorted_copy a.
Proof. apply sorted_copy_of_ascending, sorted_copy_ascending. Qed.

(** Sorting an array in place changes no array's sorted names. *)
Lemma sortedNames_sort (h : Store) (r r' : ref) :
  sortedNames (<[r := sortedNames h r]> h) r' = sortedNames h r'.
Proof.
  unfold sortedNames. destruct (decide (r = r')) as [<-|Hne].
  - destruct (h !! r) as [a|] eqn:E.
    + rewrite list_lookup_insert_eq by (by eapply lookup_lt_Some).
      cbn. apply sorted_copy_idem.
    + rewrite list_insert_ge by (by apply lookup_ge_None). by rewrite E.
  - by rewrite list_lookup_insert_ne.
Qed.

Lemma read_sort (h : Store) (r : ref) :
  default [] (<[r := sortedNames h r]> h !! r) = sortedNames h r.
Proof.
  unfold sortedNames. destruct (h !! r) as [a|] eqn:E.
  - by rewrite list_lookup_insert_eq by (by eapply lookup_lt_Some).
  - rewrite list_insert_ge by (by apply lookup_ge_None). by rewrite E.
Qed.

Lemma entryId_spec (entry : ExitLogEntry) (h : Store) :
  entryId entry h
  = (keyOf h entry, <[names entry := sortedNames h (names entry)]> h).
Proof.
  unfold entryId, keyOf, sort, join, read, mbind, St_bind, mret, St_ret.
  cbn. fold (sortedNames h (names entry)). by rewrite read_sort.
Qed.

Lemma keyOf_ext (h h' : Store) (entry : ExitLogEntry) :
  sortedNames h' (names entry) = sortedNames h (names entry) ->
  keyOf h' entry = keyOf h entry.
Proof. unfold keyOf. by intros ->. Qed.

Lemma entryIds_spec (prevLog : list ExitLogEntry) (h : Store) :
  exists h',
    entryIds prevLog h = (map (keyOf h) prevLog, h')
    /\ length h' = length h
    /\ (forall r, sortedNames h' r = sortedNames h r)
    /\ (forall r a, h !! r = Some a -> exists a',
          h' !! r = Some a' /\ Permutation a a').
Proof.
  revert h. induction prevLog as [|entry prevLog IH]; intros h.
  - exists h. cbn. repeat split; eauto.
  - cbn [entryIds]. unfold mbind, St_bind. rewrite entryId_spec.
    destruct (IH (<[names entry := sortedNames h (names entry)]> h))
      as (h' & -> & Hlen & Hsorted & Hperm).
    exists h'. cbn. split; [|split; [|split]].
    + f_equal. f_equal. apply map_ext. intros e. apply keyOf_ext.
      apply sortedNames_sort.
    + by rewrite Hlen, length_insert.
    + intros r. rewrite Hsorted. apply sortedNames_sort.
    + intros r a Hr. destruct (decide (names entry = r)) as [<-|Hne].
      * destruct (Hperm (names entry) (sortedNames h (names entry)))
          as (a' & Ha' & Hp).
        { apply list_lookup_insert_eq. by eapply lookup_lt_Some. }
        exists a'. split; [done|]. rewrite <- Hp. unfold sortedNames.
        rewrite Hr. apply sorted_copy_Permutation.
      * apply Hperm. by rewrite list_lookup_insert_ne.
Qed.

Lemma addPushedExit_spec (exit_ids : ref) (now : number)
    (timestamp : string) (prevLog : list ExitLogEntry) (h : Store) :
  let newExitEntry :=
    {| names := exit_ids; timestamp := timestamp; sortTime := now |} in
  exists h',
    addPushedExit exit_ids now timestamp prevLog h
    = (if bool_decide (keyOf h newExitEntry ∈ map (keyOf h) prevLog)
       then prevLog else take 20 (newExitEntry :: prevLog), h')
    /\ (forall r, sortedNames h' r = sortedNames h r)
    /\ (forall a, h !! exit_ids = Some a -> exists a',
          h' !! exit_ids = Some a' /\ ascending a' /\ Permutation a a').
Proof.
  intros newExitEntry. unfold addPushedExit, mbind, St_bind.
  destruct (entryIds_spec prevLog h) as (h1 & -> & Hlen & Hsorted & Hperm).
  unfold sort, join, read, mbind, St_bind, mret, St_ret. cbn.
  fold (sortedNames h1 exit_ids). rewrite read_sort.
  exists (<[exit_ids := sortedNames h1 exit_ids]> h1).
  split; [|split].
  - unfold keyOf at 3. cbn. rewrite Hsorted.
    rewrite (bool_decide_ext _ _ (elem_of_list_to_set _ _)).
    by destruct (bool_decide _).
  - intros r. rewrite sortedNames_sort. apply Hsorted.
  - intros a Ha. destruct (Hperm _ _ Ha) as (a1 & Ha1 & Hp).
    exists (sortedNames h1 exit_ids). split; [|split].
    + apply list_lookup_insert_eq. by eapply lookup_lt_Some.
    + apply sorted_copy_ascending.
    + rewrite Hp. unfold sortedNames. rewrite Ha1.
      apply sorted_copy_Permutation.
Qed.

Section Fetch.
Variable getTime : string -> number.
Variable toLocaleTimeString : string -> string.

Lemma keyOf_fetched (h : Store) (existing : gset string)
    (exits : list (string * string)) (entry : ExitLogEntry) :
  fetched getTime h existing exits entry ->
  exists exit, exit ∈ exits /\ keyOf h entry = exitId getTime exit
               /\ exitId getTime exit ∉ existing.
Proof.
  intros (exit & Hin & Hnames & Htime & Hnew). exists exit.
  split; [done|]. split; [|done].
  unfold keyOf, exitId, sortedNames. by rewrite Hnames, Htime.
Qed.

Lemma addFetched_spec (exits : list (string * string))
    (existing : gset string) (newEntries : list ExitLogEntry) (h : Store) :
  exists added ext,
    addFetched getTime toLocaleTimeString exits existing newEntries h
    = (newEntries ++ added, h ++ ext)
    /\ Forall (fetched getTime (h ++ ext) existing exits) added
    /\ NoDup (map (keyOf (h ++ ext)) added)
    /\ (forall exit, exit ∈ exits ->
          exitId getTime exit ∈ existing
          \/ exitId getTime exit ∈ map (keyOf (h ++ ext)) added)
    /\ map (keyOf (h ++ ext)) added
       = firstNew (map (exitId getTime) exits) existing
    /\ map timestamp added
       `sublist_of` map (fun exit => toLocaleTimeString exit.2) exits.
Proof.
  revert existing newEntries h.
  induction exits as [|[name ts] exits IH]; intros existing newEntries h.
  - exists [], []. cbn. rewrite !app_nil_r.
    split; [done|]. split; [constructor|]. split; [constructor|].
    split; [|done].
    intros e Hin. by apply elem_of_nil in Hin.
  - cbn [addFetched].
    unfold alloc, sort, join, read, mbind, St_bind, mret, St_ret.
    cbn. rewrite lookup_app_r by done. rewrite Nat.sub_diag. cbn.
    rewrite list_insert_id
      by (rewrite lookup_app_r by done; by rewrite Nat.sub_diag).
    rewrite lookup_app_r by done. rewrite Nat.sub_diag. cbn.
    change (name +:+ "-" +:+ NumberToString (getTime ts))
      with (exitId getTime (name, ts)).
    destruct (bool_decide (exitId getTime (name, ts) ∈ existing)) eqn:Hdup.
    + apply bool_decide_eq_true in Hdup.
      destruct (IH existing newEntries (h ++ [[name]]))
        as (added & ext & -> & Hfetched & Hnodup & Hcover & Hkeys & Hts).
      exists added, ([name] :: ext). rewrite <- !app_assoc in *. cbn in *.
      split; [done|]. split; [|split; [done|split; [|split]]].
      * eapply Forall_impl; [exact Hfetched|].
        intros n (exit & Hin & ?). exists exit. split; [|done]. by right.
      * intros exit Hin. apply elem_of_cons in Hin as [->|Hin]; auto.
      * done.
      * by apply sublist_cons.
    + apply bool_decide_eq_false in Hdup.
      rewrite length_app. cbn [length].
      set (entry := {| names := length h + 1;
                       timestamp := toLocaleTimeString ts;
                       sortTime := getTime ts |}).
      destruct (IH ({[exitId getTime (name, ts)]} ∪ existing)
                  (newEntries ++ [entry]) ((h ++ [[name]]) ++ [[name]]))
        as (added & ext & -> & Hfetched & Hnodup & Hcover & Hkeys & Hts).
      exists (entry :: added), ([name] :: [name] :: ext).
      rewrite <- !app_assoc in *. cbn in *.
      assert (Hentry : fetched getTime (h ++ [name] :: [name] :: ext) existing
                         ((name, ts) :: exits) entry).
      { exists (name, ts). split; [by left|]. split; [|done]. cbn.
        rewrite lookup_app_r by lia.
        by replace (length h + 1 - length h) with 1 by lia. }
      assert (Hadded : Forall (fetched getTime (h ++ [name] :: [name] :: ext)
                                 existing ((name, ts) :: exits)) added).
      { eapply Forall_impl; [exact Hfetched|].
        intros n (e & Hin & Hn & Ht & Hnew). exists e.
        split; [by right|]. split; [done|]. split; [done|].
        intros Hold. apply Hnew. by apply elem_of_union_r. }
      assert (Hkey0 : keyOf (h ++ [name] :: [name] :: ext) entry
                      = exitId getTime (name, ts)).
      { unfold keyOf, sortedNames, exitId. cbn [names sortTime entry fst snd].
        rewrite lookup_app_r by lia.
        by replace (length h + 1 - length h) with 1 by lia. }
      split; [done|]. split; [by constructor|].
      split; [|split; [|split]].
      * constructor; [|done]. intros Hk.
        apply list_elem_of_fmap in Hk as (n & Hkey & Hn).
        rewrite Forall_forall in Hfetched.
        destruct (keyOf_fetched _ _ _ _ (Hfetched n Hn))
          as (e & _ & Hkey' & Hnew).
        apply Hnew. rewrite <- Hkey', <- Hkey, Hkey0.
        apply elem_of_union_l. by apply elem_of_singleton.
      * intros e Hin. apply elem_of_cons in Hin as [->|Hin].
        -- right. cbn [map]. rewrite Hkey0. by left.
        -- destruct (Hcover e Hin) as [Hold|Hnew]; [|by right; right].
           apply elem_of_union in Hold as [Hold|Hold]; [|by left].
           apply elem_of_singleton in Hold. right.
           cbn [map]. rewrite Hold, Hkey0. by left.
      * cbn [map]. by rewrite Hkey0, Hkeys.
      * cbn [map]. by apply sublist_skip.
Qed.

Lemma sortedNames_app (h ext : Store) (r : ref) :
  r < length h -> sortedNames (h ++ ext) r = sortedNames h r.
Proof. intros Hr. unfold sortedNames. by rewrite lookup_app_l. Qed.

(** C7, as stated, fails: the cut is by position in the list, and a
    pull puts what it fetched in front, in the order of the answer.  When
    the server lists 50 exits from the earliest to the latest, an entry
    pushed later than all of them is evicted and the 50 earlier ones are
    kept; and of 51 such exits fetched into an empty log it is the latest
    that is evicted and the earliest that is kept. *)
Lemma pull_evicts_latest_entries :
  let getTime := @StringToNumber exampleRuntime in
  let times (log : list ExitLogEntry) := map sortTime log in
  let earlier n := map (fun i => Fin (inject_Z (Z.of_nat (1000 + i))))
                     (seq 0 n) in
  times (@fetchAllExits exampleRuntime getTime id (answer 1000 50)
           [latest] [["Alice"]]).1
  = earlier 50
  /\ times (@fetchAllExits exampleRuntime getTime id (answer 1000 51)
              [] []).1
     = earlier 50
  /\ times (@fetchAllExits exampleRuntime getTime id (answer 1000 49)
              [latest] [["Alice"]]).1
     = earlier 49 ++ [Fin 2000].
Proof. cbn zeta. repeat split; vm_compute; reflexivity. Qed.

(** C7, amended.  An entry is identified by its sorted names joined by
    commas, a dash and its sort time.  In the push path an entry whose
    sorted names and sort time equal those of a retained entry is
    discarded; an entry whose identifier no retained entry has goes in
    front and the log is cut to its first 20 entries.  In the pull path
    the fetched pairs are added in front, in the order of the answer,
    each at most once and none that a retained entry already matches
    (same sorted names, same sort time), and the log is cut to its first
    50 entries.  The cut is by position: the entries at the end of the
    list go.  In a log that is in descending order of sort time, pushed
    to by a clock that has not gone back, these are the entries with the
    smallest sort times. *)
Theorem exit_log_dedup_and_cap
    (exit_ids : ref) (now : number) (timestamp : string)
    (duplicate : ExitLogEntry) (exits : list (string * string))
    (prevLog : list ExitLogEntry) (h : Store) :
  Forall (fun entry => names entry < length h) prevLog ->
  (let newExitEntry :=
     {| names := exit_ids; timestamp := timestamp; sortTime := now |} in
   let log := (addPushedExit exit_ids now timestamp prevLog h).1 in
   (duplicate ∈ prevLog ->
    sortedNames h (names duplicate) = sortedNames h exit_ids ->
    sortTime duplicate = now ->
    log = prevLog)
   /\ (keyOf h newExitEntry ∈ map (keyOf h) prevLog -> log = prevLog)
   /\ (keyOf h newExitEntry ∉ map (keyOf h) prevLog ->
       log = newExitEntry :: take 19 prevLog
       /\ length log = Nat.min 20 (S (length prevLog))
       /\ (descending prevLog ->
           Forall (fun entry => num_le (sortTime entry) now) prevLog ->
           descending log
           /\ forall kept gone,
                kept ∈ log -> gone ∈ drop 19 prevLog ->
                num_le (sortTime gone) (sortTime kept))))
  /\ exists newEntries h',
      let existing : gset string := list_to_set (map (keyOf h) prevLog) in
      fetchAllExits getTime toLocaleTimeString exits prevLog h
      = (take 50 newEntries ++ take (50 - length newEntries) prevLog, h')
      /\ map (keyOf h') newEntries
         = firstNew (map (exitId getTime) exits) existing
      /\ Forall (fetched getTime h' existing exits) newEntries
      /\ (forall i j a b,
            newEntries !! i = Some a ->
            (newEntries ++ prevLog) !! j = Some b ->
            i <> j ->
            sortedNames h' (names a) = sortedNames h' (names b) ->
            sortTime a = sortTime b ->
            False)
      /\ (forall exit, exit ∈ exits ->
            exists entry, entry ∈ newEntries ++ prevLog
                          /\ keyOf h' entry = exitId getTime exit).
Proof.
  intros Hwf. split.
  - cbn zeta.
    destruct (addPushedExit_spec exit_ids now timestamp prevLog h)
      as (h' & -> & _). cbn [fst]. split; [|split].
    + intros Hin Hnames Htime. rewrite bool_decide_eq_true_2; [done|].
      apply list_elem_of_fmap. exists duplicate. split; [|done].
      unfold keyOf. cbn. by rewrite Hnames, Htime.
    + intros Hin. by rewrite bool_decide_eq_true_2.
    + intros Hnew. rewrite bool_decide_eq_false_2 by done.
      cbn [take]. split; [done|]. split.
      { cbn [length]. rewrite length_take. lia. }
      intros Hsorted Hclock.
      rewrite <- (take_drop 19 prevLog) in Hsorted. split.
      * apply StronglySorted_cons. split.
        -- by apply Forall_take.
        -- by apply StronglySorted_app_1_l in Hsorted.
      * intros kept gone Hkept Hgone.
        apply elem_of_cons in Hkept as [->|Hkept].
        -- rewrite Forall_forall in Hclock. apply Hclock.
           by apply (subseteq_drop 19 prevLog).
        -- by apply (StronglySorted_app_1_elem_of _ _ _ _ _ Hsorted).
  - unfold fetchAllExits, mbind, St_bind, mret, St_ret.
    destruct (entryIds_spec prevLog h) as (h1 & -> & Hlen & Hsorted & _).
    destruct (addFetched_spec exits (list_to_set (map (keyOf h) prevLog)) [] h1)
      as (added & ext & -> & Hfetched & Hnodup & Hcover & Hkeys & _).
    cbn [app]. exists added, (h1 ++ ext). cbn zeta. rewrite take_app.
    assert (Hold : forall e, e ∈ prevLog ->
              keyOf (h1 ++ ext) e = keyOf h e).
    { intros e He. apply keyOf_ext. rewrite sortedNames_app; [apply Hsorted|].
      rewrite Hlen. rewrite Forall_forall in Hwf. by apply Hwf. }
    split; [done|]. split; [done|]. split; [done|]. split.
    + intros i j a b Ha Hb Hij Hnames Htime.
      assert (Hkey : keyOf (h1 ++ ext) a = keyOf (h1 ++ ext) b)
        by (unfold keyOf; by rewrite Hnames, Htime).
      rewrite Forall_forall in Hfetched.
      assert (Ha' : a ∈ added) by (by eapply list_elem_of_lookup_2).
      destruct (keyOf_fetched _ _ _ _ (Hfetched a Ha'))
        as (e & _ & Hkeya & Hnew).
      apply lookup_app_Some in Hb as [Hb|[Hlong Hb]].
      * apply Hij. eapply (NoDup_lookup _ i j); [exact Hnodup| |].
        -- by rewrite list_lookup_fmap, Ha.
        -- by rewrite list_lookup_fmap, Hb, Hkey.
      * apply Hnew. rewrite <- Hkeya, Hkey. apply elem_of_list_to_set.
        apply list_elem_of_fmap. exists b.
        assert (b ∈ prevLog) by (by eapply list_elem_of_lookup_2).
        split; [by apply Hold|done].
    + intros e He. destruct (Hcover e He) as [Hin|Hin].
      * apply elem_of_list_to_set, list_elem_of_fmap in Hin
          as (entry & Hk & Hentry).
        exists entry. split; [apply elem_of_app; by right|].
        by rewrite Hold.
      * apply list_elem_of_fmap in Hin as (entry & Hk & Hentry).
        exists entry. split; [apply elem_of_app; by left|done].
Qed.

End Fetch.

(** C10. An entry made from a pushed response with a non-empty
    [exit_ids] array refers to that very array, and once the updater has
    run the array holds the delivered names in ascending order: the
    [sort()] that builds the identifier works in place. *)
Theorem pushed_names_are_sorted
    (exit_ids : ref) (delivered : list string) (now : number)
    (timestamp : string) (prevLog : list ExitLogEntry) (h : Store) :
  h !! exit_ids = Some delivered -> delivered <> [] ->
  let newExitEntry :=
    {| names := exit_ids; timestamp := timestamp; sortTime := now |} in
  exists log h' stored,
    onLastResponse (Some exit_ids) now timestamp prevLog h = (log, h')
    /\ (log = prevLog \/ log = newExitEntry :: take 19 prevLog)
    /\ (keyOf h newExitEntry ∉ map (keyOf h) prevLog ->
        log = newExitEntry :: take 19 prevLog)
    /\ h' !! names newExitEntry = Some stored
    /\ ascending stored
    /\ Permutation delivered stored.
Proof.
  intros Hdelivered Hne newExitEntry.
  unfold onLastResponse, read, mbind, St_bind. rewrite Hdelivered. cbn.
  destruct delivered as [|s delivered]; [done|]. cbn.
  destruct (addPushedExit_spec exit_ids now timestamp prevLog h)
    as (h' & -> & _ & Hstored).
  destruct (Hstored _ Hdelivered) as (stored & Hs & Hasc & Hperm).
  eexists _, h', stored. split; [done|].
  fold newExitEntry. split; [|split; [|done]].
  - destruct (bool_decide _); auto.
  - intros Hfresh. by rewrite bool_decide_eq_false_2.
Qed.

End ExitLog.

(** ** The theorems at concrete inputs *)

Section Instances.
Import JS ProcessResponse CanvasOverlay Hook App.

(** Six frames pushed into a connected hook: the first is sent at once,
    the last five stay queued. *)
Lemma frameQueue_keeps_last_frames_witness :
  MAX_QUEUE_SIZE < length sixFrames
  /\ frameQueueRef (exec (queueFrames true sixFrames) connected)
     = [jpeg [Byte.x02]; jpeg [Byte.x03]; jpeg [Byte.x04];
        jpeg [Byte.x05]; jpeg [Byte.x06]].
Proof.
  assert (Hlong : MAX_QUEUE_SIZE < length sixFrames)
    by (unfold MAX_QUEUE_SIZE; cbn; lia).
  split; [exact Hlong|].
  destruct (frameQueue_keeps_last_frames true sixFrames connected [])
    as [Hburst _].
  destruct (Hburst Hlong) as (Hqueue & _).
  rewrite Hqueue. reflexivity.
Defined.

Example first_frame_is_sent :
  effects (queueFrame true (jpeg [Byte.x01])) connected
  = [console_log "Queueing frame"; console_log "Frame queued";
     console_log "Processing frame"; readAsArrayBuffer (jpeg [Byte.x01])].
Proof. reflexivity. Qed.

(** Three frames over a connection that stays up: one frame in flight
    at the end; and while a response is awaited, a further [queueFrame]
    only queues. *)
Lemma at_most_one_frame_in_flight_witness :
  let events :=
    [Connect false; ReadyStateChange OPEN; Open false;
     QueueFrame true (jpeg [Byte.x01]); QueueFrame true (jpeg [Byte.x02]);
     ReaderLoad (jpeg [Byte.x01]) false;
     Message false (Some noPredictions);
     QueueFrame true (jpeg [Byte.x03])] in
  let s := awaiting (jpeg [Byte.x01]) in
  let e := QueueFrame true (jpeg [Byte.x02]) in
  (orderly handle bearing events initial grounded = true
   /\ inFlight handle bearing (take 4 events) initial grounded
      = {| reading := 1; unanswered := 0 |}
   /\ inFlight handle bearing (take 6 events) initial grounded
      = {| reading := 0; unanswered := 1 |}
   /\ flights (inFlight handle bearing (take 6 events) initial grounded) <= 1
   /\ flights (inFlight handle bearing events initial grounded) <= 1)
  /\ processingRef s = true /\ settles e s = false
  /\ initiated (effects (handle e) s) = 0
  /\ processingRef (exec (handle e) s) = true.
Proof.
  cbn zeta.
  destruct (at_most_one_frame_in_flight
              [Connect false; ReadyStateChange OPEN; Open false;
               QueueFrame true (jpeg [Byte.x01]);
               QueueFrame true (jpeg [Byte.x02]);
               ReaderLoad (jpeg [Byte.x01]) false;
               Message false (Some noPredictions);
               QueueFrame true (jpeg [Byte.x03])]
              (QueueFrame true (jpeg [Byte.x02]))
              (awaiting (jpeg [Byte.x01])) true)
    as (Hrun & _ & Hflag & _).
  split.
  { split; [reflexivity|]. split; [reflexivity|]. split; [reflexivity|].
    split; [exact (Hrun eq_refl 6)|exact (Hrun eq_refl 8)]. }
  split; [reflexivity|]. split; [reflexivity|].
  exact (Hflag eq_refl eq_refl).
Defined.

Example two_sends_need_a_response :
  let events :=
    [Connect false; ReadyStateChange OPEN; Open false;
     QueueFrame true (jpeg [Byte.x01]); QueueFrame true (jpeg [Byte.x02]);
     ReaderLoad (jpeg [Byte.x01]) false;
     Message false (Some noPredictions);
     QueueFrame true (jpeg [Byte.x03])] in
  inFlight handle bearing events initial grounded
  = {| reading := 1; unanswered := 0 |}
  /\ frameQueueRef (exec (run events) initial) = [jpeg [Byte.x03]].
Proof. split; reflexivity. Qed.

(** After an undecodable message, the next [queueFrame] starts the
    send. *)
Lemma onmessage_decode_failure_witness :
  let s := awaiting (jpeg [Byte.x01]) in
  wsReady (wsRef s) = true
  /\ initiated (effects (queueFrame true (jpeg [Byte.x02]))
                  (exec (onmessage false None) s)) = 1.
Proof.
  cbn zeta. split; [reflexivity|].
  destruct (onmessage_decode_failure false noPredictions (jpeg [Byte.x02])
              (awaiting (jpeg [Byte.x01]))) as (_ & Hnext & _).
  exact (Hnext eq_refl).
Defined.

Lemma reconnect_delay_backoff_witness :
  (2 <= 5)%nat /\ (reconnectDelay 2 <= reconnectDelay 5)%Q.
Proof.
  assert (Hle : (2 <= 5)%nat) by lia.
  split; [exact Hle|].
  destruct (reconnect_delay_backoff 2 5 false connected)
    as (_ & _ & Hmono & _).
  exact (Hmono Hle).
Defined.

Example reconnectDelay_values :
  map (fun attempts => Qred (reconnectDelay attempts)) [0; 1; 2; 6; 7; 10; 25]
  = map Qred [2000; 3000; 4500; 22781.25; 30000; 30000; 30000]%Q.
Proof. reflexivity. Qed.


Example string_predictions_yield_nothing :
  @processWebSocketResponse exampleRuntime
    (JObject [("predictions", JString "oops")]) = Ok [].
Proof. reflexivity. Qed.

(** Name [null] and confidence [{}]: the record carries "null" and
    NaN. *)
Lemma only_coordinates_are_validated_witness :
  let l := [JNull; JObject []; JNumber (Fin 50); JNumber (Fin 80);
            JNumber (Fin 10); JNumber (Fin 200)] in
  6 <= length l
  /\ @processEntry exampleRuntime ("7", JArray l)
     = Ok (Some {| trackId := "7"; name := "null"; confidence := NaN;
                   x1 := Fin 10; y1 := Fin 80; x2 := Fin 50; y2 := Fin 200 |}).
Proof.
  cbn zeta.
  assert (Hlen : 6 <= length [JNull; JObject []; JNumber (Fin 50);
                              JNumber (Fin 80); JNumber (Fin 10);
                              JNumber (Fin 200)]) by (cbn; lia).
  split; [exact Hlen|].
  destruct (@only_coordinates_are_validated exampleRuntime "7" JNull
              [JNull; JObject []; JNumber (Fin 50); JNumber (Fin 80);
               JNumber (Fin 10); JNumber (Fin 200)]
              (Fin 50) (Fin 80) (Fin 10) (Fin 200) NaN "null" ""
              ("7", JNull) []) as (Hrecord & _).
  exact (Hrecord Hlen eq_refl eq_refl eq_refl eq_refl eq_refl eq_refl eq_refl).
Defined.

Example numeric_strings_are_coordinates :
  @processWebSocketResponse exampleRuntime
    (withPredictions
       [("9", JArray [JNumber (Fin 7); JString "12"; JString "30";
                      JNull; JBool true; JArray [JNumber (Fin 4)]])])
  = Ok [{| trackId := "9"; name := "7"; confidence := Fin 12;
           x1 := Fin 1; y1 := Fin 0; x2 := Fin 30; y2 := Fin 4 |}].
Proof. reflexivity. Qed.

(** The box of the Alice record on a 640x360 canvas at scale 1/2. *)
Lemma overlay_box_geometry_witness :
  @processWebSocketResponse exampleRuntime (withPredictions [("7", alice)])
  = Ok [aliceRecord]
  /\ exists x y w h,
       In (strokeRect x y w h)
          (draw (Some smallCanvas) (Some displayed) [aliceRecord] halfScale)
       /\ within (Fin 0) (Fin 640) x /\ within (Fin 0) (Fin 360) y
       /\ num_le (Fin 5) w /\ num_le (Fin 5) h.
Proof.
  assert (Hresp : @processWebSocketResponse exampleRuntime
                    (withPredictions [("7", alice)]) = Ok [aliceRecord])
    by reflexivity.
  split; [exact Hresp|].
  do 4 eexists.
  assert (Hin : In (drawBox smallCanvas halfScale aliceRecord)
                  (draw (Some smallCanvas) (Some displayed) [aliceRecord]
                     halfScale))
    by (right; left; reflexivity).
  split; [exact Hin|].
  destruct (proj1 (@overlay_box_geometry exampleRuntime
                     (withPredictions [("7", alice)]) [aliceRecord]
                     smallCanvas displayed halfScale 1280 720 _ _ _ _)
              Hresp Hin)
    as (pred & [<-|[]] & Hbox).
  cbn zeta in Hbox.
  destruct Hbox as (_ & _ & _ & _ & Hx & _ & Hy & _ & Hw & Hh).
  split; [exact Hx|]. split; [exact Hy|]. split; [exact Hw|exact Hh].
Defined.

Example degenerate_box_gets_the_floor :
  drawBox smallCanvas halfScale
    {| trackId := "1"; name := "Unknown"; confidence := Fin 0;
       x1 := Fin 2000; y1 := Fin 40; x2 := Fin 2000; y2 := Fin 40 |}
  = strokeRect (Fin 640) (Fin (40 * (1 # 2))) (Fin 5) (Fin 5).
Proof. reflexivity. Qed.

(** A push that repeats a retained entry is discarded.  A push into a
    full log of 20 entries goes in front, and the entry at the end,
    pushed first, is the one that leaves. *)
Lemma exit_log_dedup_and_cap_witness :
  let h := [["Alice"]; ["Bob"]] in
  let fresh := {| names := 1; timestamp := "12:00:21"; sortTime := Fin 21 |} in
  let log := (@addPushedExit exampleRuntime 1 (Fin 21) "12:00:21"
                (pushed 20) h).1 in
  (Forall (fun entry => names entry < length twoArrays) [retained]
   /\ (@addPushedExit exampleRuntime 1 noon "12:00:00" [retained] twoArrays).1
      = [retained])
  /\ Forall (fun entry => names entry < length h) (pushed 20)
  /\ (@keyOf exampleRuntime h fresh
      ∉ map (@keyOf exampleRuntime h) (pushed 20))
  /\ descending (pushed 20)
  /\ Forall (fun entry => num_le (sortTime entry) (Fin 21)) (pushed 20)
  /\ log = fresh :: take 19 (pushed 20)
  /\ length log = 20
  /\ map sortTime (drop 19 (pushed 20)) = [Fin 1]
  /\ descending log.
Proof.
  cbn zeta.
  assert (Hwf : Forall (fun entry => names entry < length twoArrays) [retained])
    by (repeat constructor).
  destruct (@exit_log_dedup_and_cap exampleRuntime (fun _ => noon) (fun t => t)
              1 noon "12:00:00" retained [] [retained] twoArrays Hwf)
    as [[Hdup _] _].
  cbn zeta in Hdup.
  split; [split; [exact Hwf|]|].
  { apply Hdup; [by left|reflexivity|reflexivity]. }
  assert (Hwf' : Forall (fun entry => names entry < length [["Alice"]; ["Bob"]])
                   (pushed 20)).
  { apply Forall_forall. intros e He.
    apply list_elem_of_fmap in He as (i & -> & _). cbn. lia. }
  assert (Hnew : @keyOf exampleRuntime [["Alice"]; ["Bob"]]
                   {| names := 1; timestamp := "12:00:21";
                      sortTime := Fin 21 |}
                 ∉ map (@keyOf exampleRuntime [["Alice"]; ["Bob"]])
                     (pushed 20)).
  { intros Hin. apply list_elem_of_fmap in Hin as (e & Hkey & He).
    apply list_elem_of_fmap in He as (i & -> & _).
    vm_compute in Hkey. discriminate Hkey. }
  assert (Hdesc : descending (pushed 20)).
  { unfold descending, pushed. cbn.
    repeat (apply StronglySorted_cons; split;
            [repeat constructor|]). constructor. }
  assert (Hclock : Forall (fun entry => num_le (sortTime entry) (Fin 21))
                     (pushed 20)) by (repeat constructor).
  destruct (@exit_log_dedup_and_cap exampleRuntime (fun _ => noon) (fun t => t)
              1 (Fin 21) "12:00:21" retained [] (pushed 20)
              [["Alice"]; ["Bob"]] Hwf')
    as [(_ & _ & Hfresh) _].
  cbn zeta in Hfresh. destruct (Hfresh Hnew) as (Hlog & Hlen & Horder).
  destruct (Horder Hdesc Hclock) as [Hdesc' _].
  split; [exact Hwf'|]. split; [exact Hnew|]. split; [exact Hdesc|].
  split; [exact Hclock|]. split; [exact Hlog|]. split; [exact Hlen|].
  split; [reflexivity|exact Hdesc'].
Defined.

Example fetched_pairs_are_added_once :
  (@fetchAllExits exampleRuntime (fun _ => noon) (fun t => t)
     [("Carol", "t"); ("Bob", "t"); ("Carol", "t")]
     [{| names := 0; timestamp := "t"; sortTime := noon |}] [["Bob"]]).1
  = [{| names := 2; timestamp := "t"; sortTime := noon |};
     {| names := 0; timestamp := "t"; sortTime := noon |}].
Proof. vm_compute. reflexivity. Qed.

(** Names delivered out of order end up sorted in the pushed array. *)
Lemma pushed_names_are_sorted_witness :
  let h := [["Carol"; "Alice"; "Bob"]] in
  h !! 0 = Some ["Carol"; "Alice"; "Bob"]
  /\ ["Carol"; "Alice"; "Bob"] <> []
  /\ exists log h' stored,
       @onLastResponse exampleRuntime (Some 0) noon "12:00:00" [] h = (log, h')
       /\ h' !! 0 = Some stored
       /\ ascending stored
       /\ Permutation ["Carol"; "Alice"; "Bob"] stored.
Proof.
  cbn zeta.
  assert (Hh : [["Carol"; "Alice"; "Bob"]] !! 0
               = Some ["Carol"; "Alice"; "Bob"])
    by reflexivity.
  assert (Hne : ["Carol"; "Alice"; "Bob"] <> []) by discriminate.
  split; [exact Hh|]. split; [exact Hne|].
  destruct (@pushed_names_are_sorted exampleRuntime 0 ["Carol"; "Alice"; "Bob"]
              noon "12:00:00" [] [["Carol"; "Alice"; "Bob"]] Hh Hne)
    as (log & h' & stored & Hrun & _ & _ & Hstored & Hasc & Hperm).
  exists log, h', stored. auto.
Defined.

Example pushed_array_after_update :
  @onLastResponse exampleRuntime (Some 0) noon "12:00:00" []
    [["Carol"; "Alice"; "Bob"]]
  = ([{| names := 0; timestamp := "12:00:00"; sortTime := noon |}],
     [["Alice"; "Bob"; "Carol"]]).
Proof. vm_compute. reflexivity. Qed.

End Instances.

(** * Further properties of the code *)

(** ** The hook: order of frames, the flag, the counters *)

Section HookRuns.
Import JS Hook.

Lemma reads_app (out1 out2 : list Effect) :
  reads (out1 ++ out2) = reads out1 ++ reads out2.
Proof. apply omap_app. Qed.

Lemma reads_processNextFrame (captured : bool) (s : State) :
  reads (effects (processNextFrame captured) s)
  ++ frameQueueRef (exec (processNextFrame captured) s)
  = frameQueueRef s.
Proof.
  destruct s as [ic er lr qs ws q p ca]. cbn.
  destruct captured, p, q as [|f q], ws as [[]|]; reflexivity.
Qed.

Lemma reads_dropOldest (queue : list Blob) : reads (dropOldest queue).2 = [].
Proof.
  induction queue as [|f queue IH]; [done|].
  cbn [dropOldest].
  destruct (MAX_QUEUE_SIZE <=? length (f :: queue))%nat; [|done].
  destruct (dropOldest queue) as [q out]. cbn in IH |- *. done.
Qed.

Lemma reads_queueFrame (captured : bool) (frameBlob : Blob) (s : State) :
  reads (effects (queueFrame captured frameBlob) s)
  ++ frameQueueRef (exec (queueFrame captured frameBlob) s)
  = enqueue (frameQueueRef s) (processedBlob frameBlob).
Proof.
  unfold enqueue. rewrite <- dropOldest_lastn.
  destruct s as [ic er lr qs ws q p ca]. cbn.
  pose proof (reads_dropOldest q) as Hout.
  destruct (dropOldest q) as [q' out] eqn:E. cbn [snd] in Hout.
  unfold effects, exec, queueFrame, processNextFrame, mbind, M_bind, when,
    gets, modify, effect, mret, M_ret.
  cbn. rewrite E. cbn.
  assert (Hne : q' ++ [processedBlob frameBlob] <> []) by (by destruct q').
  destruct (String.eqb (type frameBlob) "image/jpeg"); cbn;
    destruct p, captured; cbn;
    try destruct (q' ++ [processedBlob frameBlob]) as [|g r] eqn:E2;
    try done; cbn; try destruct ws as [[]|]; cbn;
    rewrite ?reads_app, ?Hout; cbn; rewrite ?Hout; done.
Qed.

Lemma handle_reads (e : Event) (s : State) :
  reads (effects (handle e) s) ++ frameQueueRef (exec (handle e) s)
  = match e with
    | QueueFrame _ frameBlob =>
        enqueue (frameQueueRef s) (processedBlob frameBlob)
    | _ => frameQueueRef s
    end.
Proof.
  destruct e as [t|t|t|r|c| | |c parsed|c f|f throws|]; cbn [handle];
    [| | | | | | | |apply reads_queueFrame| |];
    destruct s as [ic er lr qs ws q p ca].
  - unfold_M. cbn. by destruct t, ws.
  - unfold_M. cbn. by destruct t, ws.
  - unfold_M. cbn. by destruct t, ws as [[]|].
  - unfold_M. cbn. by destruct ws.
  - cbn. destruct c, p, q as [|f q], ws as [[]|]; reflexivity.
  - by unfold_M.
  - by unfold_M.
  - destruct parsed as [data|]; [|by unfold_M].
    unfold onmessage.
    rewrite !effects_bind, !exec_bind, !reads_app, <- !app_assoc.
    rewrite reads_processNextFrame. cbn. by destruct (truthy data && _).
  - unfold_M. cbn. destruct ws as [[]|]; cbn; try done;
      destruct (hasJpegSignature (bytes f)), throws; done.
  - by unfold_M.
Qed.

Lemma run_cons (e : Event) (events : list Event) (s : State) :
  effects (run (e :: events)) s
  = effects (handle e) s ++ effects (run events) (exec (handle e) s)
  /\ exec (run (e :: events)) s = exec (run events) (exec (handle e) s).
Proof. cbn [run]. by rewrite effects_bind, exec_bind. Qed.

Lemma frames_read_sublist (events : list Event) (s : State) :
  reads (effects (run events) s) ++ frameQueueRef (exec (run events) s)
  `sublist_of` frameQueueRef s ++ queued events.
Proof.
  revert s. induction events as [|e events IH]; intros s.
  { cbn. by rewrite app_nil_r. }
  destruct (run_cons e events s) as [-> ->]. rewrite reads_app, <- app_assoc.
  specialize (IH (exec (handle e) s)).
  etrans; [apply sublist_app; [reflexivity|exact IH]|].
  rewrite app_assoc, handle_reads.
  destruct e; try reflexivity.
  change (queued (QueueFrame captured frameBlob :: events))
    with ([processedBlob frameBlob] ++ queued events).
  rewrite app_assoc. apply sublist_app; [|reflexivity].
  unfold enqueue. apply sublist_app; [apply sublist_drop|reflexivity].
Qed.

(** X1. Frames reach the FileReader in the order in which [queueFrame]
    stored them: along any run from any state, the frames read so far
    followed by the frames still queued are a subsequence of the frames
    that were queued at the start followed by the frames pushed since.  No
    frame is read twice and none overtakes another; the ones missing are
    the ones [queueFrame] dropped, and it drops none while fewer than
    [MAX_QUEUE_SIZE] frames wait. *)
Theorem frames_are_read_in_queue_order
    (events : list Event) (s : State) (captured : bool) (frameBlob : Blob) :
  reads (effects (run events) s) ++ frameQueueRef (exec (run events) s)
  `sublist_of` frameQueueRef s ++ queued events
  /\ (length (frameQueueRef s) < MAX_QUEUE_SIZE ->
      reads (effects (queueFrame captured frameBlob) s)
      ++ frameQueueRef (exec (queueFrame captured frameBlob) s)
      = frameQueueRef s ++ [processedBlob frameBlob]).
Proof.
  split; [apply frames_read_sublist|].
  intros Hroom. rewrite reads_queueFrame. unfold enqueue.
  rewrite lastn_all; [done|]. unfold MAX_QUEUE_SIZE in *. lia.
Qed.

Lemma completes_sent (events : list Event) (s : State)
    (pending : list Blob) :
  completes events s pending ->
  sent (effects (run events) s)
  ⊆+ map bytes (pending ++ reads (effects (run events) s)).
Proof.
  revert s pending.
  induction events as [|e events IH]; intros s pending Hwf.
  { cbn. apply submseteq_nil_l. }
  destruct (run_cons e events s) as [-> _]. rewrite sent_app, reads_app.
  pose proof (handle_sent e s) as He. cbn [completes] in Hwf.
  assert (Hother : sent (effects (handle e) s) = [] ->
            completes events (exec (handle e) s)
              (pending ++ reads (effects (handle e) s)) ->
            sent (effects (handle e) s)
            ++ sent (effects (run events) (exec (handle e) s))
            ⊆+ map bytes
                 (pending ++ reads (effects (handle e) s)
                  ++ reads (effects (run events) (exec (handle e) s)))).
  { intros -> Hrest. rewrite app_assoc. by apply IH. }
  destruct e as [t|t|t|r|c| | |c parsed|c f|f throws|]; try by apply Hother.
  destruct He as [Hreads Hsent].
  destruct Hwf as (before & after & -> & Hrest).
  rewrite Hreads in Hrest |- *. rewrite app_nil_r in Hrest.
  apply IH in Hrest. cbn [app].
  assert (Hperm : map bytes
                    ((before ++ f :: after)
                     ++ reads (effects (run events)
                                 (exec (handle (ReaderLoad f throws)) s)))
                  ≡ₚ bytes f
                     :: map bytes
                          ((before ++ after)
                           ++ reads (effects (run events)
                                       (exec (handle (ReaderLoad f throws))
                                          s)))).
  { rewrite <- !app_assoc, !map_app. cbn [map app].
    symmetry. apply Permutation_middle. }
  rewrite Hperm. destruct Hsent as [-> | ->]; cbn [app].
  - by apply submseteq_cons.
  - by apply submseteq_skip.
Qed.

Lemma map_bytes_processedBlob (frameBlob : Blob) :
  bytes (processedBlob frameBlob) = bytes frameBlob.
Proof. unfold processedBlob. by destruct (negb _). Qed.

(** X15. Nothing but queued frames goes over the socket.  In a run
    from the initial state in which every [reader.onload] completes a
    read that was started, each payload given to [send] is the content of
    a frame that [queueFrame] stored, and no frame is sent more often
    than it was queued; [queueFrame] stores a frame with the bytes it was
    given. *)
Theorem only_queued_frames_are_sent
    (events : list Event) (frameBlob : Blob) :
  (completes events initial [] ->
   sent (effects (run events) initial) ⊆+ map bytes (queued events))
  /\ bytes (processedBlob frameBlob) = bytes frameBlob.
Proof.
  split; [|apply map_bytes_processedBlob].
  intros Hwf. etrans; [by apply completes_sent|]. cbn [app].
  apply sublist_submseteq, (fmap_sublist bytes).
  etrans; [|apply (frames_read_sublist events initial)].
  by apply sublist_inserts_r.
Qed.

Lemma initiated_firstRender (e : Event) (s : State) :
  firstRender e = true -> isQueueFrame e = false ->
  initiated (effects (handle e) s) = 0
  /\ frameQueueRef (exec (handle e) s) = frameQueueRef s.
Proof.
  intros Hfirst Hother.
  destruct e as [t|t|t|r|c| | |c parsed|c f|f throws|];
    [| | | | | | | |discriminate Hother| |];
    cbn [handle]; cbn in Hfirst; destruct s as [ic er lr qs ws q p ca].
  - unfold_M. cbn. by destruct t, ws.
  - unfold_M. cbn. by destruct t, ws.
  - unfold_M. cbn. by destruct t, ws as [[]|].
  - unfold_M. cbn. by destruct ws.
  - destruct c; [done|]. cbn.
    destruct p, q as [|f q], ws as [[]|]; split; reflexivity.
  - done.
  - done.
  - destruct c; [done|]. destruct parsed as [data|]; [|by unfold_M].
    unfold onmessage.
    rewrite !effects_bind, !exec_bind, !initiated_app,
      exec_processNextFrame, initiated_processNextFrame.
    cbn. by destruct (truthy data && _).
  - unfold_M. cbn. destruct ws as [[]|]; cbn; try done;
      destruct (hasJpegSignature (bytes f)), throws; done.
  - by unfold_M.
Qed.

Lemma length_queued_cons (e : Event) (events : list Event) :
  length (queued (e :: events))
  = (if isQueueFrame e then 1 else 0) + length (queued events).
Proof. by destruct e. Qed.

(** X2. The socket handlers run the [processNextFrame] of the first
    render, which sees [isConnected = false] and returns at its guard.  In
    every run in which they do, a handler other than [queueFrame] starts
    no send and leaves the queue as it is, so the sends started never
    outnumber the [queueFrame] calls: a frame is sent when a later frame
    is queued, not when the response to the previous one arrives. *)
Theorem only_queueFrame_starts_a_send
    (events : list Event) (e : Event) (s : State) :
  (forallb firstRender events = true ->
   initiated (effects (run events) s) <= length (queued events))
  /\ (firstRender e = true -> isQueueFrame e = false ->
      initiated (effects (handle e) s) = 0
      /\ frameQueueRef (exec (handle e) s) = frameQueueRef s).
Proof.
  split; [|apply initiated_firstRender].
  revert s. induction events as [|e' events IH]; intros s Hfirst; [done|].
  cbn [forallb] in Hfirst. apply andb_true_iff in Hfirst as [He Hrest].
  destruct (run_cons e' events s) as [-> _].
  rewrite initiated_app, length_queued_cons.
  specialize (IH (exec (handle e') s) Hrest).
  destruct (isQueueFrame e') eqn:Hq.
  - destruct (handle_step e' s) as [(Hk & _)|(Hk & _)]; cbn zeta in Hk; lia.
  - destruct (initiated_firstRender e' s He Hq) as [Hk _]. lia.
Qed.

(** X3. The flag [processingRef] and the frames in flight.  After any
    run from the initial state a set flag has a frame in flight (being
    read, or sent and not answered): the flag is never left set with
    nothing to wait for.  In a run in which the socket neither closes nor
    fails while a frame is in flight and every message answers a sent
    frame, the converse holds as well: one frame is in flight if the flag
    is set and none if it is clear. *)
Theorem processing_flag_tracks_frames_in_flight (events : list Event) :
  (processingRef (exec (run events) initial) = true ->
   1 <= flights (inFlight handle bearing events initial grounded))
  /\ (orderly handle bearing events initial grounded = true ->
      flights (inFlight handle bearing events initial grounded)
      = if processingRef (exec (run events) initial) then 1 else 0).
Proof.
  split; [|apply orderly_flag].
  intros Hset.
  pose proof (flag_flights handle bearing settles (fun _ _ => 0)
                handle_step sent_length_bearing settles_bearing
                events initial grounded) as Hlow.
  rewrite after_run in Hlow. unfold flag at 2 in Hlow. rewrite Hset in Hlow.
  apply Hlow. cbn. lia.
Qed.

Lemma handle_queueSize (e : Event) (s : State) :
  queueSize s = length (frameQueueRef s) ->
  queueSize (exec (handle e) s) = length (frameQueueRef (exec (handle e) s)).
Proof.
  intros Hsize.
  destruct e as [t|t|t|r|c| | |c parsed|c f|f throws|]; cbn [handle].
  - destruct s as [ic er lr qs ws q p ca]. unfold_M. cbn in *.
    by destruct t, ws.
  - destruct s as [ic er lr qs ws q p ca]. unfold_M. cbn in *.
    by destruct t, ws.
  - destruct s as [ic er lr qs ws q p ca]. unfold_M. cbn in *.
    by destruct t, ws as [[]|].
  - destruct s as [ic er lr qs ws q p ca]. unfold_M. cbn in *. by destruct ws.
  - change (onopen c) with
      (effect (console_log "WebSocket connected successfully");;
       modify (setIsConnected true);; modify (setError None);;
       modify (set_connectionAttempts 0);; processNextFrame c).
    rewrite !exec_bind, exec_processNextFrame.
    destruct (sends c _); [done|]. by destruct s.
  - destruct s. by unfold_M.
  - destruct s. by unfold_M.
  - destruct parsed as [data|]; [|destruct s; by unfold_M].
    unfold onmessage. rewrite !exec_bind, exec_processNextFrame.
    destruct (sends c _); [done|]. destruct s. cbn.
    by destruct (truthy data && _).
  - rewrite exec_queueFrame. cbn zeta. rewrite exec_processNextFrame.
    by destruct (sends c _).
  - destruct s as [ic er lr qs ws q p ca]. unfold_M. cbn in *.
    destruct ws as [[]|]; cbn; try done;
      destruct (hasJpegSignature (bytes f)), throws; done.
  - destruct s. by unfold_M.
Qed.

(** X4. The state cell [queueSize] that the hook returns (the Queue
    figure of the dashboard) equals the length of the frame queue after
    every run from the initial state: each handler that changes the queue
    ends with [setQueueSize] of its new length. *)
Theorem queueSize_mirrors_the_queue (events : list Event) :
  queueSize (exec (run events) initial)
  = length (frameQueueRef (exec (run events) initial)).
Proof.
  assert (Hgen : forall s, queueSize s = length (frameQueueRef s) ->
    queueSize (exec (run events) s)
    = length (frameQueueRef (exec (run events) s))).
  { induction events as [|e events IH]; intros s Hs; [done|].
    destruct (run_cons e events s) as [_ ->]. by apply IH, handle_queueSize. }
  by apply Hgen.
Qed.









End HookRuns.

Section HookRunsInstances.
Import JS Hook.

(** A frame queued into a connected hook is read at once; with room in
    the queue it is not dropped. *)
Lemma frames_are_read_in_queue_order_witness :
  length (frameQueueRef connected) < MAX_QUEUE_SIZE
  /\ reads (effects (queueFrame true (jpeg [Byte.x01])) connected)
     = [jpeg [Byte.x01]]
  /\ reads (effects (queueFrame true (jpeg [Byte.x01])) connected)
     ++ frameQueueRef (exec (queueFrame true (jpeg [Byte.x01])) connected)
     = frameQueueRef connected ++ [processedBlob (jpeg [Byte.x01])].
Proof.
  assert (Hroom : length (frameQueueRef connected) < MAX_QUEUE_SIZE)
    by (unfold MAX_QUEUE_SIZE; cbn; lia).
  split; [exact Hroom|]. split; [reflexivity|].
  exact (proj2 (frames_are_read_in_queue_order [] connected true
                  (jpeg [Byte.x01])) Hroom).
Defined.

(** A frame queued into a fresh connection is being read and the flag is
    set. *)
Lemma processing_flag_tracks_frames_in_flight_witness :
  let events :=
    [Connect false; ReadyStateChange OPEN; Open false;
     QueueFrame true (jpeg [Byte.x01])] in
  processingRef (exec (run events) initial) = true
  /\ orderly handle bearing events initial grounded = true
  /\ 1 <= flights (inFlight handle bearing events initial grounded)
  /\ flights (inFlight handle bearing events initial grounded)
     = (if processingRef (exec (run events) initial) then 1 else 0)
  /\ inFlight handle bearing events initial grounded
     = {| reading := 1; unanswered := 0 |}.
Proof.
  cbn zeta.
  destruct (processing_flag_tracks_frames_in_flight
              [Connect false; ReadyStateChange OPEN; Open false;
               QueueFrame true (jpeg [Byte.x01])]) as [Hset Hexact].
  split; [reflexivity|]. split; [reflexivity|].
  split; [exact (Hset eq_refl)|]. split; [exact (Hexact eq_refl)|reflexivity].
Defined.

(** Two frames queued, the first read, loaded and sent. *)
Lemma only_queued_frames_are_sent_witness :
  let events :=
    [Connect false; ReadyStateChange OPEN; Open false;
     QueueFrame true (jpeg [Byte.x01]); QueueFrame true (jpeg [Byte.x02]);
     ReaderLoad (jpeg [Byte.x01]) false] in
  completes events initial []
  /\ sent (effects (run events) initial) = [bytes (jpeg [Byte.x01])]
  /\ sent (effects (run events) initial) ⊆+ map bytes (queued events).
Proof.
  cbn zeta.
  assert (Hwf : completes
            [Connect false; ReadyStateChange OPEN; Open false;
             QueueFrame true (jpeg [Byte.x01]);
             QueueFrame true (jpeg [Byte.x02]);
             ReaderLoad (jpeg [Byte.x01]) false] initial []).
  { cbn. exists [], []. split; reflexivity. }
  split; [exact Hwf|]. split; [reflexivity|].
  exact (proj1 (only_queued_frames_are_sent _ (jpeg [])) Hwf).
Defined.

(** With responses handled by the first-render closure, three frames and
    two responses start one send per [queueFrame] call that finds the
    channel free: the third frame stays queued after the last response. *)
Lemma only_queueFrame_starts_a_send_witness :
  let events :=
    [QueueFrame true (jpeg [Byte.x01]); ReaderLoad (jpeg [Byte.x01]) false;
     Message false (Some noPredictions);
     QueueFrame true (jpeg [Byte.x02]); ReaderLoad (jpeg [Byte.x02]) false;
     QueueFrame true (jpeg [Byte.x03]);
     Message false (Some noPredictions)] in
  forallb firstRender events = true
  /\ initiated (effects (run events) connected) <= length (queued events)
  /\ frameQueueRef (exec (run events) connected) = [jpeg [Byte.x03]].
Proof.
  cbn zeta. split; [reflexivity|]. split; [|reflexivity].
  exact (proj1 (only_queueFrame_starts_a_send
                  [QueueFrame true (jpeg [Byte.x01]);
                   ReaderLoad (jpeg [Byte.x01]) false;
                   Message false (Some noPredictions);
                   QueueFrame true (jpeg [Byte.x02]);
                   ReaderLoad (jpeg [Byte.x02]) false;
                   QueueFrame true (jpeg [Byte.x03]);
                   Message false (Some noPredictions)]
                  (Connect false) connected) eq_refl).
Defined.



End HookRunsInstances.


(** ** The colour of a track *)

Section TrackColor.
Import CanvasOverlay.
Local Open Scope Z_scope.

Lemma ToInt32_wraps (z : Z) : exists k, ToInt32 z = z + 2 ^ 32 * k.
Proof.
  exists (- ((z + 2 ^ 31) / 2 ^ 32)). unfold ToInt32.
  rewrite Z.mod_eq by lia. lia.
Qed.

Lemma ToInt32_range (z : Z) : - 2 ^ 31 <= ToInt32 z < 2 ^ 31.
Proof.
  unfold ToInt32.
  pose proof (Z.mod_pos_bound (z + 2 ^ 31) (2 ^ 32) ltac:(lia)). lia.
Qed.

Lemma ToInt32_small (z : Z) : - 2 ^ 31 <= z < 2 ^ 31 -> ToInt32 z = z.
Proof. intros Hz. unfold ToInt32. rewrite Z.mod_small; lia. Qed.

Lemma shiftLeft_5 (a : Z) : shiftLeft a 5 = ToInt32 (ToInt32 a * 32).
Proof. unfold shiftLeft. by rewrite Z.shiftl_mul_pow2. Qed.

Lemma hash_wraps (chars : list Z) (a b : Z) :
  (exists k, a = b + 2 ^ 32 * k) ->
  exists k,
    fold_left (fun acc char => char + (shiftLeft acc 5 - acc)) chars a
    = fold_left (fun acc char => 31 * acc + char) chars b + 2 ^ 32 * k.
Proof.
  revert a b. induction chars as [|c chars IH]; intros a b Hab; [done|].
  cbn [fold_left]. apply IH. destruct Hab as [k ->].
  rewrite shiftLeft_5.
  destruct (ToInt32_wraps (b + 2 ^ 32 * k)) as [k1 ->].
  destruct (ToInt32_wraps ((b + 2 ^ 32 * k + 2 ^ 32 * k1) * 32)) as [k2 ->].
  exists (31 * k + 32 * k1 + k2). lia.
Qed.

Lemma hash_size (chars : list Z) (a : Z) :
  Forall codeUnit chars ->
  Z.abs (fold_left (fun acc char => char + (shiftLeft acc 5 - acc)) chars a)
  <= Z.abs a + Z.of_nat (length chars) * (2 ^ 31 + 2 ^ 16).
Proof.
  intros Hunits. revert a.
  induction Hunits as [|c chars Hc _ IH]; intros a; [cbn; lia|].
  cbn [fold_left]. etrans; [apply IH|].
  rewrite shiftLeft_5.
  pose proof (ToInt32_range (ToInt32 a * 32)).
  unfold codeUnit in Hc. cbn [length]. lia.
Qed.

(** No step wraps as long as the accumulator stays below 2^26: with
    code units up to [top] it does so through the first [n - 1] of [n]
    steps when [top * (31 ^ (n - 1) - 1) < 30 * 2 ^ 26]. *)
Lemma hash_short (top : Z) (chars : list Z) (a : Z) (k : nat) :
  Forall (fun char => 0 <= char <= top) chars ->
  0 <= a -> 30 * a <= top * (31 ^ Z.of_nat k - 1) ->
  top * (31 ^ (Z.of_nat (k + length chars) - 1) - 1) < 30 * 2 ^ 26 ->
  fold_left (fun acc char => char + (shiftLeft acc 5 - acc)) chars a
  = fold_left (fun acc char => 31 * acc + char) chars a
  /\ 0 <= fold_left (fun acc char => 31 * acc + char) chars a.
Proof.
  intros Hunits. revert a k.
  induction Hunits as [|c chars Hc _ IH]; intros a k Ha0 Ha Hk;
    [cbn; lia|].
  cbn [fold_left length] in *.
  assert (Htop : 0 <= top) by lia.
  assert (Hpow : 31 ^ Z.of_nat k <= 31 ^ (Z.of_nat (k + S (length chars)) - 1))
    by (apply Z.pow_le_mono_r; lia).
  assert (Hsmall : a < 2 ^ 26) by nia.
  assert (Hshift : shiftLeft a 5 = a * 32).
  { rewrite shiftLeft_5, (ToInt32_small a) by lia.
    apply ToInt32_small. lia. }
  rewrite Hshift.
  replace (c + (a * 32 - a)) with (31 * a + c) by lia.
  apply (IH _ (S k)); [lia| |].
  - rewrite Nat2Z.inj_succ, Z.pow_succ_r by lia. nia.
  - by replace (S k + length chars)%nat with (k + S (length chars))%nat
      by lia.
Qed.

Lemma codeUnits_range (s : string) :
  Forall (fun char => 0 <= char <= 255) (codeUnits s).
Proof.
  unfold codeUnits. apply Forall_forall. intros c Hc.
  apply list_elem_of_fmap in Hc as (a & -> & _).
  pose proof (Ascii.N_ascii_bounded a). lia.
Qed.

(** X7. [getTrackColor] paints every unknown face in the same grey and
    derives the hue of a known track from the code units of its id alone.
    The hash is the polynomial in 31 of the code units, up to a multiple
    of 2^32 (the shift wraps to 32 bits); it stays small enough to be
    exact.  The hue is the remainder of the hash by 360 with the sign of
    the hash, so it lies strictly between -360 and 360 and need not be a
    hue.  It is one, in [0, 360), when nothing wraps: for every id of at
    most four code units, and for every id of at most five code units
    that are all below 256 (digits and Latin letters among them). *)
Theorem track_colour_hue (trackId : list Z) :
  getTrackColor trackId true = "rgba(200, 200, 200, 0.8)"
  /\ hash trackId mod 2 ^ 32 = polynomial trackId mod 2 ^ 32
  /\ - 360 < hue trackId < 360
  /\ (Forall codeUnit trackId ->
      Z.abs (hash trackId) <= Z.of_nat (length trackId) * (2 ^ 31 + 2 ^ 16)
      /\ ((length trackId <= 4)%nat ->
          hash trackId = polynomial trackId /\ 0 <= hue trackId < 360)
      /\ ((length trackId <= 5)%nat ->
          Forall (fun char => char <= 255) trackId ->
          hash trackId = polynomial trackId /\ 0 <= hue trackId < 360)).
Proof.
  assert (Hhue : forall top,
    Forall (fun char => 0 <= char <= top) trackId ->
    top * (31 ^ (Z.of_nat (length trackId) - 1) - 1) < 30 * 2 ^ 26 ->
    hash trackId = polynomial trackId /\ 0 <= hue trackId < 360).
  { intros top Hunits Htop.
    destruct (hash_short top trackId 0 0 Hunits) as [Heq Hpos];
      [lia|cbn; lia|exact Htop|].
    split; [exact Heq|]. unfold hue, hash. rewrite Heq.
    apply Z.rem_bound_pos; [exact Hpos|lia]. }
  split; [done|]. split; [|split; [|intros Hunits; split; [|split]]].
  - destruct (hash_wraps trackId 0 0) as [k Hk]; [by exists 0|].
    unfold hash, polynomial. rewrite Hk, Z.mul_comm.
    apply Z_mod_plus_full.
  - unfold hue. pose proof (Z.rem_bound_abs (hash trackId) 360). lia.
  - etrans; [by apply hash_size|]. lia.
  - intros Hshort. apply (Hhue (2 ^ 16 - 1)).
    + eapply Forall_impl; [exact Hunits|]. unfold codeUnit. intros c. lia.
    + assert (31 ^ (Z.of_nat (length trackId) - 1) <= 31 ^ 3)
        by (destruct trackId; [cbn; lia|apply Z.pow_le_mono_r; lia]).
      lia.
  - intros Hshort Hlatin. apply (Hhue 255).
    + rewrite Forall_forall in Hunits, Hlatin. apply Forall_forall.
      intros c Hc. specialize (Hunits c Hc). specialize (Hlatin c Hc).
      unfold codeUnit in Hunits. lia.
    + assert (31 ^ (Z.of_nat (length trackId) - 1) <= 31 ^ 4)
        by (destruct trackId; [cbn; lia|apply Z.pow_le_mono_r; lia]).
      lia.
Qed.

End TrackColor.

Section TrackColorInstances.
Import CanvasOverlay.

(** Track "7": the hash is the code of the digit. *)
Lemma track_colour_hue_witness :
  Forall codeUnit (codeUnits "7")
  /\ (length (codeUnits "7") <= 4)%nat
  /\ (length (codeUnits "7") <= 5)%nat
  /\ Forall (fun char => char <= 255)%Z (codeUnits "7")
  /\ hash (codeUnits "7") = polynomial (codeUnits "7")
  /\ (0 <= hue (codeUnits "7") < 360)%Z
  /\ getTrackColor (codeUnits "7") false = "hsl(55, 80%, 60%)".
Proof.
  assert (Hunits : Forall codeUnit (codeUnits "7"))
    by (repeat constructor; unfold codeUnit; cbn; lia).
  assert (Hshort : (length (codeUnits "7") <= 4)%nat) by (cbn; lia).
  assert (Hshort' : (length (codeUnits "7") <= 5)%nat) by (cbn; lia).
  assert (Hlatin : Forall (fun char => char <= 255)%Z (codeUnits "7"))
    by (repeat constructor; cbn; lia).
  destruct (track_colour_hue (codeUnits "7")) as (_ & _ & _ & Hhue).
  destruct (Hhue Hunits) as (_ & Hfour & Hfive).
  split; [exact Hunits|]. split; [exact Hshort|]. split; [exact Hshort'|].
  split; [exact Hlatin|]. split; [exact (proj1 (Hfour Hshort))|].
  split; [exact (proj2 (Hfive Hshort' Hlatin))|reflexivity].
Defined.

(** A longer id wraps, and the hue comes out negative; so does an id of
    five code units above 255, while its first four give a hue. *)
Example a_long_id_has_a_negative_hue :
  hash (codeUnits "1234567") = (-2276800972)%Z
  /\ getTrackColor (codeUnits "1234567") false = "hsl(-52, 80%, 60%)"
  /\ getTrackColor [26085; 26412; 35486; 19968; 20108]%Z false
     = "hsl(-77, 80%, 60%)"
  /\ getTrackColor [26085; 26412; 35486; 19968]%Z false
     = "hsl(281, 80%, 60%)".
Proof. repeat split; reflexivity. Qed.

End TrackColorInstances.

(** ** The label of a box *)

Lemma inject_Z_le (a b : Z) : (a <= b)%Z -> (inject_Z a <= inject_Z b)%Q.
Proof. by rewrite <- Zle_Qle. Qed.

Lemma inject_Z_lt (a b : Z) : (a < b)%Z -> (inject_Z a < inject_Z b)%Q.
Proof. by rewrite <- Zlt_Qlt. Qed.

Section LabelGeometry.
Import JS ProcessResponse CanvasOverlay VideoInput.
Context `{Runtime}.
Variable fl : Q -> Q.
Variable measureText : string -> string -> Q.
Hypothesis rounding : rounds_to_nearest fl.
Local Open Scope Q_scope.

Lemma Qle_bool_false (a b : Q) : Qle_bool a b = false -> b < a.
Proof.
  intros Hf. apply Qnot_le_lt. intros Hle. apply Qle_bool_iff in Hle.
  congruence.
Qed.

Lemma fl_zero : fl 0 == 0.
Proof. apply (fl_integer fl rounding 0). lia. Qed.

Lemma fl_nonneg (x : Q) : 0 <= x -> 0 <= fl x.
Proof.
  intros Hx. rewrite <- fl_zero. by apply (fl_monotone fl rounding).
Qed.

Lemma fl_nonpos (x : Q) : x <= 0 -> fl x <= 0.
Proof.
  intros Hx. rewrite <- fl_zero. by apply (fl_monotone fl rounding).
Qed.

Lemma fl_below (x : Q) (z : Z) :
  (0 <= z <= 2 ^ 53)%Z -> x <= inject_Z z -> fl x <= inject_Z z.
Proof.
  intros Hz Hx. rewrite <- (fl_integer fl rounding z Hz).
  by apply (fl_monotone fl rounding).
Qed.

Lemma fl_above (x : Q) (z : Z) :
  (0 <= z <= 2 ^ 53)%Z -> inject_Z z <= x -> inject_Z z <= fl x.
Proof.
  intros Hz Hx. rewrite <- (fl_integer fl rounding z Hz).
  by apply (fl_monotone fl rounding).
Qed.

(** Clamping into [0, size] returns 0, the size or the number itself. *)
Lemma clamp_cases (size : N) (v : number) :
  isNaN v = false ->
  exists q, Math_max (Fin 0) (Math_min (num_of_N size) v) = Fin q
            /\ 0 <= q /\ q <= inject_Z (Z.of_N size)
            /\ (q = 0 \/ q = inject_Z (Z.of_N size) \/ v = Fin q).
Proof.
  intros Hv. unfold num_of_N, num_of_Z.
  assert (Hsize : 0 <= inject_Z (Z.of_N size)).
  { change 0 with (inject_Z 0). apply inject_Z_le. lia. }
  assert (Hsize' : Qle_bool 0 (inject_Z (Z.of_N size)) = true)
    by (by apply Qle_bool_iff).
  destruct v as [| |q|]; try done; cbn.
  - exists 0. repeat split; [apply Qle_refl|done|by left].
  - destruct (Qle_bool (inject_Z (Z.of_N size)) q) eqn:E1; cbn.
    + rewrite Hsize'. eexists.
      repeat split; [done|apply Qle_refl|right; by left].
    + apply Qle_bool_false in E1.
      destruct (Qle_bool 0 q) eqn:E2.
      * exists q. repeat split; [by apply Qle_bool_iff|lra|right; by right].
      * exists 0. repeat split; [apply Qle_refl|done|by left].
  - rewrite Hsize'. eexists.
    repeat split; [done|apply Qle_refl|right; by left].
Qed.

(** X8. The label of a box, with every operation rounded to binary64.
    The background rectangle has its left edge between 0 and the left
    edge of the box and its top edge between 0 and the top edge of the
    box; it is as wide as the measured text plus 10, rounded, which is at
    least 10, and 20 or 24 high.  When it is not wider than the canvas its
    left edge is inside the canvas, at most the rounded difference of the
    two widths, and its right edge passes the canvas by no more than the
    rounding error of that difference.  With room above the box it sits
    on the box, its top edge the rounded difference of the top edge of
    the box and its height.  The text is written 5 to the right of its
    left edge. *)
Theorem label_stays_on_canvas
    (canvas : Canvas.t) (pred : ProcessedPrediction) (scaled : Coords)
    (color : string) (x y w h : number) :
  (Z.of_N (Canvas.width canvas) <= 2 ^ 32)%Z ->
  (Z.of_N (Canvas.height canvas) <= 2 ^ 32)%Z ->
  isNaN (cx1 scaled) = false -> isNaN (cy1 scaled) = false ->
  (forall q, cy1 scaled = Fin q -> fl q == q) ->
  (forall font text, 0 <= measureText font text) ->
  In (fillRect color x y w h) (drawLabel fl measureText canvas pred scaled) ->
  let box := clampedCoords canvas scaled in
  let width := inject_Z (Z.of_N (Canvas.width canvas)) in
  let u := 1 # 2 ^ 53 in
  exists (boxX boxY labelX top textWidth textHeight : Q)
         (font text : string) (textY : number),
    cx1 box = Fin boxX /\ cy1 box = Fin boxY
    /\ x = Fin labelX /\ y = Fin top
    /\ w = Fin textWidth /\ h = Fin textHeight
    /\ textWidth = fl (measureText font text + 10) /\ 10 <= textWidth
    /\ (textHeight = 20 \/ textHeight = 24)
    /\ 0 <= labelX /\ labelX <= boxX /\ boxX <= width
    /\ (textWidth <= width ->
        labelX <= fl (width - textWidth)
        /\ fl (width - textWidth) <= width
        /\ ((1 # 2 ^ 64) <= width - textWidth ->
            labelX + textWidth <= width * (1 + u)))
    /\ 0 <= top /\ top <= boxY
    /\ (textHeight <= boxY ->
        top = fl (boxY - textHeight)
        /\ ((1 # 2 ^ 64) <= boxY - textHeight ->
            (boxY - textHeight) * (1 - u) <= top
            /\ top <= (boxY - textHeight) * (1 + u)))
    /\ In (fillText "white" font text (Fin (fl (labelX + 5))) textY)
          (drawLabel fl measureText canvas pred scaled).
Proof.
  intros Hwidth Hheight Hx Hy Hdouble Hmeasure Hin box width0 u.
  destruct (clamp_cases (Canvas.width canvas) _ Hx)
    as (boxX & Hcx & Hbx & Hbx' & _).
  destruct (clamp_cases (Canvas.height canvas) _ Hy)
    as (boxY & Hcy & Hby & Hby'' & Hwhich).
  assert (Hby' : boxY <= inject_Z (2 ^ 32)).
  { eapply Qle_trans; [exact Hby''|]. by apply inject_Z_le. }
  assert (Hrep : fl boxY == boxY).
  { destruct Hwhich as [->|[->|Hq]].
    - apply fl_zero.
    - apply (fl_integer fl rounding). lia.
    - by apply Hdouble. }
  change (cx1 box = Fin boxX) in Hcx. change (cy1 box = Fin boxY) in Hcy.
  clear Hx Hy Hdouble Hwhich Hby''.
  unfold drawLabel in *. cbv zeta in Hin |- *.
  change (clampedCoords canvas scaled) with box in Hin |- *.
  set (isUnknown := String.eqb (name pred) "Unknown") in *.
  set (font := if isUnknown then "12px Arial" else "bold 14px Arial") in *.
  set (text := (name pred +:+ " ("
                +:+ NumberToString
                      (Math_round
                         (rounded fl (num_mul (confidence pred) (Fin 100))))
                +:+ "%)")%string) in *.
  specialize (Hmeasure font text).
  set (m := measureText font text) in *.
  set (th := if isUnknown then 20 else 24).
  assert (Hth : (if isUnknown then Fin 20 else Fin 24) = Fin th)
    by (unfold th; by destruct isUnknown).
  assert (Hth' : th = 20 \/ th = 24) by (unfold th; destruct isUnknown; auto).
  assert (Hth0 : 0 < th) by (by destruct Hth' as [-> | ->]).
  rewrite Hth in *. rewrite Hcx, Hcy in *.
  unfold num_of_N, num_of_Z in *. cbn [num_add num_sub rounded] in *.
  fold width0 in Hin, Hbx' |- *.
  set (tw := fl (m + 10)) in *.
  assert (Htw : 10 <= tw).
  { unfold tw. apply (fl_above _ 10); [lia|]. change (inject_Z 10) with 10.
    lra. }
  assert (Hw0 : 0 <= width0).
  { unfold width0. change 0 with (inject_Z 0). apply inject_Z_le. lia. }
  set (r := fl (width0 - tw)) in *.
  set (lx := Math_max (Fin 0) (Math_min (Fin boxX) (Fin r))) in *.
  set (ly := Math_max (Fin th) (Fin boxY)) in *.
  assert (Hlx : exists q, lx = Fin q /\ 0 <= q /\ q <= boxX
                          /\ (0 <= r -> q <= r)).
  { unfold lx. cbn.
    destruct (Qle_bool boxX r) eqn:E1; cbn.
    - apply Qle_bool_iff in E1. destruct (Qle_bool 0 boxX) eqn:E2.
      + exists boxX. repeat split; try done; try lra.
      + apply Qle_bool_false in E2. lra.
    - apply Qle_bool_false in E1.
      destruct (Qle_bool 0 r) eqn:E2.
      + apply Qle_bool_iff in E2. exists r. repeat split; try done; lra.
      + apply Qle_bool_false in E2. exists 0. repeat split; try done; lra. }
  assert (Hly : (th <= boxY /\ ly = Fin boxY)
                \/ (boxY < th /\ ly = Fin th)).
  { unfold ly. cbn. destruct (Qle_bool th boxY) eqn:E; cbn.
    - apply Qle_bool_iff in E. by left.
    - apply Qle_bool_false in E. by right. }
  destruct Hlx as (qx & Hqx & Hqx0 & Hqx1 & Hfit).
  assert (Hedge : tw <= width0 ->
            qx <= r /\ r <= width0
            /\ ((1 # 2 ^ 64) <= width0 - tw -> qx + tw <= width0 * (1 + u))).
  { intros Hfits.
    assert (Hr0 : 0 <= r) by (apply fl_nonneg; lra).
    assert (Hr1 : r <= width0).
    { unfold r, width0. apply fl_below; [lia|]. fold width0. lra. }
    split; [by apply Hfit|]. split; [done|]. intros Hnormal.
    destruct (fl_error fl rounding (width0 - tw) Hnormal) as [_ Hup].
    { eapply Qle_trans;
        [|apply (inject_Z_le (Z.of_N (Canvas.width canvas)) (2 ^ 64)); lia].
      fold width0. lra. }
    fold r in Hup. fold u in Hup.
    assert (Hu : 0 <= u) by (by vm_compute).
    specialize (Hfit Hr0). nra. }
  rewrite Hqx in *. cbn [num_add num_sub rounded] in *.
  destruct Hly as [[Hroom Hly]|[Hroom Hly]]; rewrite Hly in *;
    cbn [num_add num_sub rounded] in *;
    (destruct Hin as [Hrect|[Htext|[]]]; [|discriminate]);
    injection Hrect as _ <- <- <- <-.
  - exists boxX, boxY, qx, (fl (boxY - th)), tw, th, font, text.
    eexists. do 6 (split; [done|]). split; [reflexivity|].
    do 5 (split; [done|]). split; [exact Hedge|].
    split; [apply fl_nonneg; lra|]. split.
    { eapply Qle_trans;
        [apply (fl_monotone fl rounding (boxY - th) boxY); lra|].
      apply Qle_lteq. by right. }
    split.
    + intros _. split; [reflexivity|]. intros Hnormal.
      apply (fl_error fl rounding); [done|].
      eapply Qle_trans; [|apply (inject_Z_le (2 ^ 32) (2 ^ 64)); lia]. lra.
    + right. left. reflexivity.
  - exists boxX, boxY, qx, (fl (th - th)), tw, th, font, text.
    eexists. do 6 (split; [done|]). split; [reflexivity|].
    do 5 (split; [done|]). split; [exact Hedge|].
    split; [apply fl_nonneg; lra|]. split.
    { eapply Qle_trans; [apply fl_nonpos; lra|done]. }
    split; [intros Hle; lra|].
    right. left. reflexivity.
Qed.

End LabelGeometry.

Section LabelGeometryInstances.
Import JS ProcessResponse CanvasOverlay VideoInput.

Lemma exact_rounds_to_nearest : rounds_to_nearest (fun q => q).
Proof.
  split.
  - done.
  - reflexivity.
  - intros x Hx _.
    assert (Hx0 : (0 <= x)%Q).
    { eapply Qle_trans; [|exact Hx]. by vm_compute. }
    assert (Hu : (0 <= (1 # 2 ^ 53))%Q) by (by vm_compute).
    set (u := (1 # 2 ^ 53)%Q) in *. split; nra.
Qed.

(** The label of Alice's box on the 640x360 canvas, for a text measured
    at 40 pixels and operations that happen to be exact. *)
Lemma label_stays_on_canvas_witness :
  let scaled := scaledCoords halfScale aliceRecord in
  let rect :=
    fillRect "hsl(55, 80%, 60%)" (Fin (10 # 2)) (Fin (32 # 2)) (Fin 50)
      (Fin 24) in
  let label :=
    @drawLabel exampleRuntime (fun q => q) (fun _ _ => 40%Q) smallCanvas
      aliceRecord scaled in
  In rect label
  /\ In (fillText "white" "bold 14px Arial" "Alice (92%)" (Fin (20 # 2))
           (Fin (66 # 2))) label
  /\ exists boxX labelX : Q,
       cx1 (clampedCoords smallCanvas scaled) = Fin boxX
       /\ Fin (10 # 2) = Fin labelX /\ (0 <= labelX)%Q
       /\ (labelX <= boxX)%Q.
Proof.
  cbn zeta.
  assert (Hin : In (fillRect "hsl(55, 80%, 60%)" (Fin (10 # 2))
                      (Fin (32 # 2)) (Fin 50) (Fin 24))
                   (@drawLabel exampleRuntime (fun q => q) (fun _ _ => 40%Q)
                      smallCanvas aliceRecord
                      (scaledCoords halfScale aliceRecord)))
    by (left; reflexivity).
  split; [exact Hin|]. split; [right; left; reflexivity|].
  destruct (@label_stays_on_canvas exampleRuntime (fun q => q)
              (fun _ _ => 40%Q) exact_rounds_to_nearest
              smallCanvas aliceRecord (scaledCoords halfScale aliceRecord)
              _ _ _ _ _
              ltac:(vm_compute; discriminate) ltac:(vm_compute; discriminate)
              eq_refl eq_refl (fun q _ => Qeq_refl q)
              (fun _ _ => ltac:(discriminate)) Hin)
    as (boxX & boxY & labelX & top & textWidth & textHeight & font & text
        & textY & Hbox & _ & Hx & _ & _ & _ & _ & _ & _ & Hpos & Hle & _).
  exists boxX, labelX. split; [exact Hbox|]. split; [exact Hx|].
  split; [exact Hpos|exact Hle].
Defined.

End LabelGeometryInstances.

(** ** The exit log as displayed *)

Section ExitLogView.
Import JS App ExitLog.

Lemma num_le_trans (a b c : number) : num_le a b -> num_le b c -> num_le a c.
Proof.
  unfold num_le. destruct a as [| |x|], b as [| |y|], c as [| |z|]; cbn;
    try done.
  intros Hxy Hyz. apply Qle_bool_iff in Hxy, Hyz. apply Qle_bool_iff.
  by eapply Qle_trans.
Qed.

Lemma positive_compareFn (a b : ExitLogEntry) :
  isNaN (sortTime a) = false -> isNaN (sortTime b) = false ->
  if positive (compareFn a b)
  then num_le (sortTime a) (sortTime b)
       /\ num_leb (sortTime b) (sortTime a) = false
  else num_le (sortTime b) (sortTime a).
Proof.
  unfold compareFn, num_le.
  destruct (sortTime a) as [| |x|], (sortTime b) as [| |y|]; cbn; try done.
  intros _ _. destruct (Qle_bool (y - x) 0) eqn:E; cbn.
  - apply Qle_bool_iff in E. apply Qle_bool_iff. lra.
  - split.
    + apply Qle_bool_iff. destruct (Qle_bool x y) eqn:E'.
      * by apply Qle_bool_iff in E'.
      * assert (y - x <= 0)%Q; [|apply Qle_bool_iff in H; congruence].
        assert (Hlt : (y < x)%Q).
        { apply Qnot_le_lt. intros Hle. apply Qle_bool_iff in Hle.
          congruence. }
        lra.
    + destruct (Qle_bool y x) eqn:E'; [|done].
      apply Qle_bool_iff in E'.
      assert (y - x <= 0)%Q by lra. apply Qle_bool_iff in H. congruence.
Qed.

Lemma insertEntry_Permutation (a : ExitLogEntry) (sorted : list ExitLogEntry) :
  Permutation (insert a sorted) (a :: sorted).
Proof.
  induction sorted as [|b rest IH]; [done|]. cbn [insert].
  destruct (positive (compareFn a b)); [|done].
  rewrite IH. apply perm_swap.
Qed.

Lemma sortedEntries_Permutation (entries : list ExitLogEntry) :
  Permutation (sortedEntries entries) entries.
Proof.
  induction entries as [|a entries IH]; [done|].
  cbn. rewrite insertEntry_Permutation. by constructor.
Qed.

Lemma insertEntry_newestFirst (a : ExitLogEntry) (sorted : list ExitLogEntry) :
  isNaN (sortTime a) = false ->
  Forall (fun e => isNaN (sortTime e) = false) sorted ->
  newestFirst sorted -> newestFirst (insert a sorted).
Proof.
  intros Ha Hnan Hsorted.
  induction Hsorted as [|b rest Hrest IH Hb]; cbn [insert].
  { repeat constructor. }
  apply Forall_cons in Hnan as [Hbn Hnan].
  pose proof (positive_compareFn a b Ha Hbn) as Hcmp.
  destruct (positive (compareFn a b)).
  - constructor; [by apply IH|].
    eapply Permutation_Forall; [symmetry; apply insertEntry_Permutation|].
    constructor; [apply Hcmp|done].
  - constructor; [by constructor|]. constructor; [done|].
    eapply Forall_impl; [exact Hb|]. intros e He. cbn in He.
    by eapply num_le_trans.
Qed.

Lemma insertEntry_stable (t : number) (a : ExitLogEntry)
    (sorted : list ExitLogEntry) :
  isNaN (sortTime a) = false ->
  Forall (fun e => isNaN (sortTime e) = false) sorted ->
  List.filter (at_time t) (insert a sorted)
  = List.filter (at_time t) (a :: sorted).
Proof.
  intros Ha Hnan. induction Hnan as [|b rest Hb _ IH]; [done|].
  cbn [insert]. pose proof (positive_compareFn a b Ha Hb) as Hcmp.
  destruct (positive (compareFn a b)); [|done].
  cbn [List.filter] in *. rewrite IH.
  destruct (at_time t a) eqn:Eta, (at_time t b) eqn:Etb; try done.
  exfalso. destruct Hcmp as [_ Hcmp].
  unfold at_time in *. apply andb_true_iff in Eta as [Hta Hat].
  apply andb_true_iff in Etb as [Htb Hbt].
  assert (num_le (sortTime b) (sortTime a)) by (by eapply num_le_trans).
  unfold num_le in *. congruence.
Qed.

Lemma map_time_imap (row : nat -> ExitLogEntry -> Row)
    (entries : list ExitLogEntry) :
  (forall index entry, time (row index entry) = timestamp entry) ->
  map time (imap row entries) = map timestamp entries.
Proof.
  revert row. induction entries as [|e entries IH]; intros row Hrow; [done|].
  cbn. rewrite Hrow. f_equal. apply IH. intros index entry. apply Hrow.
Qed.

(** X9. The exit log is displayed newest first, whatever the order of
    the entries in the state: when no sort time is NaN, the rows are a
    rearrangement of the entries in descending order of [sortTime], and
    entries with the same sort time keep the order they have in the
    state.  There is one row per entry, showing its time stamp, and the
    empty-state message appears exactly when there is no entry. *)
Theorem exit_log_is_shown_newest_first `{Runtime}
    (h : list (list string)) (entries : list ExitLogEntry) (t : number) :
  (Forall (fun e => isNaN (sortTime e) = false) entries ->
   Permutation (sortedEntries entries) entries
   /\ newestFirst (sortedEntries entries)
   /\ List.filter (at_time t) (sortedEntries entries)
      = List.filter (at_time t) entries)
  /\ (ExitLog h entries = EmptyState <-> entries = [])
  /\ (entries <> [] ->
      exists rows,
        ExitLog h entries = Table rows
        /\ map time rows = map timestamp (sortedEntries entries)
        /\ length rows = length entries).
Proof.
  split; [|split].
  - intros Hnan. split; [apply sortedEntries_Permutation|].
    induction Hnan as [|a rest Ha Hrest IH].
    { split; [constructor|done]. }
    destruct IH as [IHs IHf].
    assert (Hsorted : Forall (fun e => isNaN (sortTime e) = false)
                        (sortedEntries rest)).
    { eapply Permutation_Forall; [|exact Hrest].
      symmetry. apply sortedEntries_Permutation. }
    split.
    + by apply insertEntry_newestFirst.
    + cbn [sortedEntries foldr]. fold (sortedEntries rest).
      rewrite insertEntry_stable by done. cbn [List.filter]. by rewrite IHf.
  - unfold ExitLog. destruct entries; cbn; split; done.
  - intros Hne. unfold ExitLog. destruct entries as [|a rest]; [done|].
    cbn [length Nat.eqb]. eexists. split; [reflexivity|]. split.
    + by apply map_time_imap.
    + rewrite length_imap.
      apply (Permutation_length (sortedEntries_Permutation (a :: rest))).
Qed.

End ExitLogView.

Section ExitLogViewInstances.
Import JS App ExitLog.

(** Three entries, the two at time 1000 in state order behind the one at
    time 2000. *)
Lemma exit_log_is_shown_newest_first_witness :
  let first := {| names := 0; timestamp := "a"; sortTime := Fin 1000 |} in
  let second := {| names := 1; timestamp := "b"; sortTime := Fin 2000 |} in
  let third := {| names := 1; timestamp := "c"; sortTime := Fin 1000 |} in
  Forall (fun e => isNaN (sortTime e) = false) [first; second; third]
  /\ sortedEntries [first; second; third] = [second; first; third]
  /\ newestFirst (sortedEntries [first; second; third]).
Proof.
  cbn zeta.
  assert (Hnan : Forall (fun e => isNaN (sortTime e) = false)
            [{| names := 0; timestamp := "a"; sortTime := Fin 1000 |};
             {| names := 1; timestamp := "b"; sortTime := Fin 2000 |};
             {| names := 1; timestamp := "c"; sortTime := Fin 1000 |}])
    by (repeat constructor).
  split; [exact Hnan|]. split; [reflexivity|].
  exact (proj1 (proj2 (proj1 (@exit_log_is_shown_newest_first exampleRuntime
                                [] _ NaN) Hnan))).
Defined.

End ExitLogViewInstances.

(** ** Refreshing the exit log *)

Section Refetch.
Import JS App.
Context `{Runtime}.
Variable getTime : string -> number.
Variable toLocaleTimeString : string -> string.

Lemma addFetched_length (exits : list (string * string))
    (existing : gset string) (newEntries : list ExitLogEntry)
    (h : list (list string)) :
  length (addFetched getTime toLocaleTimeString exits existing newEntries h).1
  <= length newEntries + length exits.
Proof.
  revert existing newEntries h.
  induction exits as [|[name ts] exits IH]; intros existing newEntries h.
  { cbn. lia. }
  cbn [addFetched].
  unfold alloc, sort, join, read, mbind, St_bind, mret, St_ret.
  cbn. destruct (bool_decide _).
  - etrans; [apply IH|]. lia.
  - etrans; [apply IH|]. rewrite length_app. cbn. lia.
Qed.

Lemma addFetched_known (exits : list (string * string))
    (existing : gset string) (newEntries : list ExitLogEntry)
    (h : list (list string)) :
  (forall exit, exit ∈ exits -> exitId getTime exit ∈ existing) ->
  (addFetched getTime toLocaleTimeString exits existing newEntries h).1
  = newEntries.
Proof.
  revert h. induction exits as [|[name ts] exits IH]; intros h Hknown; [done|].
  cbn [addFetched].
  unfold alloc, sort, join, read, mbind, St_bind, mret, St_ret.
  cbn. rewrite lookup_app_r by done. rewrite Nat.sub_diag. cbn.
  rewrite list_insert_id
    by (rewrite lookup_app_r by done; by rewrite Nat.sub_diag).
  rewrite lookup_app_r by done. rewrite Nat.sub_diag. cbn.
  change (name +:+ "-" +:+ NumberToString (getTime ts))
    with (exitId getTime (name, ts)).
  rewrite bool_decide_eq_true_2 by (apply Hknown; by left).
  apply IH. intros exit Hin. apply Hknown. by right.
Qed.

(** X10. Refreshing is idempotent while the log has room: when the
    fetched exits and the entries already logged number at most 50
    together, fetching the same exits again (the 60-second refresh that
    finds nothing new) returns the log unchanged, no entry added, dropped
    or moved. *)
Theorem refetch_changes_nothing
    (exits : list (string * string)) (prevLog : list ExitLogEntry)
    (h : list (list string)) :
  Forall (fun entry => names entry < length h) prevLog ->
  length exits + length prevLog <= 50 ->
  let first := fetchAllExits getTime toLocaleTimeString exits prevLog h in
  (fetchAllExits getTime toLocaleTimeString exits first.1 first.2).1
  = first.1.
Proof.
  intros Hwf Hroom. cbn zeta.
  unfold fetchAllExits at 2 3 4, mbind, St_bind, mret, St_ret.
  destruct (entryIds_spec prevLog h) as (h1 & -> & Hlen & Hsorted & _).
  pose proof (addFetched_length exits
                (list_to_set (map (keyOf h) prevLog)) [] h1) as Hcount.
  destruct (addFetched_spec getTime toLocaleTimeString exits
              (list_to_set (map (keyOf h) prevLog)) [] h1)
    as (added & ext & Hadd & Hfetched & _ & Hcover & _).
  rewrite Hadd in Hcount |- *. cbn [fst snd app length] in Hcount |- *.
  rewrite (take_ge (added ++ prevLog)) by (rewrite length_app; lia).
  assert (Hold : forall e, e ∈ prevLog ->
            keyOf (h1 ++ ext) e = keyOf h e).
  { intros e He. apply keyOf_ext. rewrite sortedNames_app; [apply Hsorted|].
    rewrite Hlen. rewrite Forall_forall in Hwf. by apply Hwf. }
  unfold fetchAllExits, mbind, St_bind, mret, St_ret.
  destruct (entryIds_spec (added ++ prevLog) (h1 ++ ext))
    as (h2 & -> & _ & _ & _).
  rewrite (surjective_pairing (addFetched _ _ _ _ _ _)). cbn [fst].
  rewrite addFetched_known.
  - cbn [app]. apply take_ge. rewrite length_app. lia.
  - intros exit Hin. apply elem_of_list_to_set, list_elem_of_fmap.
    destruct (Hcover exit Hin) as [Hk|Hk].
    + apply elem_of_list_to_set, list_elem_of_fmap in Hk
        as (entry & Hk & Hentry).
      exists entry. split; [by rewrite Hold|]. apply elem_of_app. by right.
    + apply list_elem_of_fmap in Hk as (entry & Hk & Hentry).
      exists entry. split; [done|]. apply elem_of_app. by left.
Qed.

End Refetch.

Section RefetchInstances.
Import JS App.

(** Two exits fetched into an empty log, then fetched again. *)
Lemma refetch_changes_nothing_witness :
  let exits := [("Alice", "1000"); ("Bob", "2000")] in
  let fetch :=
    @fetchAllExits exampleRuntime (@StringToNumber exampleRuntime) id exits in
  Forall (fun entry : ExitLogEntry =>
            names entry < length ([] : list (list string))) []
  /\ length exits + length ([] : list ExitLogEntry) <= 50
  /\ length (fetch [] []).1 = 2
  /\ (fetch (fetch [] []).1 (fetch [] []).2).1 = (fetch [] []).1.
Proof.
  cbn zeta. split; [constructor|]. split; [cbn; lia|].
  split; [reflexivity|].
  apply (@refetch_changes_nothing exampleRuntime
           (@StringToNumber exampleRuntime) id
           [("Alice", "1000"); ("Bob", "2000")] [] []);
    [constructor|cbn; lia].
Defined.

End RefetchInstances.


(** ** Responses in the declared format *)

Section WellFormedResponses.
Import JS ProcessResponse.
Context `{Runtime}.

Lemma normalized_min_max (a b : number) :
  num_le a b -> Math_min a b = a /\ Math_max a b = b.
Proof.
  unfold num_le, Math_min, Math_max. intros Hle. rewrite Hle.
  by destruct a, b.
Qed.

Lemma processEntry_backendEntry (p : ProcessedPrediction) :
  normalized p -> processEntry (backendEntry p) = Ok (Some p).
Proof.
  intros [Hx Hy]. destruct p as [tid n k a b c d]. cbn in *.
  destruct (num_le_not_NaN _ _ Hx) as [-> ->].
  destruct (num_le_not_NaN _ _ Hy) as [-> ->]. cbn.
  destruct (normalized_min_max _ _ Hx) as [-> ->].
  by destruct (normalized_min_max _ _ Hy) as [-> ->].
Qed.

(** X11. A response in the declared format is decoded without loss:
    when [predictions] maps each track id to
    [[name, confidence, x1, y1, x2, y2]] with x1 <= x2 and y1 <= y2,
    [processWebSocketResponse] returns exactly these records, one per
    entry and in the order of the entries, with name, confidence and box
    unchanged. *)
Theorem declared_format_round_trip (records : list ProcessedPrediction) :
  Forall normalized records ->
  processWebSocketResponse (withPredictions (map backendEntry records))
  = Ok records.
Proof.
  intros Hnorm. rewrite processWebSocketResponse_withPredictions.
  rewrite (forEach_collects _ (map Some records) []).
  - cbn. f_equal. induction records as [|p records IH]; [done|].
    cbn. f_equal. apply IH. by apply Forall_cons in Hnorm as [_ ?].
  - induction Hnorm as [|p records Hp _ IH]; constructor; [|done].
    by apply processEntry_backendEntry.
Qed.

Lemma processEntry_source (entry : string * JsValue)
    (p : ProcessedPrediction) :
  processEntry entry = Ok (Some p) ->
  trackId p = entry.1 /\ exists l, entry.2 = JArray l /\ 6 <= length l.
Proof.
  destruct entry as [tid v]. intros Hp.
  split; [by apply processEntry_normalized in Hp as [_ ?]|].
  unfold processEntry in Hp. destruct v as [| | | | |l|]; try discriminate.
  exists l. split; [done|].
  by destruct (Nat.ltb_spec (length l) 6) as [|Hge]; [discriminate|].
Qed.

Lemma forEach_sources (entries : list (string * JsValue))
    (acc result : list ProcessedPrediction) :
  forEach entries acc = Ok result ->
  exists pushed,
    result = acc ++ pushed
    /\ map trackId pushed `sublist_of` map fst entries
    /\ Forall (fun p => exists l, (trackId p, JArray l) ∈ entries
                                  /\ 6 <= length l) pushed.
Proof.
  revert acc. induction entries as [|e entries IH]; intros acc.
  { cbn. intros [= <-]. exists []. rewrite app_nil_r.
    by repeat split; constructor. }
  cbn [forEach]. destruct (processEntry e) as [[p|]|err] eqn:E; cbn;
    [| |discriminate]; intros Hrest;
    destruct (IH _ Hrest) as (pushed & -> & Hsub & Hall).
  - destruct (processEntry_source e p E) as (Hid & l & Hl & Hlen).
    exists (p :: pushed). rewrite <- app_assoc. split; [done|]. split.
    + cbn. rewrite Hid. by constructor.
    + constructor.
      * exists l. split; [|done]. destruct e as [tid v]. cbn in *.
        subst. by left.
      * eapply Forall_impl; [exact Hall|].
        intros q (l' & Hin & Hlen'). exists l'. split; [by right|done].
  - exists pushed. split; [done|]. split.
    + cbn. by constructor.
    + eapply Forall_impl; [exact Hall|].
      intros q (l' & Hin & Hlen'). exists l'. split; [by right|done].
Qed.

(** X12. [processWebSocketResponse] invents nothing: every record it
    returns carries the key of an entry of [predictions] whose value is
    an array of at least six elements, and the records follow the order of
    the entries, at most one per entry. *)
Theorem records_come_from_entries (response : JsValue) :
  exists records,
    processWebSocketResponse response = Ok records
    /\ map trackId records `sublist_of` map fst (entriesOf response)
    /\ Forall (fun p => exists l, (trackId p, JArray l) ∈ entriesOf response
                                  /\ 6 <= length l) records
    /\ length records <= length (entriesOf response).
Proof.
  assert (Hempty : forall entries : list (string * JsValue),
    map trackId [] `sublist_of` map fst entries
    /\ Forall (fun p => exists l, (trackId p, JArray l) ∈ entries
                                  /\ 6 <= length l) []
    /\ length ([] : list ProcessedPrediction) <= length entries).
  { intros entries. split; [apply sublist_nil_l|]. split; [constructor|].
    cbn. lia. }
  unfold processWebSocketResponse, entriesOf.
  destruct (truthy response) eqn:Hr; cbn; [|by exists []].
  destruct (getProp response "predictions") as [predictions|err] eqn:Hp.
  2: { by destruct response. }
  cbn. destruct (truthy predictions) eqn:Ht; cbn; [|by exists []].
  destruct (Object_entries predictions) as [entries|err] eqn:He; cbn;
    [|by exists []].
  destruct (forEach entries []) as [result|err] eqn:Hf; [|by exists []].
  exists result. split; [done|].
  destruct (forEach_sources _ _ _ Hf) as (pushed & -> & Hsub & Hall).
  cbn [app]. split; [done|]. split; [done|].
  apply sublist_length in Hsub. by rewrite !length_map in Hsub.
Qed.

End WellFormedResponses.

Section WellFormedResponsesInstances.
Import JS ProcessResponse.

(** Alice's record, sent in the declared format, comes back as it is. *)
Lemma declared_format_round_trip_witness :
  Forall normalized [aliceRecord]
  /\ @processWebSocketResponse exampleRuntime
       (withPredictions [backendEntry aliceRecord])
     = Ok [aliceRecord].
Proof.
  assert (Hnorm : Forall normalized [aliceRecord])
    by (repeat constructor).
  split; [exact Hnorm|].
  exact (@declared_format_round_trip exampleRuntime [aliceRecord] Hnorm).
Defined.

End WellFormedResponsesInstances.

(** ** The size of a captured frame *)

Section FrameSize.
Import VideoInput.
Variable fl : Q -> Q.
Hypothesis rounding : rounds_to_nearest fl.

Lemma fl_Z (z : Z) : (0 <= z <= 2 ^ 53)%Z -> (fl (inject_Z z) == inject_Z z)%Q.
Proof. apply fl_integer, rounding. Qed.

(** The scaled side: the short side [short] of a frame whose long side
    [long] exceeds [MAX_DIMENSION]. *)
Lemma scaled_side (short long : Z) :
  (0 < short <= long)%Z -> (MAX_DIMENSION < long < 2 ^ 32)%Z ->
  let ratio := fl (inject_Z MAX_DIMENSION / inject_Z long) in
  let side := Qfloor (fl (inject_Z short * ratio)) in
  (0 <= side <= Z.min short MAX_DIMENSION)%Z.
Proof.
  intros Hshort Hlong ratio side. unfold MAX_DIMENSION in *.
  set (s := inject_Z short). set (l := inject_Z long).
  assert (Hs : (1 <= s)%Q) by (apply (inject_Z_le 1); lia).
  assert (Hsl : (s <= l)%Q) by (apply inject_Z_le; lia).
  assert (Hl : (1920 < l)%Q) by (apply (inject_Z_lt 1920); lia).
  assert (Hl' : (l <= 4294967296)%Q)
    by (apply (inject_Z_le long 4294967296); lia).
  set (d := (1920 / l)%Q).
  assert (Hdl : (d * l == 1920)%Q)
    by (unfold d; field; intros Hz; rewrite Hz in Hl; lra).
  assert (Hd0 : (0 < d)%Q).
  { unfold d, Qdiv. apply Qmult_lt_0_compat; [lra|].
    apply Qinv_lt_0_compat. lra. }
  assert (Hd1 : (d <= 1)%Q).
  { apply Qnot_lt_le. intros Hgt.
    assert (l < d * l)%Q; [|lra].
    rewrite <- (Qmult_1_l l) at 1. apply Qmult_lt_compat_r; lra. }
  assert (Hratio0 : (0 <= ratio)%Q).
  { unfold ratio. rewrite <- (fl_Z 0) by lia.
    apply (fl_monotone fl rounding). change (0 <= d)%Q. lra. }
  assert (Hratio1 : (ratio <= 1)%Q).
  { unfold ratio. rewrite <- (fl_Z 1) by lia.
    apply (fl_monotone fl rounding). change (d <= 1)%Q. lra. }
  assert (Hsmall : ((1 # 2 ^ 22) <= d)%Q).
  { apply Qnot_lt_le. intros Hlt.
    assert (d * l < 1920)%Q; [|lra].
    apply Qlt_le_trans with ((1 # 2 ^ 22) * l)%Q.
    - apply Qmult_lt_compat_r; lra.
    - apply Qle_trans with ((1 # 2 ^ 22) * 4294967296)%Q; [|by vm_compute].
      apply Qmult_le_l; [by vm_compute|exact Hl']. }
  destruct (fl_error fl rounding d) as [Hbelow Hratio].
  { eapply Qle_trans; [|exact Hsmall]. by vm_compute. }
  { eapply Qle_trans; [exact Hd1|]. by vm_compute. }
  change (fl d) with ratio in Hbelow, Hratio.
  assert (Hratio' : ((1 # 2 ^ 23) <= ratio)%Q).
  { eapply Qle_trans; [|exact Hbelow].
    apply Qle_trans with ((1 # 2 ^ 22) * (1 - (1 # 2 ^ 53)))%Q;
      [by vm_compute|].
    apply Qmult_le_compat_r; [exact Hsmall|by vm_compute]. }
  set (p := (s * ratio)%Q).
  assert (Hp0 : ((1 # 2 ^ 23) <= p)%Q).
  { unfold p. rewrite <- (Qmult_1_l (1 # 2 ^ 23)).
    apply Qle_trans with (1 * ratio)%Q.
    - apply Qmult_le_l; [lra|exact Hratio'].
    - apply Qmult_le_compat_r; [exact Hs|]. lra. }
  assert (Hps : (p <= s)%Q).
  { unfold p. rewrite <- (Qmult_1_r s) at 2. apply Qmult_le_l; lra. }
  assert (Hsd : (s * d <= 1920)%Q).
  { rewrite <- Hdl, (Qmult_comm s d). apply Qmult_le_l; lra. }
  assert (Hp : (p <= 1920 * (1 + (1 # 2 ^ 53)))%Q).
  { unfold p. eapply Qle_trans.
    - apply Qmult_le_l; [lra|exact Hratio].
    - rewrite Qmult_assoc. apply Qmult_le_compat_r; [exact Hsd|].
      by vm_compute. }
  assert (Hflp0 : (0 <= fl p)%Q).
  { rewrite <- (fl_Z 0) by lia. apply (fl_monotone fl rounding).
    eapply Qle_trans; [|exact Hp0]. by vm_compute. }
  assert (Hflps : (fl p <= s)%Q).
  { unfold s. rewrite <- (fl_Z short) by lia.
    by apply (fl_monotone fl rounding). }
  assert (Hflp : (fl p < 1921)%Q).
  { destruct (fl_error fl rounding p) as [_ Herr].
    { eapply Qle_trans; [|exact Hp0]. by vm_compute. }
    { eapply Qle_trans; [exact Hps|]. eapply Qle_trans; [exact Hsl|].
      eapply Qle_trans; [exact Hl'|]. by vm_compute. }
    eapply Qle_lt_trans; [exact Herr|].
    eapply Qle_lt_trans.
    - apply Qmult_le_compat_r; [exact Hp|]. by vm_compute.
    - by vm_compute. }
  change side with (Qfloor (fl p)) in *.
  assert (Hfloor : (inject_Z (Qfloor (fl p)) <= fl p)%Q) by apply Qfloor_le.
  split.
  - change 0%Z with (Qfloor 0). by apply Qfloor_resp_le.
  - apply Z.min_glb.
    + rewrite <- (Qfloor_Z short). by apply Qfloor_resp_le.
    + assert (Hlt : (inject_Z (Qfloor (fl p)) < inject_Z 1921)%Q)
        by (eapply Qle_lt_trans; [exact Hfloor|exact Hflp]).
      rewrite <- Zlt_Qlt in Hlt. lia.
Qed.

(** X13. [captureFrame] never makes the canvas larger than the frame or
    larger than [MAX_DIMENSION] on a side: a frame within the limit keeps
    its size; otherwise the longer side becomes [MAX_DIMENSION] exactly
    and the other side is scaled down and floored, staying between 0 and
    both its original length and [MAX_DIMENSION].  This holds for the
    binary64 arithmetic of the source, whose rounding is only assumed
    monotone, exact on integers and within 2^-53 of the exact value. *)
Theorem frame_size_is_bounded (videoWidth videoHeight : Z) :
  (0 < videoWidth < 2 ^ 32)%Z -> (0 < videoHeight < 2 ^ 32)%Z ->
  let size := frameSize fl videoWidth videoHeight in
  (0 <= size.1 <= Z.min videoWidth MAX_DIMENSION)%Z
  /\ (0 <= size.2 <= Z.min videoHeight MAX_DIMENSION)%Z
  /\ ((videoWidth <= MAX_DIMENSION)%Z -> (videoHeight <= MAX_DIMENSION)%Z ->
      size = (videoWidth, videoHeight))
  /\ ((MAX_DIMENSION < videoWidth)%Z \/ (MAX_DIMENSION < videoHeight)%Z ->
      Z.max size.1 size.2 = MAX_DIMENSION).
Proof.
  intros Hw Hh. cbn zeta. unfold frameSize.
  destruct (Z.ltb_spec MAX_DIMENSION videoWidth) as [Hwide|Hnarrow];
    destruct (Z.ltb_spec MAX_DIMENSION videoHeight) as [Htall|Hlow];
    cbn [orb];
    try (destruct (Z.ltb_spec videoHeight videoWidth)
           as [Hlandscape|Hportrait]);
    cbn [fst snd];
    try (pose proof (scaled_side videoHeight videoWidth
                       ltac:(unfold MAX_DIMENSION in *; lia)
                       ltac:(unfold MAX_DIMENSION in *; lia)) as Hside;
         cbn zeta in Hside);
    try (pose proof (scaled_side videoWidth videoHeight
                       ltac:(unfold MAX_DIMENSION in *; lia)
                       ltac:(unfold MAX_DIMENSION in *; lia)) as Hside';
         cbn zeta in Hside');
    unfold MAX_DIMENSION in *;
    (split; [lia|]); (split; [lia|]);
    (split; [intros; first [reflexivity|lia]|]);
    intros; lia.
Qed.

End FrameSize.

Section FrameSizeInstances.
Import VideoInput.

(** A 3840x2160 frame is captured at 1920x1080. *)
Lemma frame_size_is_bounded_witness :
  rounds_to_nearest (fun q => q)
  /\ (0 < 3840 < 2 ^ 32)%Z /\ (0 < 2160 < 2 ^ 32)%Z
  /\ frameSize (fun q => q) 3840 2160 = (1920, 1080)%Z
  /\ Z.max (frameSize (fun q => q) 3840 2160).1
       (frameSize (fun q => q) 3840 2160).2 = MAX_DIMENSION.
Proof.
  assert (Hw : (0 < 3840 < 2 ^ 32)%Z) by (split; reflexivity).
  assert (Hh : (0 < 2160 < 2 ^ 32)%Z) by (split; reflexivity).
  split; [exact exact_rounds_to_nearest|]. split; [exact Hw|].
  split; [exact Hh|]. split; [reflexivity|].
  destruct (frame_size_is_bounded (fun q => q) exact_rounds_to_nearest
              3840 2160 Hw Hh) as (_ & _ & _ & Hmax).
  apply Hmax. left. reflexivity.
Defined.

End FrameSizeInstances.

(** ** The log of the test tool *)

Section TestLog.
Import WebSocketTest.

Lemma take_app_take {A : Type} (n : nat) (l1 l2 : list A) :
  take n (l1 ++ take n l2) = take n (l1 ++ l2).
Proof.
  rewrite !take_app, take_take.
  by replace (Nat.min (n - length l1) n) with (n - length l1) by lia.
Qed.

Lemma logged_spec (calls : list (string * string)) (logs : list string) :
  length logs <= 100 ->
  logged calls logs = take 100 (rev (map line calls) ++ logs).
Proof.
  revert logs. induction calls as [|call calls IH]; intros logs Hlen.
  { cbn. by rewrite take_ge. }
  cbn [logged fold_left map rev]. fold (logged calls).
  rewrite IH by (unfold addLog; rewrite length_take; lia).
  unfold addLog. fold (line call). rewrite take_app_take.
  by rewrite <- app_assoc.
Qed.

(** X14. The log of the WebSocket test tool holds the last hundred
    lines, newest first: after any sequence of [addLog] calls it is the
    first hundred of the lines made by the calls taken in reverse order,
    each line being the clock reading cut to its time of day, a dash and
    the message; it never holds more than a hundred. *)
Theorem test_log_keeps_last_hundred (calls : list (string * string)) :
  logged calls [] = take 100 (rev (map line calls))
  /\ length (logged calls []) = Nat.min 100 (length calls)
  /\ line ("2025-04-01T12:34:56.789Z", "Connected")
     = "12:34:56.789 - Connected".
Proof.
  rewrite logged_spec by (cbn; lia). rewrite app_nil_r.
  split; [done|]. split; [|reflexivity].
  by rewrite length_take, length_rev, length_map.
Qed.

End TestLog.

(** ** The guards in front of the exit log *)

Section ExitGuards.
Import JS AppGuards.
Context `{Runtime}.

Lemma greater_than_zero_length (n : nat) :
  greater_than_zero (JNumber (num_of_nat n)) = Ok (0 <? n)%nat.
Proof.
  unfold greater_than_zero, num_of_nat, num_of_Z. cbn. f_equal.
  destruct n as [|n]; [done|].
  cbn [Nat.ltb Nat.leb]. rewrite negb_true_iff.
  destruct (Qle_bool (inject_Z (Z.of_nat (S n))) 0) eqn:E; [|done].
  apply Qle_bool_iff in E. change 0%Q with (inject_Z 0) in E.
  rewrite <- Zle_Qle in E. lia.
Qed.

(** An array of strings has a string conversion. *)
Lemma ToString_strings (names : list string) :
  exists joined, ToString (JArray (map JString names)) = Ok joined.
Proof.
  induction names as [|n names IH]; [by exists ""|].
  destruct IH as [joined IH]. cbn [map ToString] in *.
  destruct names as [|n' names]; [by exists n|].
  cbn [map] in *. rewrite IH. by eexists.
Qed.

(** X16. The [lastResponse] effect touches the exit log only for a
    response whose [exit_ids] is truthy and has a positive length: a
    missing, null or empty [exit_ids], a number or a boolean leave the log
    alone.  The guard does not ask for an array, so a non-empty string
    passes it and the updater throws on [sort()].  For a non-empty array
    the updater computes the identifier [sort().join(',')], which throws
    when an element has no conversion to a string and goes through for an
    array of strings.  [handleVideoStop] asks [Array.isArray] first: it
    leaves the log alone unless [exits] is a non-empty array, and then
    its updater throws exactly when the conversion of the array does. *)
Theorem exit_ids_guard
    (lastResponse data exit_ids : JsValue) (l : list JsValue)
    (names : list string) (s : string) :
  (getProp lastResponse "exit_ids" = Ok exit_ids ->
   (truthy exit_ids = false ->
    lastResponseExits lastResponse = Ok None)
   /\ (exit_ids = JArray l ->
       lastResponseExits lastResponse
       = if (0 <? length l)%nat
         then match ToString (JArray l) with
              | Ok _ => Ok (Some l)
              | Throw e => Throw e
              end
         else Ok None)
   /\ (exit_ids = JArray (map JString names) ->
       lastResponseExits lastResponse
       = Ok (if (0 <? length names)%nat then Some (map JString names)
             else None))
   /\ ((exists n, exit_ids = JNumber n) \/ (exists b, exit_ids = JBool b) ->
       lastResponseExits lastResponse = Ok None)
   /\ (exit_ids = JString s -> s <> "" ->
       lastResponseExits lastResponse = Throw TypeError))
  /\ (videoStopExits data = Ok None
      \/ exists exits,
           exits <> [] /\ getProp data "exits" = Ok (JArray exits)
           /\ videoStopExits data
              = match ToString (JArray exits) with
                | Ok _ => Ok (Some exits)
                | Throw e => Throw e
                end).
Proof.
  assert (Harray : forall v a, getProp v "exit_ids" = Ok (JArray a) ->
            lastResponseExits v
            = if (0 <? length a)%nat
              then match ToString (JArray a) with
                   | Ok _ => Ok (Some a)
                   | Throw e => Throw e
                   end
              else Ok None).
  { intros v a Hprop. unfold lastResponseExits. rewrite Hprop.
    cbn -[greater_than_zero ToString].
    rewrite greater_than_zero_length. cbn -[ToString].
    destruct a as [|x a]; [done|]. cbn -[ToString].
    by destruct (ToString (JArray (x :: a))). }
  split.
  - intros Hprop. split; [|split; [|split; [|split]]].
    + intros Hfalsy. unfold lastResponseExits. rewrite Hprop.
      cbn -[greater_than_zero]. by rewrite Hfalsy.
    + intros ->. by apply Harray.
    + intros ->. rewrite (Harray _ _ Hprop), length_map.
      destruct (ToString_strings names) as [joined ->].
      by destruct (0 <? length names)%nat.
    + unfold lastResponseExits. rewrite Hprop.
      intros [[n ->]|[b ->]]; cbn.
      * by destruct n as [| |q|]; cbn; try destruct (Qeq_bool q 0).
      * by destruct b.
    + intros -> Hne. unfold lastResponseExits. rewrite Hprop.
      cbn -[greater_than_zero].
      destruct (String.eqb_spec s "") as [|_]; [done|].
      cbn -[greater_than_zero].
      rewrite greater_than_zero_length. cbn.
      by destruct s.
  - unfold videoStopExits. destruct (truthy data) eqn:Hd; [|by left].
    destruct (getProp data "exits") as [exits|err] eqn:Hp.
    2: { by destruct data. }
    cbn -[greater_than_zero isArray truthy ToString].
    destruct (isArray exits) eqn:Harr.
    2: { rewrite andb_false_r. by left. }
    destruct exits as [| | | | |a|]; try discriminate.
    cbn -[greater_than_zero ToString].
    rewrite greater_than_zero_length. cbn -[ToString].
    destruct a as [|x a]; cbn -[ToString]; [by left|].
    right. exists (x :: a). split; [done|]. split; [done|].
    by destruct (ToString (JArray (x :: a))).
Qed.

End ExitGuards.

Section ExitGuardsInstances.
Import JS AppGuards.

(** A response whose [exit_ids] is the string "Alice" passes the guard
    of the effect and stops the updater; an array of two names goes
    through; and an array with an object that has its own [toString]
    stops the updater of [handleVideoStop]. *)
Lemma exit_ids_guard_witness :
  let lastResponse := JObject [("exit_ids", JString "Alice")] in
  let two := JObject [("exit_ids", JArray (map JString ["Bob"; "Alice"]))] in
  let bad := JArray [JObject [("toString", JNumber (Fin 0))]] in
  (getProp lastResponse "exit_ids" = Ok (JString "Alice")
   /\ "Alice" <> ""
   /\ @lastResponseExits exampleRuntime lastResponse = Throw TypeError)
  /\ (getProp two "exit_ids" = Ok (JArray (map JString ["Bob"; "Alice"]))
      /\ @lastResponseExits exampleRuntime two
         = Ok (Some [JString "Bob"; JString "Alice"]))
  /\ @videoStopExits exampleRuntime (JObject [("exits", JString "Alice")])
     = Ok None
  /\ @videoStopExits exampleRuntime (JObject [("exits", bad)])
     = Throw TypeError.
Proof.
  cbn zeta. split; [|split; [|split; reflexivity]].
  - split; [reflexivity|]. split; [discriminate|].
    destruct (@exit_ids_guard exampleRuntime
                (JObject [("exit_ids", JString "Alice")]) JNull
                (JString "Alice") [] [] "Alice") as [Heffect _].
    destruct (Heffect eq_refl) as (_ & _ & _ & _ & Hthrow).
    apply Hthrow; [reflexivity|discriminate].
  - split; [reflexivity|].
    destruct (@exit_ids_guard exampleRuntime
                (JObject [("exit_ids", JArray (map JString ["Bob"; "Alice"]))])
                JNull (JArray (map JString ["Bob"; "Alice"])) []
                ["Bob"; "Alice"] "") as [Heffect _].
    destruct (Heffect eq_refl) as (Hfalsy & _ & Hnames & _).
    exact (Hnames eq_refl).
Defined.

End ExitGuardsInstances.

(** ** The hook of utils/processResponse.ts *)

Section UseWebSocketRuns.
Import JS Hook.

Lemma initiated_UseWebSocket_processNextFrame (captured : bool) (s : State) :
  initiated (effects (UseWebSocket.processNextFrame captured) s)
  = if sends captured s then 1 else 0.
Proof.
  destruct s as [ic er lr qs ws q p ca]. unfold sends. cbn.
  destruct captured, p, q as [|f q], ws as [[]|]; reflexivity.
Qed.

Lemma initiated_UseWebSocket_queueFrame
    (captured : bool) (frameBlob : Blob) (s : State) :
  initiated (effects (UseWebSocket.queueFrame captured frameBlob) s)
  = let queue := enqueue (frameQueueRef s) frameBlob in
    if sends captured (setQueueSize (length queue) (set_frameQueueRef queue s))
    then 1 else 0.
Proof.
  unfold enqueue. rewrite <- dropOldest_lastn.
  pose proof (initiated_dropOldest (frameQueueRef s)) as Hout.
  destruct s as [ic er lr qs ws q p ca]. cbn in Hout |- *.
  destruct (dropOldest q) as [q' out] eqn:E.
  unfold initiated in Hout. cbn in Hout.
  unfold effects, UseWebSocket.queueFrame, UseWebSocket.processNextFrame,
    sends, mbind, M_bind, when, gets, modify, effect, mret, M_ret.
  cbn. rewrite E. cbn.
  assert (Hne : q' ++ [frameBlob] <> []) by (by destruct q').
  destruct p, captured; cbn;
    try destruct (q' ++ [frameBlob]) as [|g r] eqn:E2;
    try done; cbn; try destruct ws as [[]|]; cbn;
    unfold initiated; rewrite ?List.filter_app, ?length_app, ?Hout;
    reflexivity.
Qed.

(** One step of this hook, as [handle_step] for the other. *)
Lemma UseWebSocket_handle_step (e : UseWebSocket.Event) (s : State) :
  let s' := exec (UseWebSocket.handle e) s in
  let k := initiated (effects (UseWebSocket.handle e) s) in
  (k = 1 /\ processingRef s' = true
         /\ (UseWebSocket.settles e s = true \/ processingRef s = false))
  \/ (k = 0 /\ processingRef s' =
                if UseWebSocket.settles e s then false else processingRef s).
Proof.
  destruct e as [t|t|t|r|c| | |data|c|parsed|c f|f throws|];
    cbn [UseWebSocket.handle UseWebSocket.settles].
  - right. destruct t, s as [ic er lr qs [ws|] q p ca]; by unfold_M.
  - right. destruct t, s as [ic er lr qs [ws|] q p ca]; by unfold_M.
  - right. destruct t, s as [ic er lr qs [[]|] q p ca]; by unfold_M.
  - right. destruct s as [ic er lr qs [ws|] q p ca]; by unfold_M.
  - destruct s as [ic er lr qs ws q p ca]. cbn.
    destruct c, p, q as [|f q], ws as [[]|]; cbn; auto.
  - right. by unfold_M.
  - right. by unfold_M.
  - right. destruct s as [ic er lr qs ws q p ca].
    by destruct data as [[d|]| |[d|]].
  - rewrite initiated_UseWebSocket_processNextFrame,
      exec_UseWebSocket_processNextFrame, exec_processNextFrame.
    destruct (sends c s) eqn:Hs; [left|right]; cbn; [|done].
    apply sends_processing in Hs. auto.
  - right. destruct s. by destruct parsed.
  - rewrite initiated_UseWebSocket_queueFrame, exec_UseWebSocket_queueFrame.
    cbn zeta. rewrite exec_processNextFrame.
    destruct (sends c _) eqn:Hs; [left|right]; cbn; [|done].
    apply sends_processing in Hs. cbn in Hs. auto.
  - right. destruct s as [ic er lr qs ws q p ca].
    cbn. destruct ws as [[]|]; cbn; try done; by destruct throws.
  - right. destruct s. by unfold_M.
Qed.

Lemma sent_UseWebSocket_processNextFrame (captured : bool) (s : State) :
  sent (effects (UseWebSocket.processNextFrame captured) s) = [].
Proof.
  destruct s as [ic er lr qs ws q p ca]. cbn.
  destruct captured, p, q as [|f q], ws as [[]|]; reflexivity.
Qed.

Lemma sent_UseWebSocket_queueFrame
    (captured : bool) (frameBlob : Blob) (s : State) :
  sent (effects (UseWebSocket.queueFrame captured frameBlob) s) = [].
Proof.
  destruct s as [ic er lr qs ws q p ca].
  pose proof (sent_dropOldest q) as Hout.
  destruct (dropOldest q) as [q' out] eqn:E. cbn [snd] in Hout.
  unfold effects, exec, UseWebSocket.queueFrame,
    UseWebSocket.processNextFrame, mbind, M_bind, when, gets, modify,
    effect, mret, M_ret.
  cbn. rewrite E. cbn.
  destruct p, captured; cbn;
    try destruct (q' ++ [frameBlob]) as [|g r] eqn:E2;
    cbn; try destruct ws as [[]|]; cbn;
    rewrite ?sent_app, ?Hout; cbn; rewrite ?Hout; done.
Qed.

Lemma UseWebSocket_sent_length (e : UseWebSocket.Event) (s : State) :
  length (sent (effects (UseWebSocket.handle e) s))
  = match UseWebSocket.bearing e with
    | endsRead => if UseWebSocket.settles e s then 0 else 1
    | _ => UseWebSocket.greets e s
    end.
Proof.
  destruct e as [t|t|t|r|c| | |data|c|parsed|c f|f throws|];
    cbn [UseWebSocket.handle UseWebSocket.bearing UseWebSocket.settles
         UseWebSocket.greets];
    [| | | |reflexivity| | | | | | | |].
  - destruct s as [ic er lr qs ws q p ca]. unfold_M. cbn. by destruct t, ws.
  - destruct s as [ic er lr qs ws q p ca]. unfold_M. cbn. by destruct t, ws.
  - destruct s as [ic er lr qs ws q p ca]. unfold_M. cbn.
    by destruct t, ws as [[]|].
  - destruct s as [ic er lr qs ws q p ca]. unfold_M. cbn. by destruct ws.
  - by unfold_M.
  - by unfold_M.
  - destruct s. by destruct data as [[d|]| |[d|]].
  - by rewrite sent_UseWebSocket_processNextFrame.
  - destruct s. by destruct parsed.
  - by rewrite sent_UseWebSocket_queueFrame.
  - destruct s as [ic er lr qs ws q p ca]. cbn.
    destruct ws as [[]|], throws; reflexivity.
  - by unfold_M.
Qed.

Lemma UseWebSocket_settles_bearing (e : UseWebSocket.Event) (s : State) :
  match UseWebSocket.bearing e with
  | answer | failure => UseWebSocket.settles e s = true
  | neutral => UseWebSocket.settles e s = false
  | endsRead => True
  end.
Proof. by destruct e. Qed.

Lemma UseWebSocket_after_run (events : list UseWebSocket.Event) (s : State) :
  after UseWebSocket.handle events s = exec (UseWebSocket.run events) s.
Proof.
  revert s. induction events as [|e events IH]; intros s; [done|].
  cbn [after UseWebSocket.run]. by rewrite exec_bind, IH.
Qed.

(** X17. The send discipline of the earlier hook.  Its handlers keep the
    flag as those of the other hook do: while the flag is set, no handler
    starts a read unless it is one that clears the flag, and after any
    run a set flag has something in flight.  But [onopen] sends its
    handshake payload without looking at the flag, and the message that
    answers the handshake clears the flag like any other, so a frame can
    be started while another is in flight.  In a run in which the socket
    neither closes nor fails while something is in flight and every
    message answers a payload, what is in flight (frames being read,
    payloads sent and not answered) never exceeds the flag plus the
    number of handshakes sent so far. *)
Theorem earlier_hook_send_discipline
    (events : list UseWebSocket.Event) (e : UseWebSocket.Event) (s : State) :
  let inflight :=
    inFlight UseWebSocket.handle UseWebSocket.bearing events initial
      grounded in
  let s' := exec (UseWebSocket.run events) initial in
  (orderly UseWebSocket.handle UseWebSocket.bearing events initial grounded
   = true ->
   forall n,
     let start := take n events in
     flights (inFlight UseWebSocket.handle UseWebSocket.bearing start
                initial grounded)
     <= flag (exec (UseWebSocket.run start) initial)
        + greeted UseWebSocket.handle UseWebSocket.greets start initial)
  /\ (processingRef s' = true -> 1 <= flights inflight)
  /\ (processingRef s = true -> UseWebSocket.settles e s = false ->
      initiated (effects (UseWebSocket.handle e) s) = 0
      /\ processingRef (exec (UseWebSocket.handle e) s) = true).
Proof.
  cbn zeta. split; [|split].
  - intros Hord n. apply (orderly_take _ _ _ n) in Hord.
    pose proof (orderly_flights UseWebSocket.handle UseWebSocket.bearing
                  UseWebSocket.settles UseWebSocket.greets
                  UseWebSocket_handle_step UseWebSocket_sent_length
                  UseWebSocket_settles_bearing
                  (take n events) initial grounded 0 Hord) as Hup.
    rewrite UseWebSocket_after_run in Hup. cbn in Hup. cbn zeta. lia.
  - intros Hset.
    pose proof (flag_flights UseWebSocket.handle UseWebSocket.bearing
                  UseWebSocket.settles UseWebSocket.greets
                  UseWebSocket_handle_step UseWebSocket_sent_length
                  UseWebSocket_settles_bearing
                  events initial grounded) as Hlow.
    rewrite UseWebSocket_after_run in Hlow. unfold flag at 2 in Hlow.
    rewrite Hset in Hlow. apply Hlow. cbn. lia.
  - intros Hp Hs.
    destruct (UseWebSocket_handle_step e s) as [(Hk & Hp' & Hwhy)|(Hk & Hp')];
      cbn zeta in *.
    + destruct Hwhy; congruence.
    + rewrite Hs in Hp'. split; congruence.
Qed.

(** X18. What a message does in the earlier hook depends on its body.
    Every message clears the flag and leaves the frame queue alone.  A
    string or a binary body that parses is stored as [lastResponse] and
    [processNextFrame] is deferred by a zero timeout; one that does not
    parse is logged and nothing else changes.  A Blob body takes the
    early return: no timeout is set, so the next frame waits for the next
    [queueFrame] call, and [lastResponse] changes only when the text
    reader is done.  At every open the handshake bytes 0 to 4 are sent on
    the socket in the ref unless it is still connecting, whatever the
    flag. *)
Theorem earlier_hook_messages
    (response : JsValue) (parsed : option JsValue) (captured : bool)
    (r : ReadyState) (s : State) :
  (forall data,
     let '(_, s', out) := UseWebSocket.onmessage data s in
     processingRef s' = false /\ frameQueueRef s' = frameQueueRef s
     /\ initiated out = 0)
  /\ (forall data, data = UseWebSocket.textData (Some response)
                   \/ data = UseWebSocket.bufferData (Some response) ->
      let '(blob, s', out) := UseWebSocket.onmessage data s in
      blob = false
      /\ s' = setLastResponse response (set_processingRef false s)
      /\ In (setTimeout 0) out)
  /\ (forall data, data = UseWebSocket.textData None
                   \/ data = UseWebSocket.bufferData None ->
      let '(blob, s', out) := UseWebSocket.onmessage data s in
      blob = false /\ s' = set_processingRef false s
      /\ ~ In (setTimeout 0) out)
  /\ (let '(blob, s', out) := UseWebSocket.onmessage UseWebSocket.blobData s in
      blob = true /\ s' = set_processingRef false s
      /\ ~ In (setTimeout 0) out)
  /\ exec (UseWebSocket.text_onload parsed) s
     = match parsed with
       | Some jsonData => setLastResponse jsonData s
       | None => s
       end
  /\ (wsRef s = Some r -> r <> CONNECTING ->
      In (send UseWebSocket.testData)
         (effects (UseWebSocket.onopen captured) s)).
Proof.
  destruct s as [ic er lr qs ws q p ca].
  split; [|split; [|split; [|split; [|split]]]].
  - by intros [[d|]| |[d|]].
  - intros data [-> | ->]; (split; [reflexivity|]); (split; [reflexivity|]);
      vm_compute; repeat (first [left; reflexivity|right]).
  - intros data [-> | ->]; (split; [reflexivity|]); (split; [reflexivity|]);
      vm_compute; intuition discriminate.
  - split; [reflexivity|]. split; [reflexivity|].
    vm_compute. intuition discriminate.
  - by destruct parsed.
  - intros Hws Hr. cbn in Hws. subst ws.
    destruct r; [done| | |];
      destruct captured, p, q as [|f q]; vm_compute;
      repeat (first [left; reflexivity|right]).
Qed.

End UseWebSocketRuns.

Section UseWebSocketInstances.
Import JS Hook.

(** One handshake, two frames on the socket: the answer to the
    handshake arrives while the first frame is being read and clears the
    flag, the second frame is started, and both are sent.  The bound is
    reached.  And while the flag is set, a further [queueFrame] only
    queues. *)
Lemma earlier_hook_send_discipline_witness :
  let fA := jpeg [Byte.x01] in
  let fB := jpeg [Byte.x02] in
  let events :=
    [UseWebSocket.Connect false; UseWebSocket.ReadyStateChange OPEN;
     UseWebSocket.Open false; UseWebSocket.QueueFrame true fA;
     UseWebSocket.Message (UseWebSocket.textData (Some noPredictions));
     UseWebSocket.QueueFrame true fB;
     UseWebSocket.ReaderLoad fA false; UseWebSocket.ReaderLoad fB false] in
  let inflight :=
    inFlight UseWebSocket.handle UseWebSocket.bearing events initial
      grounded in
  let s := awaiting fA in
  let e := UseWebSocket.QueueFrame true fB in
  (orderly UseWebSocket.handle UseWebSocket.bearing events initial grounded
   = true
   /\ processingRef (exec (UseWebSocket.run events) initial) = true
   /\ sent (effects (UseWebSocket.run events) initial)
      = [UseWebSocket.testData; bytes fA; bytes fB]
   /\ inflight = {| reading := 0; unanswered := 2 |}
   /\ greeted UseWebSocket.handle UseWebSocket.greets events initial = 1
   /\ flights inflight <= 1 + 1
   /\ 1 <= flights inflight)
  /\ processingRef s = true /\ UseWebSocket.settles e s = false
  /\ initiated (effects (UseWebSocket.handle e) s) = 0
  /\ processingRef (exec (UseWebSocket.handle e) s) = true.
Proof.
  cbn zeta.
  destruct (earlier_hook_send_discipline
              [UseWebSocket.Connect false; UseWebSocket.ReadyStateChange OPEN;
               UseWebSocket.Open false;
               UseWebSocket.QueueFrame true (jpeg [Byte.x01]);
               UseWebSocket.Message
                 (UseWebSocket.textData (Some noPredictions));
               UseWebSocket.QueueFrame true (jpeg [Byte.x02]);
               UseWebSocket.ReaderLoad (jpeg [Byte.x01]) false;
               UseWebSocket.ReaderLoad (jpeg [Byte.x02]) false]
              (UseWebSocket.QueueFrame true (jpeg [Byte.x02]))
              (awaiting (jpeg [Byte.x01])))
    as (Hup & Hlow & Hflag).
  split.
  - do 5 (split; [reflexivity|]).
    split; [exact (Hup eq_refl 8)|exact (Hlow eq_refl)].
  - split; [reflexivity|]. split; [reflexivity|].
    exact (Hflag eq_refl eq_refl).
Defined.

(** A response that parses is stored and the next frame deferred; at
    open the handshake goes out on an open socket. *)
Lemma earlier_hook_messages_witness :
  UseWebSocket.onmessage (UseWebSocket.textData (Some noPredictions))
    (awaiting (jpeg []))
  = (false,
     setLastResponse noPredictions
       (set_processingRef false (awaiting (jpeg []))),
     [console_log "Received message:"; console_log "Parsed response:";
      setTimeout 0])
  /\ wsRef connected = Some OPEN /\ OPEN <> CONNECTING
  /\ In (send UseWebSocket.testData)
        (effects (UseWebSocket.onopen false) connected).
Proof.
  split; [reflexivity|]. split; [reflexivity|]. split; [discriminate|].
  destruct (earlier_hook_messages noPredictions None false OPEN connected)
    as (_ & _ & _ & _ & _ & Hopen).
  apply Hopen; [reflexivity|discriminate].
Defined.

End UseWebSocketInstances.

(** ** The capture loop *)

Section CaptureLoop.
Import VideoInput.
Variable fl : Q -> Q.

(** X19. The capture loop neither stops nor doubles: every call of
    [captureFrame] either requests exactly one animation frame and starts
    no encoding, or starts exactly one [toBlob] and requests none, and the
    callback of [toBlob] requests exactly one and hands the parent the
    blob it got, if it got one.  An encoding is started only when
    [fpsInterval] has elapsed since [lastCaptureTimeRef], the video is
    ready and the frame was drawn; the frame counter goes up by one with
    every frame drawn and not otherwise; and with [FRAME_SKIP = 1] the
    skip counter is 0 after every drawn frame, so no drawn frame is
    skipped. *)
Theorem capture_loop_rearms_once
    (elements : option Video) (now : Q) (hasContext : bool)
    (failure : option Failure) (refs : Refs) (blob : option Hook.Blob) :
  let result := captureFrame fl elements now hasContext failure refs in
  let refs' := result.1 in
  let actions := result.2 in
  rearms actions + encodings actions = 1
  /\ frameCountRef refs' = frameCountRef refs + draws actions
  /\ draws actions <= 1
  /\ (draws actions = 1 -> skipFrameCountRef refs' = 0)
  /\ (encodings actions = 1 ->
      draws actions = 1
      /\ exists video,
           elements = Some video
           /\ (fpsIntervalRef fl <= fl (now - lastCaptureTimeRef refs))%Q
           /\ (0 < videoWidth video)%Z /\ (0 < videoHeight video)%Z
           /\ paused video = false /\ ended video = false)
  /\ handed actions = []
  /\ rearms (blobCallback blob refs') = 1
  /\ encodings (blobCallback blob refs') = 0
  /\ handed (blobCallback blob refs') = match blob with
                                        | Some b => [b]
                                        | None => []
                                        end.
Proof.
  cbn zeta.
  assert (Hcallback : forall r,
    rearms (blobCallback blob r) = 1
    /\ encodings (blobCallback blob r) = 0
    /\ handed (blobCallback blob r) = match blob with
                                      | Some b => [b]
                                      | None => []
                                      end).
  { intros r. unfold blobCallback. destruct blob as [b|]; [|done].
    by destruct (frameCountRef r mod 30 =? 0)%nat. }
  enough (Hcall :
    let result := captureFrame fl elements now hasContext failure refs in
    rearms result.2 + encodings result.2 = 1
    /\ frameCountRef result.1 = frameCountRef refs + draws result.2
    /\ draws result.2 <= 1
    /\ (draws result.2 = 1 -> skipFrameCountRef result.1 = 0)
    /\ (encodings result.2 = 1 ->
        draws result.2 = 1
        /\ exists video,
             elements = Some video
             /\ (fpsIntervalRef fl <= fl (now - lastCaptureTimeRef refs))%Q
             /\ (0 < videoWidth video)%Z /\ (0 < videoHeight video)%Z
             /\ paused video = false /\ ended video = false)
    /\ handed result.2 = []).
  { cbn zeta in Hcall.
    destruct Hcall as (H1 & H2 & H3 & H4 & H5 & H6).
    destruct (Hcallback
                (captureFrame fl elements now hasContext failure refs).1)
      as (H7 & H8 & H9).
    repeat (split; [assumption|]). assumption. }
  cbn zeta. unfold captureFrame.
  destruct elements as [video|]; [|cbn; repeat split; try lia; done].
  destruct (Qle_bool (fpsIntervalRef fl) (fl (now - lastCaptureTimeRef refs)))
    eqn:Helapsed; cbn [negb]; [|cbn; repeat split; try lia; done].
  apply Qle_bool_iff in Helapsed.
  destruct (Z.leb_spec (videoWidth video) 0) as [|Hw]; cbn [orb];
    [cbn; repeat split; try lia; done|].
  destruct (Z.leb_spec (videoHeight video) 0) as [|Hh]; cbn [orb];
    [cbn; repeat split; try lia; done|].
  destruct (paused video) eqn:Hpaused; cbn [orb];
    [cbn; repeat split; try lia; done|].
  destruct (ended video) eqn:Hended; cbn [orb];
    [cbn; repeat split; try lia; done|].
  destruct (frameSize fl (videoWidth video) (videoHeight video))
    as [width height].
  destruct hasContext; cbn [negb];
    [|cbn; repeat split; try lia; done].
  assert (Hskip : ((skipFrameCountRef refs + 1) mod FRAME_SKIP = 0)%nat)
    by apply Nat.mod_1_r.
  destruct failure as [[]|]; cbn [fst snd frameCountRef skipFrameCountRef
                                    lastCaptureTimeRef];
    rewrite ?Hskip; cbn [Nat.eqb];
    destruct (S (frameCountRef refs) mod 15 =? 0)%nat; cbn;
    repeat split; try lia; try done; try (by exists video).
Qed.

End CaptureLoop.

Section CaptureLoopInstances.
Import VideoInput.

(** A ready 640x480 video, a full interval after the last capture: one
    frame is drawn and one encoding started. *)
Lemma capture_loop_rearms_once_witness :
  let video := {| videoWidth := 640; videoHeight := 480;
                  paused := false; ended := false |} in
  let refs := {| lastCaptureTimeRef := 0; frameCountRef := 0;
                 skipFrameCountRef := 0 |} in
  let result := captureFrame (fun q => q) (Some video) 20 true None refs in
  encodings result.2 = 1
  /\ result.2 = [setCanvasSize 640 480; clearRect 640 480;
                 drawImage 640 480; toBlob "image/jpeg" JPEG_QUALITY]
  /\ (lastCaptureTimeRef result.1 == 50 # 3)%Q
  /\ draws result.2 = 1 /\ frameCountRef result.1 = 1.
Proof.
  cbn zeta.
  assert (Hencoding :
    encodings
      (captureFrame (fun q => q)
         (Some {| videoWidth := 640; videoHeight := 480;
                  paused := false; ended := false |}) 20 true None
         {| lastCaptureTimeRef := 0; frameCountRef := 0;
            skipFrameCountRef := 0 |}).2 = 1) by reflexivity.
  split; [exact Hencoding|]. split; [reflexivity|].
  split; [reflexivity|].
  destruct (capture_loop_rearms_once (fun q => q)
              (Some {| videoWidth := 640; videoHeight := 480;
                       paused := false; ended := false |}) 20 true None
              {| lastCaptureTimeRef := 0; frameCountRef := 0;
                 skipFrameCountRef := 0 |} None)
    as (_ & _ & _ & _ & Hdrawn & _).
  split; [exact (proj1 (Hdrawn Hencoding))|reflexivity].
Defined.

End CaptureLoopInstances.

